(** * tesi_prova.py: Merton jump-diffusion simulation, calibration and option pricing

    A shallow embedding of [tesi_prova.py] and the properties of its
    numerical core.

    Number model.  A NumPy [float64] scalar is a value of [npfloat]: a real
    number, one of the two infinities, or NaN.  Arithmetic on finite values
    is exact real arithmetic (rounding, overflow to infinity, underflow and
    the sign of zero are outside the model); the special values follow the
    IEEE rules NumPy applies (inf - inf = NaN, 0 * inf = NaN, x / 0 = inf,
    log 0 = -inf, ...).  Scalars are NumPy scalars, as the script passes
    them, so a division by zero yields inf or NaN instead of raising.  A
    zero is +0.0.  Where a property is about overflow, the simulator is
    taken in the float64 range: [merton_jump_diffusion_paths_with] passes
    every arithmetic result through [to_range], which turns a result beyond
    the range into an infinity.

    Effects.  The global NumPy random source is an explicit state threaded
    through every routine that draws; Python exceptions are an error result.
    The module-level names read by [monte_carlo_option_pricing] are a record
    of optional bindings. *)

From Stdlib Require Import Reals Lra Lia ZArith Bool String List.
Import ListNotations.

Open Scope R_scope.

(** ** The standard normal distribution function ([scipy.stats.norm.cdf]) *)

Module NormalCdf.

Definition gauss_kernel (t : R) : R := exp (- (t * t) / 2).

Lemma gauss_kernel_derivable (x : R) : derivable_pt gauss_kernel x.
Proof. unfold gauss_kernel. reg. Qed.

Lemma gauss_kernel_continuous (x : R) : continuity_pt gauss_kernel x.
Proof. apply derivable_continuous_pt, gauss_kernel_derivable. Qed.

Lemma gauss_kernel_integrable (a b : R) : Riemann_integrable gauss_kernel a b.
Proof.
  destruct (Rle_dec a b) as [Hab | Hab].
  - apply continuity_implies_RiemannInt;
      [exact Hab | intros; apply gauss_kernel_continuous].
  - apply RiemannInt_P1, continuity_implies_RiemannInt;
      [lra | intros; apply gauss_kernel_continuous].
Qed.

(** The integral of the kernel from 0 to [x] (negative when [x < 0]). *)
Definition gauss_area (x : R) : R := RiemannInt (gauss_kernel_integrable 0 x).

(** Phi(x) = 1/2 + (1/sqrt(2 pi)) * integral_0^x exp(-t^2/2) dt. *)
Definition Phi (x : R) : R := 1 / 2 + gauss_area x / sqrt (2 * PI).

End NormalCdf.

(** ** NumPy float64 scalars *)

Inductive npfloat : Type :=
| Fin (r : R)
| PInf
| NInf
| NaN.

Definition isnan (x : npfloat) : bool :=
  match x with NaN => true | _ => false end.

Definition isinf (x : npfloat) : bool :=
  match x with PInf | NInf => true | _ => false end.

Definition is_fin (x : npfloat) : Prop :=
  match x with Fin _ => True | _ => False end.

(** The real number carried by a finite value (0 for the special values;
    only used where the value is known to be finite). *)
Definition real_part (x : npfloat) : R :=
  match x with Fin r => r | _ => 0 end.

Definition fneg (x : npfloat) : npfloat :=
  match x with
  | Fin a => Fin (- a)
  | PInf => NInf
  | NInf => PInf
  | NaN => NaN
  end.

Definition fadd (x y : npfloat) : npfloat :=
  match x, y with
  | NaN, _ | _, NaN => NaN
  | Fin a, Fin b => Fin (a + b)
  | PInf, NInf | NInf, PInf => NaN
  | PInf, _ | _, PInf => PInf
  | NInf, _ | _, NInf => NInf
  end.

Definition fsub (x y : npfloat) : npfloat := fadd x (fneg y).

(** The sign of a finite factor decides the product with an infinity. *)
Definition scale_inf (a : R) (inf : npfloat) : npfloat :=
  if Rlt_dec 0 a then inf
  else if Rlt_dec a 0 then fneg inf
  else NaN.

Definition fmul (x y : npfloat) : npfloat :=
  match x, y with
  | NaN, _ | _, NaN => NaN
  | Fin a, Fin b => Fin (a * b)
  | Fin a, inf => scale_inf a inf
  | inf, Fin b => scale_inf b inf
  | PInf, PInf | NInf, NInf => PInf
  | PInf, NInf | NInf, PInf => NInf
  end.

(** A zero divisor stands for +0.0: the quotient takes the sign of the
    numerator. *)
Definition fdiv (x y : npfloat) : npfloat :=
  match x, y with
  | NaN, _ | _, NaN => NaN
  | Fin a, Fin b =>
      if Req_EM_T b 0 then scale_inf a PInf else Fin (a / b)
  | Fin _, _ => Fin 0
  | inf, Fin b => if Rlt_dec b 0 then fneg inf else inf
  | _, _ => NaN
  end.

(** [x ** 2] *)
Definition fpow2 (x : npfloat) : npfloat := fmul x x.

Definition fexp (x : npfloat) : npfloat :=
  match x with
  | Fin a => Fin (exp a)
  | PInf => PInf
  | NInf => Fin 0
  | NaN => NaN
  end.

Definition flog (x : npfloat) : npfloat :=
  match x with
  | Fin a => if Rlt_dec 0 a then Fin (ln a)
             else if Req_EM_T a 0 then NInf else NaN
  | PInf => PInf
  | NInf | NaN => NaN
  end.

Definition fsqrt (x : npfloat) : npfloat :=
  match x with
  | Fin a => if Rle_dec 0 a then Fin (sqrt a) else NaN
  | PInf => PInf
  | NInf | NaN => NaN
  end.

(** [scipy.stats.norm.cdf] *)
Definition norm_cdf (x : npfloat) : npfloat :=
  match x with
  | Fin a => Fin (NormalCdf.Phi a)
  | PInf => Fin 1
  | NInf => Fin 0
  | NaN => NaN
  end.

(** IEEE [<]: false as soon as a NaN is involved. *)
Definition fltb (x y : npfloat) : bool :=
  match x, y with
  | NaN, _ | _, NaN => false
  | Fin a, Fin b => if Rlt_dec a b then true else false
  | NInf, NInf => false
  | NInf, _ => true
  | _, PInf => match x with PInf => false | _ => true end
  | _, _ => false
  end.

(** [np.maximum] and [np.minimum] propagate NaN. *)
Definition np_maximum (x y : npfloat) : npfloat :=
  if isnan x then x else if isnan y then y
  else if fltb x y then y else x.

Definition np_minimum (x y : npfloat) : npfloat :=
  if isnan x then x else if isnan y then y
  else if fltb y x then y else x.

Definition np_clip (x lo hi : npfloat) : npfloat :=
  np_minimum (np_maximum x lo) hi.

(** Python's built-in [min(a, b)] and [max(a, b)] keep the first argument
    unless the second compares strictly better. *)
Definition py_min (a b : npfloat) : npfloat := if fltb b a then b else a.
Definition py_max (a b : npfloat) : npfloat := if fltb a b then b else a.

(** Arrays: a 1-D array is a list, a 2-D array the list of its rows. *)
Definition fsum (l : list npfloat) : npfloat := fold_left fadd l (Fin 0).

(** [np.mean] of a 1-D array; the mean of an empty array is 0/0 = NaN. *)
Definition np_mean (l : list npfloat) : npfloat :=
  fdiv (fsum l) (Fin (INR (length l))).

Definition column (j : nat) (rows : list (list npfloat)) : list npfloat :=
  map (fun row => nth j row NaN) rows.

(** [np.mean(a, axis=0)] of an array with [ncols] columns. *)
Definition np_mean_axis0 (ncols : nat) (rows : list (list npfloat)) : list npfloat :=
  map (fun j => np_mean (column j rows)) (seq 0 ncols).

(** [np.cumsum] along a row. *)
Fixpoint cumsum_from (acc : npfloat) (l : list npfloat) : list npfloat :=
  match l with
  | [] => []
  | x :: xs => fadd acc x :: cumsum_from (fadd acc x) xs
  end.

Definition cumsum (l : list npfloat) : list npfloat :=
  match l with
  | [] => []
  | x :: xs => x :: cumsum_from x xs
  end.

Fixpoint map2 {A B C : Type} (f : A -> B -> C) (l1 : list A) (l2 : list B) : list C :=
  match l1, l2 with
  | a :: t1, b :: t2 => f a b :: map2 f t1 t2
  | _, _ => []
  end.

Definition mat_map {A B : Type} (f : A -> B) (m : list (list A)) : list (list B) :=
  map (map f) m.

Definition mat_map2 {A B C : Type} (f : A -> B -> C)
  (m1 : list (list A)) (m2 : list (list B)) : list (list C) :=
  map2 (map2 f) m1 m2.

(** ** Helper functions *)

(** [prices.shift(1)]: every value moves one position down and a NaN
    enters at the top. *)
Definition shift1 (prices : list npfloat) : list npfloat :=
  match prices with
  | [] => []
  | _ :: _ => NaN :: removelast prices
  end.

(** Log returns from a price series; [dropna] removes the NaN entries. *)
Definition compute_log_returns (prices : list npfloat) : list npfloat :=
  filter (fun v => negb (isnan v))
    (map2 (fun p q => flog (fdiv p q)) prices (shift1 prices)).

(** [np.abs] *)
Definition fabs (v : npfloat) : npfloat :=
  match v with
  | Fin a => Fin (Rabs a)
  | PInf | NInf => PInf
  | NaN => NaN
  end.

(** pandas' [Series.std()]: the sample standard deviation (one degree of
    freedom removed) of the entries that are not NaN, and NaN when there
    are fewer than two of them.  The NaN entries count as 0 in the sum and
    are left out of the squared deviations. *)
Definition series_std (values : list npfloat) : npfloat :=
  let count := length (filter (fun v => negb (isnan v)) values) in
  if (count <=? 1)%nat then NaN
  else
    let zeroed := map (fun v => if isnan v then Fin 0 else v) values in
    let avg := fdiv (fsum zeroed) (Fin (INR count)) in
    let sqr := map (fun v => if isnan v then Fin 0 else fpow2 (fsub avg v)) values in
    fsqrt (fdiv (fsum sqr) (Fin (INR (count - 1)))).

(** Jumps in log returns: the entries whose absolute value exceeds a
    multiple of the standard deviation. *)
Definition identify_jumps (log_returns : list npfloat)
  (jump_threshold_sigma_multiples : npfloat) : list bool :=
  let sigma := series_std log_returns in
  let jump_threshold := fmul jump_threshold_sigma_multiples sigma in
  map (fun v => fltb jump_threshold (fabs v)) log_returns.

(** The default [jump_threshold_sigma_multiples=2]. *)
Definition jump_threshold_default : npfloat := Fin 2.

(** ** Exceptions and the random source *)

Inductive exn : Type :=
| ValueError
| ZeroDivisionError
| IndexError
| NameError
| OverflowError.

Inductive result (A : Type) : Type :=
| Ok (a : A)
| Raise (e : exn).

Arguments Ok {A} a.
Arguments Raise {A} e.

(** The state of NumPy's global generator: what the next standard normal
    draw and the next Poisson draw (as a function of the rate) will be at
    each position of the stream, and the current position. *)
Record rng : Type := mk_rng {
  normal_tape : nat -> R;
  poisson_tape : nat -> R -> nat;
  cursor : nat
}.

Definition advance (k : nat) (g : rng) : rng :=
  mk_rng (normal_tape g) (poisson_tape g) (cursor g + k).

(** Computations that draw from the generator and may raise. *)
Definition M (A : Type) : Type := rng -> result (A * rng).

Definition ret {A : Type} (a : A) : M A := fun g => Ok (a, g).

Definition raise {A : Type} (e : exn) : M A := fun _ => Raise e.

Definition bind {A B : Type} (c : M A) (k : A -> M B) : M B :=
  fun g => match c g with
           | Ok (a, g') => k a g'
           | Raise e => Raise e
           end.

Notation "x <- c ;; k" := (bind c (fun x => k))
  (at level 61, c at next level, right associativity).
Notation "' pat <- c ;; k" := (bind c (fun x => match x with pat => k end))
  (at level 61, pat pattern, c at next level, right associativity).

(** The value a computation returns, without the generator state. *)
Definition outcome {A : Type} (r : result (A * rng)) : result A :=
  match r with
  | Ok (a, _) => Ok a
  | Raise e => Raise e
  end.

Fixpoint draw_list {A : Type} (d : M A) (n : nat) : M (list A) :=
  match n with
  | O => ret []
  | S k => x <- d ;; xs <- draw_list d k ;; ret (x :: xs)
  end.

(** An array of shape [(rows, cols)] is filled in row-major order. *)
Definition draw_matrix {A : Type} (d : M A) (rows cols : nat) : M (list (list A)) :=
  draw_list (draw_list d cols) rows.

Definition next_normal : M R :=
  fun g => Ok (normal_tape g (cursor g), advance 1 g).

Definition next_poisson (lam : R) : M nat :=
  fun g => Ok (poisson_tape g (cursor g) lam, advance 1 g).

(** [np.random.normal] rejects a scale whose sign bit is set (a NaN scale
    passes and yields NaN draws). *)
Definition negative (x : npfloat) : bool :=
  match x with
  | Fin a => if Rlt_dec a 0 then true else false
  | NInf => true
  | _ => false
  end.

Definition normal_draw (loc scale : npfloat) : M npfloat :=
  z <- next_normal ;; ret (fadd loc (fmul scale (Fin z))).

Definition np_random_normal (loc scale : npfloat) : M npfloat :=
  if negative scale then raise ValueError else normal_draw loc scale.

Definition np_random_normal_size (loc scale : npfloat) (rows cols : nat)
  : M (list (list npfloat)) :=
  if negative scale then raise ValueError
  else draw_matrix (normal_draw loc scale) rows cols.

(** [np.random.poisson] accepts a rate in [[0, POISSON_LAM_MAX]] only, and
    returns 0 without drawing when the rate is 0. *)
Definition POISSON_LAM_MAX : R :=
  IZR (2 ^ 63 - 1) - 10 * sqrt (IZR (2 ^ 63 - 1)).

Definition poisson_rate (lam : npfloat) : option R :=
  match lam with
  | Fin l => if Rlt_dec POISSON_LAM_MAX l then None
             else if Rlt_dec l 0 then None else Some l
  | _ => None
  end.

Definition poisson_draw (l : R) : M nat :=
  if Req_EM_T l 0 then ret O else next_poisson l.

Definition np_random_poisson (lam : npfloat) : M nat :=
  match poisson_rate lam with
  | None => raise ValueError
  | Some l => poisson_draw l
  end.

Definition np_random_poisson_size (lam : npfloat) (rows cols : nat)
  : M (list (list nat)) :=
  match poisson_rate lam with
  | None => raise ValueError
  | Some l => draw_matrix (poisson_draw l) rows cols
  end.

(** ** Merton jump diffusion with jump drift correction *)

(** The price floor applied by [np.maximum(S, 1e-8)]. *)
Definition price_floor : R := 1e-8.

Definition merton_jump_diffusion_paths
  (S0 r sigma lambda_ mu_J sigma_J : npfloat)
  (num_steps num_simulations : Z) (dt : npfloat) : M (list (list npfloat)) :=
  (* Jump drift correction term *)
  let m := fsub (fexp (fadd mu_J (fmul (Fin 0.5) (fpow2 sigma_J)))) (Fin 1) in
  (* np.zeros((num_simulations, num_steps + 1)) refuses a negative dimension *)
  if ((num_simulations <? 0) || (num_steps + 1 <? 0))%Z then raise ValueError
  (* S[:, 0] = S0 needs a column 0 *)
  else if (num_steps + 1 =? 0)%Z then raise IndexError
  else
    let rows := Z.to_nat num_simulations in
    let cols := Z.to_nat num_steps in
    dW <- np_random_normal_size (Fin 0) (fsqrt dt) rows cols ;;
    N_t <- np_random_poisson_size (fmul lambda_ dt) rows cols ;;
    Js <- np_random_normal_size mu_J sigma_J rows cols ;;
    let jumps := mat_map2 (fun j n => fmul j (Fin (INR n))) Js N_t in
    let drift :=
      fmul (fsub (fsub r (fmul lambda_ m)) (fmul (Fin 0.5) (fpow2 sigma))) dt in
    let diffusion := mat_map (fun w => fadd drift (fmul sigma w)) dW in
    let log_returns := mat_map2 fadd diffusion jumps in
    let S :=
      map (fun lr => S0 :: map (fun c => fmul S0 (fexp c)) (cumsum lr)) log_returns in
    ret (mat_map (fun s => np_maximum s (Fin price_floor)) S).

(** The default [dt=1]. *)
Definition dt_default : npfloat := Fin 1.

(** ** The float64 range *)

(** The arithmetic above is exact and never overflows.  Binary64 rounding
    to nearest replaces a result whose magnitude reaches
    2^1024 - 2^970 by the infinity of its sign; [float_max] is the largest
    float64 number. *)
Definition float_overflow : R := IZR (2 ^ 1024 - 2 ^ 970).

Definition float_max : R := IZR (2 ^ 1024 - 2 ^ 971).

Definition to_range (v : npfloat) : npfloat :=
  match v with
  | Fin a => if Rle_dec float_overflow a then PInf
             else if Rle_dec a (- float_overflow) then NInf
             else Fin a
  | _ => v
  end.

(** The simulator once more, with the result of every arithmetic operation
    passed through a rounding [rnd].  With the identity it is
    [merton_jump_diffusion_paths] as defined above; with [to_range] results
    beyond the float64 range become infinities (rounding inside the range
    stays exact). *)
Section Rounded.

Variable rnd : npfloat -> npfloat.

Fixpoint cumsum_from_with (acc : npfloat) (l : list npfloat) : list npfloat :=
  match l with
  | [] => []
  | x :: xs => rnd (fadd acc x) :: cumsum_from_with (rnd (fadd acc x)) xs
  end.

Definition cumsum_with (l : list npfloat) : list npfloat :=
  match l with
  | [] => []
  | x :: xs => x :: cumsum_from_with x xs
  end.

Definition normal_draw_with (loc scale : npfloat) : M npfloat :=
  z <- next_normal ;; ret (rnd (fadd loc (rnd (fmul scale (Fin z))))).

Definition np_random_normal_size_with (loc scale : npfloat) (rows cols : nat)
  : M (list (list npfloat)) :=
  if negative scale then raise ValueError
  else draw_matrix (normal_draw_with loc scale) rows cols.

Definition merton_jump_diffusion_paths_with
  (S0 r sigma lambda_ mu_J sigma_J : npfloat)
  (num_steps num_simulations : Z) (dt : npfloat) : M (list (list npfloat)) :=
  let m :=
    rnd (fsub (rnd (fexp (rnd (fadd mu_J
                                 (rnd (fmul (Fin 0.5) (rnd (fpow2 sigma_J))))))))
              (Fin 1)) in
  if ((num_simulations <? 0) || (num_steps + 1 <? 0))%Z then raise ValueError
  else if (num_steps + 1 =? 0)%Z then raise IndexError
  else
    let rows := Z.to_nat num_simulations in
    let cols := Z.to_nat num_steps in
    dW <- np_random_normal_size_with (Fin 0) (rnd (fsqrt dt)) rows cols ;;
    N_t <- np_random_poisson_size (rnd (fmul lambda_ dt)) rows cols ;;
    Js <- np_random_normal_size_with mu_J sigma_J rows cols ;;
    let jumps := mat_map2 (fun j n => rnd (fmul j (Fin (INR n)))) Js N_t in
    let drift :=
      rnd (fmul (rnd (fsub (rnd (fsub r (rnd (fmul lambda_ m))))
                           (rnd (fmul (Fin 0.5) (rnd (fpow2 sigma))))))
                dt) in
    let diffusion := mat_map (fun w => rnd (fadd drift (rnd (fmul sigma w)))) dW in
    let log_returns := mat_map2 (fun d j => rnd (fadd d j)) diffusion jumps in
    let S :=
      map (fun lr => S0 :: map (fun c => rnd (fmul S0 (rnd (fexp c))))
                             (cumsum_with lr))
        log_returns in
    ret (mat_map (fun s => np_maximum s (Fin price_floor)) S).

End Rounded.

(** ** The calibration objective *)

(** [np.log(paths[:, 1:] / paths[:, :-1])] on one row. *)
Definition row_log_returns (row : list npfloat) : list npfloat :=
  map2 (fun next prev => flog (fdiv next prev)) (tl row) (removelast row).

Definition any (p : npfloat -> bool) (l : list npfloat) : bool := existsb p l.

(** Everything [calculate_mse] does after the simulation; the array of
    simulated log returns has [num_steps] columns. *)
Definition mse_of_paths (simulated_paths : list (list npfloat))
  (historical_returns : list npfloat) (num_steps : Z) : npfloat :=
  let simulated_log_returns := map row_log_returns simulated_paths in
  let mean_simulated_returns :=
    np_mean_axis0 (Z.to_nat num_steps) simulated_log_returns in
  let min_len :=
    Nat.min (length mean_simulated_returns) (length historical_returns) in
  let mean_simulated_returns := firstn min_len mean_simulated_returns in
  let hist_returns := firstn min_len historical_returns in
  if any isnan mean_simulated_returns || any isinf mean_simulated_returns
  then PInf
  else np_mean (map2 (fun s h => fpow2 (fsub s h)) mean_simulated_returns hist_returns).

Definition calculate_mse (params historical_returns : list npfloat)
  (S0 r : npfloat) (num_steps num_simulations : Z) : M npfloat :=
  match params with
  | [sigma; lambda_; mu_J; sigma_J] =>
      simulated_paths <-
        merton_jump_diffusion_paths S0 r sigma lambda_ mu_J sigma_J
          num_steps num_simulations dt_default ;;
      ret (mse_of_paths simulated_paths historical_returns num_steps)
  | _ => raise ValueError
  end.

(** ** Parameter calibration with differential evolution *)

(** The fields of [scipy.optimize.OptimizeResult] the script reads. *)
Record OptimizeResult : Type := mk_result {
  x : list npfloat;
  fun_ : npfloat;
  success : bool
}.

(** [np.mean(rows, axis=0)] of a list of 1-D arrays: the arrays must have
    one common length. *)
Definition np_mean_axis0_of (rows : list (list npfloat)) : result (list npfloat) :=
  match rows with
  | [] => Ok []
  | r0 :: rest =>
      if forallb (fun r => Nat.eqb (length r) (length r0)) rest
      then Ok (np_mean_axis0 (length r0) rows)
      else Raise ValueError
  end.

Definition lift {A : Type} (r : result A) : M A :=
  match r with
  | Ok a => ret a
  | Raise e => raise e
  end.

(** [for i in idx: a = body(i, a)] *)
Fixpoint for_loop {A : Type} (idx : list nat) (body : nat -> A -> M A) (a : A) : M A :=
  match idx with
  | [] => ret a
  | i :: rest => a' <- body i a ;; for_loop rest body a'
  end.

Definition py_range (n : Z) : list nat := seq 0 (Z.to_nat n).

(** The aggregate in the words of the specification: over the retained
    runs, the coordinate-wise arithmetic mean of the parameter vectors and
    the mean of the objective values; no result when nothing is retained. *)
Definition aggregate_retained (retained : list OptimizeResult)
  : result (option (list npfloat) * option npfloat) :=
  match retained with
  | [] => Ok (None, None)
  | _ :: _ =>
      match np_mean_axis0_of (map x retained) with
      | Ok avg_params => Ok (Some avg_params, Some (np_mean (map fun_ retained)))
      | Raise e => Raise e
      end
  end.

Section Calibration.

(** [scipy.optimize.differential_evolution], an external optimizer: it is
    given the objective, the bounds and the settings [maxiter], [tol],
    [disp], [popsize] and [workers], evaluates the objective as it sees fit
    (drawing from the random source) and returns its result. *)
Variable differential_evolution :
  (list npfloat -> M npfloat) -> list (R * R) -> Z -> R -> bool -> Z -> Z ->
  M OptimizeResult.

Definition calibrate_merton_parameters (historical_returns : list npfloat)
  (S0 r : npfloat) (num_steps num_simulations_calibration : Z)
  : M (OptimizeResult * npfloat) :=
  let bounds := [ (0.01, 2.0);    (* sigma *)
                  (0.01, 1.0);    (* lambda *)
                  (-0.5, 0.5);    (* mu_J *)
                  (0.01, 1.0) ]   (* sigma_J *) in
  result <-
    differential_evolution
      (fun params =>
         calculate_mse params historical_returns S0 r num_steps
           num_simulations_calibration)
      bounds 1000%Z 1e-2 true 50%Z (-1)%Z ;;
  ret (result, fun_ result).

(** The three lists the loop of [run_multiple_calibrations] appends to. *)
Definition calibration_acc : Type :=
  (list OptimizeResult * list (list npfloat) * list npfloat)%type.

Definition run_multiple_calibrations (historical_returns : list npfloat)
  (S0 r : npfloat) (num_steps num_simulations_calibration num_runs : Z)
  : M (list OptimizeResult * option (list npfloat) * option npfloat) :=
  '(results, calibrated_parameters, mses) <-
    for_loop (py_range num_runs)
      (fun _ (acc : calibration_acc) =>
         let '(results, calibrated_parameters, mses) := acc in
         '(result, mse) <-
           calibrate_merton_parameters historical_returns S0 r num_steps
             num_simulations_calibration ;;
         if success result
         then ret (results ++ [result],
                   calibrated_parameters ++ [x result],
                   mses ++ [mse])
         else ret acc)
      ([], [], []) ;;
  match calibrated_parameters with
  | _ :: _ =>
      avg_params <- lift (np_mean_axis0_of calibrated_parameters) ;;
      ret (results, Some avg_params, Some (np_mean mses))
  | [] => ret (results, None, None)
  end.

(** One independent calibration run and its optimizer result. *)
Definition calibration_run (historical_returns : list npfloat)
  (S0 r : npfloat) (num_steps num_simulations_calibration : Z) : M OptimizeResult :=
  '(result, _) <-
    calibrate_merton_parameters historical_returns S0 r
      num_steps num_simulations_calibration ;;
  ret result.

(** The multi-run calibration in the words of the specification: run
    [num_runs] times, retain the successful runs, aggregate them. *)
Definition multi_run_spec (historical_returns : list npfloat)
  (S0 r : npfloat) (num_steps num_simulations_calibration num_runs : Z)
  : M (list OptimizeResult * option (list npfloat) * option npfloat) :=
  runs <-
    draw_list
      (calibration_run historical_returns S0 r num_steps
         num_simulations_calibration)
      (Z.to_nat num_runs) ;;
  let retained := filter success runs in
  '(avg_params, avg_mse) <- lift (aggregate_retained retained) ;;
  ret (retained, avg_params, avg_mse).

End Calibration.

(** ** Option pricing *)

Open Scope string_scope.

(** The Black-Scholes call and put prices. *)
Definition black_scholes_option_pricing (ST K T r_annual sigma_annual : npfloat)
  (option_type : string) : result npfloat :=
  let d1 :=
    fdiv (fadd (flog (fdiv ST K))
               (fmul (fadd r_annual (fmul (Fin 0.5) (fpow2 sigma_annual))) T))
         (fmul sigma_annual (fsqrt T)) in
  let d2 := fsub d1 (fmul sigma_annual (fsqrt T)) in
  if String.eqb option_type "call" then
    Ok (fsub (fmul ST (norm_cdf d1))
             (fmul (fmul K (fexp (fmul (fneg r_annual) T))) (norm_cdf d2)))
  else if String.eqb option_type "put" then
    Ok (fsub (fmul (fmul K (fexp (fmul (fneg r_annual) T))) (norm_cdf (fneg d2)))
             (fmul ST (norm_cdf (fneg d1))))
  else Raise ValueError.

(** The adjusted risk-free rate [r_n] and volatility [sigma_n] under jumps;
    returns [(n_jumps, Z, m_annual, r_n, sigma_n, lambda_n)]. *)
Definition compute_jump_parameters
  (r_annual sigma_annual lambda_annual mu_J_annual sigma_J_annual T : npfloat)
  : M (nat * npfloat * npfloat * npfloat * npfloat * npfloat) :=
  (* Simulate Poisson-distributed number of jumps *)
  n_jumps <- np_random_poisson (fmul lambda_annual T) ;;
  (* Standard normal variable *)
  Z <- np_random_normal (Fin 0) (Fin 1) ;;
  (* Expected jump adjustment *)
  let m_annual :=
    fsub (fexp (fadd mu_J_annual (fmul (Fin 0.5) (fpow2 sigma_J_annual)))) (Fin 1) in
  (* Adjusted risk-free rate under jumps *)
  let r_n :=
    fadd (fsub r_annual (fmul lambda_annual m_annual))
         (fdiv (fmul (Fin (INR n_jumps)) (flog (fadd (Fin 1) m_annual))) T) in
  (* Adjusted volatility under jumps *)
  let sigma_n :=
    fsqrt (fadd (fpow2 sigma_annual)
                (fdiv (fmul (Fin (INR n_jumps)) (fpow2 sigma_J_annual)) T)) in
  (* Adjusted lambda under jumps *)
  let lambda_n := fmul lambda_annual (fadd (Fin 1) m_annual) in
  ret (n_jumps, Z, m_annual, r_n, sigma_n, lambda_n).

(** S(T) under the jump-diffusion model given N(T) = n. *)
Definition stock_price_with_jumps (S0 r_n sigma_n T Z : npfloat) : npfloat :=
  fmul S0
    (fexp (fadd (fsub (fmul r_n T) (fmul (fmul (Fin 0.5) (fpow2 sigma_n)) T))
                (fmul (fmul sigma_n (fsqrt T)) Z))).

(** [scipy.special.xlogy(k, x)] for an integer [k]: 0 when [k = 0]. *)
Definition xlogy (k : nat) (v : npfloat) : npfloat :=
  match k with
  | O => Fin 0
  | S _ => fmul (Fin (INR k)) (flog v)
  end.

(** [scipy.stats.poisson.logpmf(k, mu)]: NaN unless [mu >= 0], otherwise
    [xlogy(k, mu) - gammaln(k + 1) - mu]. *)
Definition poisson_logpmf (k : nat) (mu : npfloat) : npfloat :=
  if negative mu || isnan mu then NaN
  else fsub (fsub (xlogy k mu) (Fin (ln (INR (fact k))))) mu.

(** One pass through the body of the inner loop of
    [black_scholes_with_jumps]: the loop variable [n_jumps] is rebound at
    once by the draw. *)
Definition jump_scenario
  (ST K T r_annual sigma_annual lambda_annual mu_J_annual sigma_J_annual : npfloat)
  (option_type : string) (n_jumps : nat) (bs_jumps_option_price : npfloat)
  : M npfloat :=
  (* Compute jump parameters for each scenario *)
  '(n_jumps, Z, m_annual, r_n, sigma_n, lambda_n) <-
    compute_jump_parameters r_annual sigma_annual lambda_annual mu_J_annual
      sigma_J_annual T ;;
  (* Poisson probability weight *)
  let poisson_weight := fexp (poisson_logpmf n_jumps (fmul lambda_n T)) in
  (* Prevent extreme exponentiation *)
  let safe_r_n_T := py_max (py_min (fmul r_n T) (Fin 700)) (Fin (-700)) in
  let discount_factor := fexp (fneg safe_r_n_T) in
  (* Black-Scholes components *)
  let d1 :=
    fdiv (fadd (flog (fdiv ST K))
               (fmul (fadd r_n (fmul (Fin 0.5) (fpow2 sigma_n))) T))
         (fmul sigma_n (fsqrt T)) in
  let d2 := fsub d1 (fmul sigma_n (fsqrt T)) in
  let d1 := np_clip d1 (Fin (-10)) (Fin 10) in
  let d2 := np_clip d2 (Fin (-10)) (Fin 10) in
  (* Standard Black-Scholes formula with jump influence *)
  bsc <-
    (if String.eqb option_type "call" then
       ret (fsub (fmul ST (norm_cdf d1))
                 (fmul (fmul K discount_factor) (norm_cdf d2)))
     else if String.eqb option_type "put" then
       ret (fsub (fmul (fmul K discount_factor) (norm_cdf (fneg d2)))
                 (fmul ST (norm_cdf (fneg d1))))
     else raise ValueError) ;;
  ret (fadd bs_jumps_option_price (fmul poisson_weight bsc)).

(** The option price under the Black-Scholes model with jumps.  The
    accumulator starts as the Python integer 0: when no pass of the loop
    ran, the final division is Python's and raises on a zero divisor. *)
Definition black_scholes_with_jumps
  (ST K T r_annual sigma_annual lambda_annual mu_J_annual sigma_J_annual : npfloat)
  (option_type : string) (num_simulations : Z) : M npfloat :=
  bs_jumps_option_price <-
    for_loop (py_range num_simulations)
      (fun _ acc =>
         for_loop (py_range 10)
           (jump_scenario ST K T r_annual sigma_annual lambda_annual mu_J_annual
              sigma_J_annual option_type)
           acc)
      (Fin 0) ;;
  if (num_simulations =? 0)%Z then raise ZeroDivisionError
  else ret (fdiv bs_jumps_option_price (Fin (IZR num_simulations))).

(** The module-level names [monte_carlo_option_pricing] reads: bound by the
    script only after a successful calibration. *)
Record module_globals : Type := mk_globals {
  ST : option npfloat;
  sigma_calibrated : option npfloat;
  lambda_calibrated : option npfloat;
  mu_J_calibrated : option npfloat;
  sigma_J_calibrated : option npfloat
}.

Definition global_name (v : option npfloat) : M npfloat :=
  match v with
  | Some a => ret a
  | None => raise NameError
  end.

(** Python's [int(x)] on a float truncates toward zero and refuses NaN and
    the infinities. *)
Definition trunc (a : R) : Z :=
  if Rle_dec 0 a then Int_part a else (- Int_part (- a))%Z.

Definition py_int (v : npfloat) : result Z :=
  match v with
  | Fin a => Ok (trunc a)
  | NaN => Raise ValueError
  | PInf | NInf => Raise OverflowError
  end.

(** Monte Carlo option price under the Merton jump-diffusion model.  The
    arguments [S0], [sigma], [lambda_], [mu_J], [sigma_J] and [num_steps]
    are received and not read. *)
Definition monte_carlo_option_pricing (G : module_globals)
  (S0 r r_annual sigma lambda_ mu_J sigma_J T K : npfloat)
  (option_type : string) (num_simulations : Z) (num_steps : option Z)
  : M npfloat :=
  (* Compute number of steps based on T (252 trading days per year) *)
  num_steps <- lift (py_int (fmul (Fin 252) T)) ;;
  S0_arg <- global_name (ST G) ;;
  sigma_arg <- global_name (sigma_calibrated G) ;;
  lambda_arg <- global_name (lambda_calibrated G) ;;
  mu_J_arg <- global_name (mu_J_calibrated G) ;;
  sigma_J_arg <- global_name (sigma_J_calibrated G) ;;
  simulated_paths <-
    merton_jump_diffusion_paths S0_arg r sigma_arg lambda_arg mu_J_arg
      sigma_J_arg num_steps num_simulations dt_default ;;
  (* Determine the payoff based on the option type *)
  payoffs <-
    (if String.eqb option_type "call" then
       ret (map (fun row => np_maximum (fsub (last row NaN) K) (Fin 0))
              simulated_paths)
     else if String.eqb option_type "put" then
       ret (map (fun row => np_maximum (fsub K (last row NaN)) (Fin 0))
              simulated_paths)
     else raise ValueError) ;;
  (* Discount average payoff to present value *)
  ret (fmul (fexp (fmul (fneg r_annual) T)) (np_mean payoffs)).

Close Scope string_scope.

(** ** Definitions the properties are stated with *)

(** A generator whose every draw is 0. *)
Definition rng0 : rng := mk_rng (fun _ => 0) (fun _ _ => O) O.

(** Three scripted optimizer runs, the second one unsuccessful, and an
    optimizer that replays them in order. *)
Definition run_a : OptimizeResult :=
  mk_result [Fin 0.2; Fin 0.1; Fin 0; Fin 0.3] (Fin 1) true.

Definition run_b : OptimizeResult :=
  mk_result [Fin 1; Fin 1; Fin 0.5; Fin 1] (Fin 9) false.

Definition run_c : OptimizeResult :=
  mk_result [Fin 0.4; Fin 0.3; Fin 0; Fin 0.1] (Fin 3) true.

Definition scripted_optimizer (_ : list npfloat -> M npfloat) (_ : list (R * R))
  (_ : Z) (_ : R) (_ : bool) (_ _ : Z) : M OptimizeResult :=
  fun g => Ok (nth (cursor g) [run_a; run_b; run_c] run_b, advance 1 g).

(** The array [merton_jump_diffusion_paths] builds from its three batches
    of draws. *)
Definition paths_of_draws (S0 r sigma lambda_ mu_J sigma_J dt : npfloat)
  (dW : list (list npfloat)) (N_t : list (list nat)) (Js : list (list npfloat))
  : list (list npfloat) :=
  let m := fsub (fexp (fadd mu_J (fmul (Fin 0.5) (fpow2 sigma_J)))) (Fin 1) in
  let jumps := mat_map2 (fun j n => fmul j (Fin (INR n))) Js N_t in
  let drift :=
    fmul (fsub (fsub r (fmul lambda_ m)) (fmul (Fin 0.5) (fpow2 sigma))) dt in
  let diffusion := mat_map (fun w => fadd drift (fmul sigma w)) dW in
  let log_returns := mat_map2 fadd diffusion jumps in
  mat_map (fun s => np_maximum s (Fin price_floor))
    (map (fun lr => S0 :: map (fun c => fmul S0 (fexp c)) (cumsum lr)) log_returns).

Definition shape {A : Type} (rows cols : nat) (m : list (list A)) : Prop :=
  length m = rows /\ Forall (fun row => length row = cols) m.

(** A finite value that is not below the price floor. *)
Definition floored (v : npfloat) : Prop :=
  exists a, v = Fin a /\ price_floor <= a.

(** A NaN or an infinity. *)
Definition non_finite (v : npfloat) : Prop := isnan v = true \/ isinf v = true.


(** The per-step average of the simulated log returns. *)
Definition expected_log_returns (simulated_paths : list (list npfloat))
  (num_steps : Z) : list npfloat :=
  np_mean_axis0 (Z.to_nat num_steps) (map row_log_returns simulated_paths).

(** The length both series are truncated to. *)
Definition compared_length (num_steps : Z) (historical_returns : list npfloat) : nat :=
  Nat.min (Z.to_nat num_steps) (length historical_returns).

(** The closed-form price over the real numbers. *)
Module ClosedForm.

Import NormalCdf.

Definition d1 (S K T r sigma : R) : R :=
  (ln (S / K) + (r + 0.5 * (sigma * sigma)) * T) / (sigma * sqrt T).

Definition d2 (S K T r sigma : R) : R :=
  d1 S K T r sigma - sigma * sqrt T.

Definition call (S K T r sigma : R) : R :=
  S * Phi (d1 S K T r sigma) - K * exp (- r * T) * Phi (d2 S K T r sigma).

Definition put (S K T r sigma : R) : R :=
  K * exp (- r * T) * Phi (- d2 S K T r sigma) - S * Phi (- d1 S K T r sigma).

Definition price (S K T r sigma : R) (option_type : string) : R :=
  if String.eqb option_type "call" then call S K T r sigma
  else put S K T r sigma.

End ClosedForm.

(** The sum of a list of real numbers. *)
Definition Rsum_list (l : list R) : R := fold_right Rplus 0 l.

(** The sum of [f 0 .. f (n - 1)]. *)
Definition rsum (n : nat) (f : nat -> R) : R := Rsum_list (map f (seq 0 n)).

(** The mean squared error in the words of the specification, over the
    real numbers the arrays hold. *)
Definition entry (paths : list (list npfloat)) (p i : nat) : R :=
  real_part (nth i (nth p paths []) NaN).

(** The log return of path [p] over step [i]. *)
Definition simulated_log_return (paths : list (list npfloat)) (p i : nat) : R :=
  ln (entry paths p (S i) / entry paths p i).

(** Its average over all simulated paths. *)
Definition average_log_return (paths : list (list npfloat)) (i : nat) : R :=
  rsum (length paths) (fun p => simulated_log_return paths p i)
  / INR (length paths).

(** The mean, over the compared steps, of the squared difference between
    the averaged simulated log return and the historical log return. *)
Definition mean_squared_error (paths : list (list npfloat))
  (historical_returns : list npfloat) (num_steps : Z) : R :=
  let L := compared_length num_steps historical_returns in
  rsum L (fun i => Rsqr (average_log_return paths i
                         - real_part (nth i historical_returns NaN)))
  / INR L.

(** The paths of a plain geometric Brownian motion built from the
    Brownian increments [dW]: log returns (r - sigma^2 / 2) dt + sigma dW,
    summed, exponentiated, scaled by S0 and floored. *)
Definition diffusion_paths (S0 r sigma dt : R) (dW : list (list npfloat))
  : list (list npfloat) :=
  mat_map (fun s => np_maximum s (Fin price_floor))
    (map (fun lr => Fin S0 :: map (fun c => fmul (Fin S0) (fexp c)) (cumsum lr))
       (mat_map (fun w => fadd (Fin ((r - 0.5 * (sigma * sigma)) * dt))
                               (fmul (Fin sigma) w)) dW)).

(** A price series of positive real numbers. *)
Definition positive_prices (prices : list npfloat) : Prop :=
  Forall (fun v => exists a, v = Fin a /\ 0 < a) prices.

(** A bound on the magnitude of a standard normal draw: NumPy's legacy
    sampler (the polar method on 53-bit uniforms) stays below 13. *)
Definition normal_draw_bound : R := 1000.

(** A generator whose draws are values NumPy can deliver: bounded normal
    draws and Poisson counts that fit a 64-bit integer. *)
Definition draws_in_range (g : rng) : Prop :=
  (forall k, - normal_draw_bound <= normal_tape g k <= normal_draw_bound) /\
  (forall k l, INR (poisson_tape g k l) <= 9223372036854775808).

(** A value that is not below the price floor, +inf included. *)
Definition at_least_floor (v : npfloat) : Prop :=
  v = PInf \/ exists a, v = Fin a /\ price_floor <= a.


(** The array the rounded simulator builds from its three batches of draws. *)
Definition paths_of_draws_with (rnd : npfloat -> npfloat)
  (S0 r sigma lambda_ mu_J sigma_J dt : npfloat)
  (dW : list (list npfloat)) (N_t : list (list nat)) (Js : list (list npfloat))
  : list (list npfloat) :=
  let m :=
    rnd (fsub (rnd (fexp (rnd (fadd mu_J
                                 (rnd (fmul (Fin 0.5) (rnd (fpow2 sigma_J))))))))
              (Fin 1)) in
  let jumps := mat_map2 (fun j n => rnd (fmul j (Fin (INR n)))) Js N_t in
  let drift :=
    rnd (fmul (rnd (fsub (rnd (fsub r (rnd (fmul lambda_ m))))
                         (rnd (fmul (Fin 0.5) (rnd (fpow2 sigma))))))
              dt) in
  let diffusion := mat_map (fun w => rnd (fadd drift (rnd (fmul sigma w)))) dW in
  let log_returns := mat_map2 (fun d j => rnd (fadd d j)) diffusion jumps in
  mat_map (fun s => np_maximum s (Fin price_floor))
    (map (fun lr => S0 :: map (fun c => rnd (fmul S0 (rnd (fexp c))))
                           (cumsum_with rnd lr))
       log_returns).

(** A finite value of magnitude at most [b]. *)
Definition within (b : R) (v : npfloat) : Prop :=
  exists a, v = Fin a /\ - b <= a <= b.

(** A value that is not below 0, +inf included; and the mirror image. *)
Definition rising (v : npfloat) : Prop := v = PInf \/ exists a, v = Fin a /\ 0 <= a.
Definition falling (v : npfloat) : Prop := v = NInf \/ exists a, v = Fin a /\ a <= 0.

(** One log return: drift plus diffusion plus jump, every sum rounded. *)
Definition log_return_of (drift : npfloat) (sigma : R) (w j : npfloat) : npfloat :=
  to_range (fadd (to_range (fadd drift (to_range (fmul (Fin sigma) w)))) j).

(** Log returns that can be summed without meeting inf - inf. *)
Definition summable (l : list npfloat) : Prop :=
  Forall rising l \/ Forall falling l \/ Forall is_fin l.

(** * Properties *)

(** ** The standard normal distribution function *)

Module NormalCdfFacts.

Import NormalCdf.

Lemma gauss_kernel_even (t : R) : gauss_kernel (- t) = gauss_kernel t.
Proof. unfold gauss_kernel. f_equal. lra. Qed.

Lemma gauss_kernel_pos (t : R) : 0 < gauss_kernel t.
Proof. apply exp_pos. Qed.

Lemma gauss_kernel_le_1 (t : R) : gauss_kernel t <= 1.
Proof.
  unfold gauss_kernel. rewrite <- exp_0.
  destruct (Req_dec t 0) as [-> | Ht].
  - right. f_equal. lra.
  - left. apply exp_increasing. nra.
Qed.

Lemma gauss_area_0 : gauss_area 0 = 0.
Proof. unfold gauss_area. apply RiemannInt_P9. Qed.

Lemma gauss_area_nonneg (x : R) : 0 <= x -> 0 <= gauss_area x.
Proof.
  intros Hx. unfold gauss_area.
  pose proof (@RiemannInt_const_bound gauss_kernel 0 x 0 1
                (gauss_kernel_integrable 0 x) Hx) as H.
  assert (Hb : forall t, 0 < t < x -> 0 <= gauss_kernel t <= 1).
  { intros t _. split; [left; apply gauss_kernel_pos | apply gauss_kernel_le_1]. }
  specialize (H Hb). lra.
Qed.

(** The kernel is even, so the area is odd.  On [[-b, b]] both
    [x |-> area(-b, x)] and [x |-> - area(-b, -x)] are antiderivatives of
    the kernel; they differ by a constant, read off at [0] and at [b]. *)
Lemma gauss_area_odd_nonneg (b : R) : 0 <= b -> gauss_area (- b) = - gauss_area b.
Proof.
  intros Hb.
  assert (h : - b <= b) by lra.
  pose (C0 := fun (x : R) (_ : - b <= x <= b) => gauss_kernel_continuous x).
  pose (P := primitive h (FTC_P1 h C0)).
  assert (A1 : antiderivative gauss_kernel P (- b) b) by apply RiemannInt_P29.
  assert (A2 : antiderivative gauss_kernel (fun x => - P (- x)) (- b) b).
  { split; [| exact h]. intros x Hx.
    assert (Hd : derivable_pt_lim (fun x => - P (- x)) x (gauss_kernel x)).
    { replace (gauss_kernel x) with (- (gauss_kernel (- x) * (-1)))
        by (rewrite gauss_kernel_even; lra).
      apply (derivable_pt_lim_opp (fun x => P (- x))).
      apply (derivable_pt_lim_comp (fun x => - x) P).
      - replace (-1) with (- 1) by lra.
        apply (derivable_pt_lim_opp id), derivable_pt_lim_id.
      - apply RiemannInt_P28. lra. }
    exists (exist _ _ Hd). reflexivity. }
  destruct (antiderivative_Ucte _ _ _ _ _ A1 A2) as [c Hc].
  assert (Pa : P (- b) = 0).
  { unfold P, primitive. destruct (Rle_dec (- b) (- b)); [| exfalso; lra].
    destruct (Rle_dec (- b) b); [| exfalso; lra]. apply RiemannInt_P9. }
  pose proof (Hc b ltac:(lra)) as Eb. pose proof (Hc 0 ltac:(lra)) as E0.
  simpl in Eb, E0. rewrite Ropp_0 in E0. rewrite Pa in Eb.
  assert (Pb : P b = RiemannInt (gauss_kernel_integrable (- b) b)).
  { unfold P, primitive. destruct (Rle_dec (- b) b); [| exfalso; lra].
    destruct (Rle_dec b b); [| exfalso; lra]. apply RiemannInt_P5. }
  assert (P0 : P 0 = RiemannInt (gauss_kernel_integrable (- b) 0)).
  { unfold P, primitive. destruct (Rle_dec (- b) 0); [| exfalso; lra].
    destruct (Rle_dec 0 b); [| exfalso; lra]. apply RiemannInt_P5. }
  pose proof (RiemannInt_P26 (gauss_kernel_integrable (- b) 0)
                (gauss_kernel_integrable 0 b)
                (gauss_kernel_integrable (- b) b)) as Ch.
  pose proof (RiemannInt_P8 (gauss_kernel_integrable 0 (- b))
                (gauss_kernel_integrable (- b) 0)) as Sw.
  unfold gauss_area. lra.
Qed.

Lemma gauss_area_odd (x : R) : gauss_area (- x) = - gauss_area x.
Proof.
  destruct (Rle_dec 0 x) as [Hx | Hx].
  - apply gauss_area_odd_nonneg, Hx.
  - pose proof (gauss_area_odd_nonneg (- x) ltac:(lra)) as H.
    rewrite Ropp_involutive in H. lra.
Qed.

Lemma Phi_sym (x : R) : Phi (- x) = 1 - Phi x.
Proof. unfold Phi. rewrite gauss_area_odd. lra. Qed.

Lemma Phi_0 : Phi 0 = 1 / 2.
Proof. unfold Phi. rewrite gauss_area_0. lra. Qed.

Lemma Phi_ge_half (x : R) : 0 <= x -> 1 / 2 <= Phi x.
Proof.
  intros Hx. unfold Phi.
  assert (0 < sqrt (2 * PI)) by (apply sqrt_lt_R0; pose proof PI_RGT_0; lra).
  pose proof (gauss_area_nonneg x Hx).
  assert (0 <= gauss_area x / sqrt (2 * PI)).
  { apply Rmult_le_pos; [assumption | left; apply Rinv_0_lt_compat; assumption]. }
  lra.
Qed.

End NormalCdfFacts.

(** ** Arithmetic on finite values *)

Lemma fdiv_fin (a b : R) : b <> 0 -> fdiv (Fin a) (Fin b) = Fin (a / b).
Proof. intros Hb. simpl. destruct (Req_EM_T b 0); [contradiction | reflexivity]. Qed.

Lemma flog_fin (a : R) : 0 < a -> flog (Fin a) = Fin (ln a).
Proof. intros Ha. simpl. destruct (Rlt_dec 0 a); [reflexivity | contradiction]. Qed.

Lemma fsqrt_fin (a : R) : 0 <= a -> fsqrt (Fin a) = Fin (sqrt a).
Proof. intros Ha. simpl. destruct (Rle_dec 0 a); [reflexivity | contradiction]. Qed.

Lemma fltb_fin_true (a b : R) : a < b -> fltb (Fin a) (Fin b) = true.
Proof. intros H. simpl. destruct (Rlt_dec a b); [reflexivity | contradiction]. Qed.

Lemma fltb_fin_false (a b : R) : b <= a -> fltb (Fin a) (Fin b) = false.
Proof. intros H. simpl. destruct (Rlt_dec a b); [lra | reflexivity]. Qed.

Lemma np_maximum_fin (a b : R) : np_maximum (Fin a) (Fin b) = Fin (Rmax a b).
Proof.
  unfold np_maximum. simpl. destruct (Rlt_dec a b).
  - rewrite Rmax_right by lra. reflexivity.
  - rewrite Rmax_left by lra. reflexivity.
Qed.

Lemma np_clip_inside (a lo hi : R) :
  lo <= a <= hi -> np_clip (Fin a) (Fin lo) (Fin hi) = Fin a.
Proof.
  intros [H1 H2]. unfold np_clip. rewrite np_maximum_fin, Rmax_left by lra.
  unfold np_minimum. simpl. destruct (Rlt_dec hi a); [lra | reflexivity].
Qed.

Lemma is_fin_inv (v : npfloat) : is_fin v -> exists a, v = Fin a.
Proof. destruct v; simpl; intros H; try contradiction. eauto. Qed.

Lemma POISSON_LAM_MAX_large : 1000000 <= POISSON_LAM_MAX.
Proof.
  unfold POISSON_LAM_MAX.
  assert (H : sqrt (IZR (2 ^ 63 - 1)) <= IZR (2 ^ 32)).
  { rewrite <- (sqrt_square (IZR (2 ^ 32))) by (apply IZR_le; now apply Z.leb_le).
    apply sqrt_le_1_alt. rewrite <- mult_IZR. apply IZR_le. now apply Z.leb_le. }
  assert (H1 : IZR (2 ^ 63 - 1) = 9223372036854775807) by (f_equal).
  assert (H2 : IZR (2 ^ 32) = 4294967296) by (f_equal).
  rewrite H1 in *. rewrite H2 in H. lra.
Qed.

Lemma poisson_rate_fin (l : R) :
  0 <= l <= POISSON_LAM_MAX -> poisson_rate (Fin l) = Some l.
Proof.
  intros [H0 H1]. unfold poisson_rate.
  destruct (Rlt_dec POISSON_LAM_MAX l); [lra |].
  destruct (Rlt_dec l 0); [lra | reflexivity].
Qed.

Lemma poisson_rate_some (lam : npfloat) (l : R) :
  poisson_rate lam = Some l -> lam = Fin l /\ 0 <= l <= POISSON_LAM_MAX.
Proof.
  destruct lam as [a | | |]; simpl; try discriminate.
  destruct (Rlt_dec POISSON_LAM_MAX a); [discriminate |].
  destruct (Rlt_dec a 0); [discriminate |].
  intros [= <-]. split; [reflexivity | lra].
Qed.

(** ** The monad *)

Lemma bind_ok {A B : Type} (c : M A) (k : A -> M B) (g g' : rng) (b : B) :
  bind c k g = Ok (b, g') ->
  exists a g1, c g = Ok (a, g1) /\ k a g1 = Ok (b, g').
Proof.
  unfold bind. destruct (c g) as [[a g1] | e]; [| discriminate].
  intros H. exists a, g1. split; [reflexivity | exact H].
Qed.

Lemma bind_eq {A B : Type} (c : M A) (k : A -> M B) (g g1 : rng) (a : A) :
  c g = Ok (a, g1) -> bind c k g = k a g1.
Proof. intros H. unfold bind. rewrite H. reflexivity. Qed.

Lemma bind_raise {A B : Type} (c : M A) (k : A -> M B) (g : rng) (e : exn) :
  c g = Raise e -> bind c k g = Raise e.
Proof. intros H. unfold bind. rewrite H. reflexivity. Qed.

Lemma draw_list_post {A : Type} (d : M A) (P : A -> Prop) :
  (forall g a g', d g = Ok (a, g') -> P a) ->
  forall n g l g', draw_list d n g = Ok (l, g') -> Forall P l /\ length l = n.
Proof.
  intros Hd. induction n as [| n IH]; intros g l g' H; simpl in H.
  - inversion H; subst. split; [constructor | reflexivity].
  - apply bind_ok in H. destruct H as (a & g1 & Ha & H).
    apply bind_ok in H. destruct H as (xs & g2 & Hxs & H).
    inversion H; subst. destruct (IH _ _ _ Hxs) as [HF HL].
    split; [constructor; eauto | simpl; congruence].
Qed.

Lemma draw_list_total {A : Type} (d : M A) :
  (forall g, exists a g', d g = Ok (a, g')) ->
  forall n g, exists l g', draw_list d n g = Ok (l, g').
Proof.
  intros Hd. induction n as [| n IH]; intros g; simpl.
  - eexists _, _. reflexivity.
  - destruct (Hd g) as (a & g1 & Ha). destruct (IH g1) as (l & g2 & Hl).
    exists (a :: l), g2. rewrite (bind_eq _ _ _ _ _ Ha), (bind_eq _ _ _ _ _ Hl).
    reflexivity.
Qed.

Lemma draw_matrix_post {A : Type} (d : M A) (P : A -> Prop) :
  (forall g a g', d g = Ok (a, g') -> P a) ->
  forall rows cols g m g', draw_matrix d rows cols g = Ok (m, g') ->
    Forall (fun row => Forall P row /\ length row = cols) m /\ length m = rows.
Proof.
  intros Hd rows cols g m g' H. unfold draw_matrix in H.
  apply (draw_list_post (draw_list d cols)
           (fun row => Forall P row /\ length row = cols)) in H; [exact H |].
  intros g0 row g0' Hrow. exact (draw_list_post d P Hd _ _ _ _ Hrow).
Qed.

Lemma draw_matrix_total {A : Type} (d : M A) :
  (forall g, exists a g', d g = Ok (a, g')) ->
  forall rows cols g, exists m g', draw_matrix d rows cols g = Ok (m, g').
Proof.
  intros Hd rows cols g. unfold draw_matrix.
  apply draw_list_total. intros g0. apply draw_list_total, Hd.
Qed.

Lemma normal_draw_total (loc scale : npfloat) (g : rng) :
  exists a g', normal_draw loc scale g = Ok (a, g').
Proof. unfold normal_draw, bind, next_normal, ret. eexists _, _. reflexivity. Qed.

Lemma normal_draw_fin (loc scale : R) (g g' : rng) (a : npfloat) :
  normal_draw (Fin loc) (Fin scale) g = Ok (a, g') -> is_fin a.
Proof.
  unfold normal_draw, bind, next_normal, ret. intros H. inversion H; subst.
  exact I.
Qed.

Lemma poisson_draw_total (l : R) (g : rng) :
  exists n g', poisson_draw l g = Ok (n, g').
Proof.
  unfold poisson_draw. destruct (Req_EM_T l 0); eexists _, _; reflexivity.
Qed.

Lemma poisson_draw_zero (g : rng) : poisson_draw 0 g = Ok (O, g).
Proof.
  unfold poisson_draw. destruct (Req_EM_T 0 0); [reflexivity | contradiction].
Qed.

(** ** The closed-form price on finite inputs *)

Module ClosedFormFacts.

Import NormalCdf NormalCdfFacts ClosedForm.

Lemma sigma_sqrt_T_neq_0 (T sigma : R) : 0 < T -> 0 < sigma -> sigma * sqrt T <> 0.
Proof.
  intros HT Hs. pose proof (sqrt_lt_R0 T HT).
  apply Rgt_not_eq, Rmult_lt_0_compat; assumption.
Qed.

Lemma ratio_pos (S K : R) : 0 < S -> 0 < K -> 0 < S / K.
Proof. intros HS HK. apply Rdiv_lt_0_compat; assumption. Qed.

Lemma black_scholes_call_fin (S K T r sigma : R) :
  0 < S -> 0 < K -> 0 < T -> 0 < sigma ->
  black_scholes_option_pricing (Fin S) (Fin K) (Fin T) (Fin r) (Fin sigma) "call"
  = Ok (Fin (call S K T r sigma)).
Proof.
  intros HS HK HT Hs. unfold black_scholes_option_pricing.
  rewrite (fdiv_fin S K) by lra.
  rewrite flog_fin by (apply ratio_pos; assumption).
  rewrite fsqrt_fin by lra.
  cbn [fpow2 fmul fadd fsub fneg].
  rewrite fdiv_fin by (apply sigma_sqrt_T_neq_0; assumption).
  cbn. reflexivity.
Qed.

Lemma black_scholes_put_fin (S K T r sigma : R) :
  0 < S -> 0 < K -> 0 < T -> 0 < sigma ->
  black_scholes_option_pricing (Fin S) (Fin K) (Fin T) (Fin r) (Fin sigma) "put"
  = Ok (Fin (put S K T r sigma)).
Proof.
  intros HS HK HT Hs. unfold black_scholes_option_pricing.
  rewrite (fdiv_fin S K) by lra.
  rewrite flog_fin by (apply ratio_pos; assumption).
  rewrite fsqrt_fin by lra.
  cbn [fpow2 fmul fadd fsub fneg].
  rewrite fdiv_fin by (apply sigma_sqrt_T_neq_0; assumption).
  cbn. reflexivity.
Qed.

Lemma parity (S K T r sigma : R) :
  call S K T r sigma - put S K T r sigma = S - K * exp (- r * T).
Proof. unfold call, put. rewrite !Phi_sym. ring. Qed.

End ClosedFormFacts.

(** C8.  For S = 100, K = 100, T = 1, r_annual = 0.02, sigma_annual = 0.2
    the closed-form routine returns a call price and a put price whose
    difference is S - K * exp(-r * T); in exact arithmetic the equality is
    exact, hence within every tolerance. *)
Theorem put_call_parity_literal :
  exists c p : R,
    black_scholes_option_pricing (Fin 100) (Fin 100) (Fin 1) (Fin 0.02) (Fin 0.2)
      "call" = Ok (Fin c) /\
    black_scholes_option_pricing (Fin 100) (Fin 100) (Fin 1) (Fin 0.02) (Fin 0.2)
      "put" = Ok (Fin p) /\
    c - p = 100 - 100 * exp (- (0.02 * 1)) /\
    forall tol : R, 0 <= tol -> Rabs (c - p - (100 - 100 * exp (- (0.02 * 1)))) <= tol.
Proof.
  exists (ClosedForm.call 100 100 1 0.02 0.2), (ClosedForm.put 100 100 1 0.02 0.2).
  split; [apply ClosedFormFacts.black_scholes_call_fin; lra |].
  split; [apply ClosedFormFacts.black_scholes_put_fin; lra |].
  pose proof (ClosedFormFacts.parity 100 100 1 0.02 0.2) as H.
  replace (- (0.02) * 1) with (- (0.02 * 1)) in H by lra.
  split; [exact H |].
  intros tol Htol. rewrite H.
  rewrite Rminus_diag, Rabs_R0. exact Htol.
Qed.

(** ** The jump-adjusted parameters *)

Lemma compute_jump_parameters_inv
  (r sigma lam mu_J sigma_J T : npfloat) (g g' : rng)
  (n : nat) (Z m r_n sigma_n lambda_n : npfloat) :
  compute_jump_parameters r sigma lam mu_J sigma_J T g
  = Ok ((n, Z, m, r_n, sigma_n, lambda_n), g') ->
  sigma_n = fsqrt (fadd (fpow2 sigma) (fdiv (fmul (Fin (INR n)) (fpow2 sigma_J)) T)).
Proof.
  unfold compute_jump_parameters. intros H.
  apply bind_ok in H. destruct H as (n0 & g1 & _ & H).
  apply bind_ok in H. destruct H as (Z0 & g2 & _ & H).
  unfold ret in H. inversion H; subst. reflexivity.
Qed.

Lemma compute_jump_parameters_total (r sigma lam mu_J sigma_J T : npfloat)
  (l : R) (g : rng) :
  poisson_rate (fmul lam T) = Some l ->
  exists res g', compute_jump_parameters r sigma lam mu_J sigma_J T g = Ok (res, g').
Proof.
  intros Hl. unfold compute_jump_parameters, np_random_poisson. rewrite Hl.
  destruct (poisson_draw_total l g) as (n & g1 & Hn).
  rewrite (bind_eq _ _ _ _ _ Hn).
  unfold np_random_normal. simpl negative.
  destruct (Rlt_dec 1 0); [lra |].
  destruct (normal_draw_total (Fin 0) (Fin 1) g1) as (z & g2 & Hz).
  rewrite (bind_eq _ _ _ _ _ Hz). unfold ret. eexists _, _. reflexivity.
Qed.

Lemma adjusted_volatility_fin (sigma sigma_J T : R) (n : nat) :
  0 < T -> 0 <= sigma ->
  exists s,
    fsqrt (fadd (fpow2 (Fin sigma))
                (fdiv (fmul (Fin (INR n)) (fpow2 (Fin sigma_J))) (Fin T))) = Fin s
    /\ sigma <= s.
Proof.
  intros HT Hs. cbn [fpow2 fmul]. rewrite fdiv_fin by lra. cbn [fadd].
  assert (Hq : 0 <= INR n * (sigma_J * sigma_J) / T).
  { apply Rmult_le_pos; [| left; apply Rinv_0_lt_compat; exact HT].
    apply Rmult_le_pos; [apply pos_INR | nra]. }
  rewrite fsqrt_fin by nra.
  eexists. split; [reflexivity |].
  rewrite <- (sqrt_square sigma) at 1 by exact Hs.
  apply sqrt_le_1_alt. lra.
Qed.

(** C10.  With T > 0 and sigma_annual >= 0, whatever the other (finite)
    arguments and whatever the draws: every result of
    [compute_jump_parameters] carries a finite [sigma_n] that is at least
    [sigma_annual]; and the routine does return whenever the Poisson rate
    [lambda_annual * T] is one NumPy accepts. *)
Theorem sigma_n_at_least_sigma
  (r_annual sigma_annual lambda_annual mu_J_annual sigma_J_annual T : R) (g : rng) :
  0 < T -> 0 <= sigma_annual ->
  (forall n Z m r_n sigma_n lambda_n g',
      compute_jump_parameters (Fin r_annual) (Fin sigma_annual) (Fin lambda_annual)
        (Fin mu_J_annual) (Fin sigma_J_annual) (Fin T) g
      = Ok ((n, Z, m, r_n, sigma_n, lambda_n), g') ->
      exists s, sigma_n = Fin s /\ sigma_annual <= s)
  /\ (0 <= lambda_annual * T <= POISSON_LAM_MAX ->
      exists res g',
        compute_jump_parameters (Fin r_annual) (Fin sigma_annual) (Fin lambda_annual)
          (Fin mu_J_annual) (Fin sigma_J_annual) (Fin T) g = Ok (res, g')).
Proof.
  intros HT Hs. split.
  - intros n Z m r_n sigma_n lambda_n g' H.
    apply compute_jump_parameters_inv in H. subst sigma_n.
    apply adjusted_volatility_fin; assumption.
  - intros Hl. apply compute_jump_parameters_total with (l := lambda_annual * T).
    apply poisson_rate_fin. exact Hl.
Qed.

Lemma sigma_n_at_least_sigma_witness :
  (forall n Z m r_n sigma_n lambda_n g',
      compute_jump_parameters (Fin 0.02) (Fin 0.2) (Fin 1) (Fin 0) (Fin 0.1) (Fin 1) rng0
      = Ok ((n, Z, m, r_n, sigma_n, lambda_n), g') ->
      exists s, sigma_n = Fin s /\ 0.2 <= s)
  /\ (0 <= 1 * 1 <= POISSON_LAM_MAX ->
      exists res g',
        compute_jump_parameters (Fin 0.02) (Fin 0.2) (Fin 1) (Fin 0) (Fin 0.1) (Fin 1) rng0
        = Ok (res, g')).
Proof.
  apply (sigma_n_at_least_sigma 0.02 0.2 1 0 0.1 1 rng0); lra.
Defined.

(** ** The simulated paths *)

Lemma map2_length {A B C : Type} (f : A -> B -> C) (l1 : list A) (l2 : list B) :
  length l1 = length l2 -> length (map2 f l1 l2) = length l1.
Proof.
  revert l2. induction l1 as [| a t IH]; intros [| b t2] H; simpl in *;
    try reflexivity; try discriminate.
  f_equal. apply IH. congruence.
Qed.

Lemma map2_Forall {A B C : Type} (f : A -> B -> C)
  (P : A -> Prop) (Q : B -> Prop) (R : C -> Prop) (l1 : list A) (l2 : list B) :
  (forall a b, P a -> Q b -> R (f a b)) ->
  Forall P l1 -> Forall Q l2 -> Forall R (map2 f l1 l2).
Proof.
  intros Hf H1. revert l2. induction H1 as [| a t Ha Ht IH]; intros l2 H2.
  - constructor.
  - destruct H2 as [| b t2 Hb Ht2]; simpl; constructor; auto.
Qed.

Lemma Forall_map_iff {A B : Type} (f : A -> B) (P : B -> Prop) (l : list A) :
  Forall P (map f l) <-> Forall (fun a => P (f a)) l.
Proof.
  induction l as [| a t IH]; simpl; split; intros H;
    try constructor; inversion H; subst; try tauto.
Qed.

Lemma shape_mat_map {A B : Type} (f : A -> B) (rows cols : nat) (m : list (list A)) :
  shape rows cols m -> shape rows cols (mat_map f m).
Proof.
  intros [Hl HF]. split; unfold mat_map.
  - rewrite length_map. exact Hl.
  - apply Forall_map_iff. eapply Forall_impl; [| exact HF].
    intros row Hrow. simpl. rewrite length_map. exact Hrow.
Qed.

Lemma shape_mat_map2 {A B C : Type} (f : A -> B -> C) (rows cols : nat)
  (m1 : list (list A)) (m2 : list (list B)) :
  shape rows cols m1 -> shape rows cols m2 -> shape rows cols (mat_map2 f m1 m2).
Proof.
  intros [Hl1 HF1] [Hl2 HF2]. split; unfold mat_map2.
  - rewrite map2_length; congruence.
  - eapply map2_Forall; [| exact HF1 | exact HF2].
    intros r1 r2 H1 H2. simpl in *. rewrite map2_length; congruence.
Qed.

Lemma draw_matrix_shape {A : Type} (d : M A) (rows cols : nat)
  (g g' : rng) (m : list (list A)) :
  draw_matrix d rows cols g = Ok (m, g') -> shape rows cols m.
Proof.
  intros H.
  destruct (draw_matrix_post d (fun _ => True) (fun _ _ _ _ => I) _ _ _ _ _ H)
    as [HF HL].
  split; [exact HL |]. eapply Forall_impl; [| exact HF]. intros row [_ Hr]. exact Hr.
Qed.

Lemma cumsum_from_length (acc : npfloat) (l : list npfloat) :
  length (cumsum_from acc l) = length l.
Proof. revert acc. induction l as [| a t IH]; intros acc; simpl; auto. Qed.

Lemma cumsum_length (l : list npfloat) : length (cumsum l) = length l.
Proof. destruct l; simpl; [reflexivity | rewrite cumsum_from_length; reflexivity]. Qed.

Lemma paths_of_draws_shape (S0 r sigma lambda_ mu_J sigma_J dt : npfloat)
  (rows cols : nat) dW N_t Js :
  shape rows cols dW -> shape rows cols N_t -> shape rows cols Js ->
  shape rows (S cols) (paths_of_draws S0 r sigma lambda_ mu_J sigma_J dt dW N_t Js).
Proof.
  intros HW HN HJ. unfold paths_of_draws.
  apply shape_mat_map.
  assert (HL : shape rows cols
                 (mat_map2 fadd
                    (mat_map (fun w => fadd
                       (fmul (fsub (fsub r (fmul lambda_
                          (fsub (fexp (fadd mu_J (fmul (Fin 0.5) (fpow2 sigma_J))))
                                (Fin 1))))
                          (fmul (Fin 0.5) (fpow2 sigma))) dt) (fmul sigma w)) dW)
                    (mat_map2 (fun j n => fmul j (Fin (INR n))) Js N_t))).
  { apply shape_mat_map2; [apply shape_mat_map, HW | apply shape_mat_map2; assumption]. }
  destruct HL as [Hl HF]. split.
  - rewrite length_map. exact Hl.
  - apply Forall_map_iff. eapply Forall_impl; [| exact HF].
    intros lr Hlr. simpl. rewrite length_map, cumsum_length. congruence.
Qed.

(** Column 0 of every row is the clamped initial price. *)
Lemma paths_of_draws_first_column (S0 r sigma lambda_ mu_J sigma_J dt : npfloat)
  dW N_t Js :
  Forall (fun row => nth_error row 0 = Some (np_maximum S0 (Fin price_floor)))
    (paths_of_draws S0 r sigma lambda_ mu_J sigma_J dt dW N_t Js).
Proof.
  unfold paths_of_draws, mat_map.
  apply Forall_map_iff, Forall_map_iff, Forall_forall.
  intros lr _. reflexivity.
Qed.

Lemma negative_fsqrt (v : npfloat) : negative (fsqrt v) = false.
Proof.
  destruct v as [a | | |]; simpl; try reflexivity.
  destruct (Rle_dec 0 a); simpl; [| reflexivity].
  destruct (Rlt_dec (sqrt a) 0) as [H |]; [| reflexivity].
  pose proof (sqrt_pos a). lra.
Qed.

Lemma merton_inv (S0 r sigma lambda_ mu_J sigma_J : npfloat)
  (num_steps num_simulations : Z) (dt : npfloat) (g g' : rng)
  (paths : list (list npfloat)) :
  merton_jump_diffusion_paths S0 r sigma lambda_ mu_J sigma_J
    num_steps num_simulations dt g = Ok (paths, g') ->
  (0 <= num_simulations)%Z /\ (0 <= num_steps)%Z /\
  negative sigma_J = false /\
  exists l dW N_t Js g1 g2,
    poisson_rate (fmul lambda_ dt) = Some l /\
    draw_matrix (normal_draw (Fin 0) (fsqrt dt))
      (Z.to_nat num_simulations) (Z.to_nat num_steps) g = Ok (dW, g1) /\
    draw_matrix (poisson_draw l)
      (Z.to_nat num_simulations) (Z.to_nat num_steps) g1 = Ok (N_t, g2) /\
    draw_matrix (normal_draw mu_J sigma_J)
      (Z.to_nat num_simulations) (Z.to_nat num_steps) g2 = Ok (Js, g') /\
    paths = paths_of_draws S0 r sigma lambda_ mu_J sigma_J dt dW N_t Js.
Proof.
  unfold merton_jump_diffusion_paths. intros H.
  destruct ((num_simulations <? 0) || (num_steps + 1 <? 0))%Z eqn:Eneg;
    [discriminate |].
  destruct (num_steps + 1 =? 0)%Z eqn:Ezero; [discriminate |].
  apply orb_false_iff in Eneg. destruct Eneg as [E1 E2].
  apply Z.ltb_ge in E1, E2. apply Z.eqb_neq in Ezero.
  apply bind_ok in H. destruct H as (dW & g1 & HW & H).
  apply bind_ok in H. destruct H as (N_t & g2 & HN & H).
  apply bind_ok in H. destruct H as (Js & g3 & HJ & H).
  unfold ret in H. inversion H; subst g3 paths. clear H.
  unfold np_random_normal_size in HW, HJ. rewrite negative_fsqrt in HW.
  destruct (negative sigma_J) eqn:EJ; [discriminate |].
  unfold np_random_poisson_size in HN.
  destruct (poisson_rate (fmul lambda_ dt)) as [l |] eqn:El; [| discriminate].
  split; [exact E1 |]. split; [lia |]. split; [reflexivity |].
  exists l, dW, N_t, Js, g1, g2. repeat split; assumption.
Qed.

Lemma merton_total (S0 r sigma lambda_ mu_J sigma_J : npfloat)
  (num_steps num_simulations : Z) (dt : npfloat) (l : R) (g : rng) :
  (0 <= num_simulations)%Z -> (0 <= num_steps)%Z ->
  negative sigma_J = false -> poisson_rate (fmul lambda_ dt) = Some l ->
  exists paths g',
    merton_jump_diffusion_paths S0 r sigma lambda_ mu_J sigma_J
      num_steps num_simulations dt g = Ok (paths, g').
Proof.
  intros Hn Hs HJ Hl. unfold merton_jump_diffusion_paths.
  replace ((num_simulations <? 0) || (num_steps + 1 <? 0))%Z with false
    by (symmetry; apply orb_false_iff; split; apply Z.ltb_ge; lia).
  replace (num_steps + 1 =? 0)%Z with false by (symmetry; apply Z.eqb_neq; lia).
  unfold np_random_normal_size, np_random_poisson_size.
  rewrite negative_fsqrt, HJ, Hl.
  destruct (draw_matrix_total _ (normal_draw_total (Fin 0) (fsqrt dt))
              (Z.to_nat num_simulations) (Z.to_nat num_steps) g) as (dW & g1 & HW).
  rewrite (bind_eq _ _ _ _ _ HW).
  destruct (draw_matrix_total _ (poisson_draw_total l)
              (Z.to_nat num_simulations) (Z.to_nat num_steps) g1) as (N_t & g2 & HN).
  rewrite (bind_eq _ _ _ _ _ HN).
  destruct (draw_matrix_total _ (normal_draw_total mu_J sigma_J)
              (Z.to_nat num_simulations) (Z.to_nat num_steps) g2) as (Js & g3 & HJs).
  rewrite (bind_eq _ _ _ _ _ HJs).
  unfold ret. eexists _, _. reflexivity.
Qed.

Lemma merton_shape (S0 r sigma lambda_ mu_J sigma_J : npfloat)
  (num_steps num_simulations : Z) (dt : npfloat) (g g' : rng)
  (paths : list (list npfloat)) :
  merton_jump_diffusion_paths S0 r sigma lambda_ mu_J sigma_J
    num_steps num_simulations dt g = Ok (paths, g') ->
  shape (Z.to_nat num_simulations) (S (Z.to_nat num_steps)) paths.
Proof.
  intros H. apply merton_inv in H.
  destruct H as (_ & _ & _ & l & dW & N_t & Js & g1 & g2 & _ & HW & HN & HJ & ->).
  apply paths_of_draws_shape; eapply draw_matrix_shape; eassumption.
Qed.

Lemma merton_first_column (S0 r sigma lambda_ mu_J sigma_J : npfloat)
  (num_steps num_simulations : Z) (dt : npfloat) (g g' : rng)
  (paths : list (list npfloat)) :
  merton_jump_diffusion_paths S0 r sigma lambda_ mu_J sigma_J
    num_steps num_simulations dt g = Ok (paths, g') ->
  Forall (fun row => nth_error row 0 = Some (np_maximum S0 (Fin price_floor))) paths.
Proof.
  intros H. apply merton_inv in H.
  destruct H as (_ & _ & _ & l & dW & N_t & Js & g1 & g2 & _ & _ & _ & _ & ->).
  apply paths_of_draws_first_column.
Qed.

(** *** Finite inputs give finite, floored paths *)

Lemma is_fin_fadd (a b : npfloat) : is_fin a -> is_fin b -> is_fin (fadd a b).
Proof. destruct a, b; simpl; tauto. Qed.

Lemma is_fin_fmul (a b : npfloat) : is_fin a -> is_fin b -> is_fin (fmul a b).
Proof. destruct a, b; simpl; tauto. Qed.

Lemma is_fin_fexp (a : npfloat) : is_fin a -> is_fin (fexp a).
Proof. destruct a; simpl; tauto. Qed.

Lemma floored_maximum (a : npfloat) :
  is_fin a -> floored (np_maximum a (Fin price_floor)).
Proof.
  intros H. apply is_fin_inv in H. destruct H as [v ->].
  rewrite np_maximum_fin. eexists. split; [reflexivity | apply Rmax_r].
Qed.

Lemma cumsum_from_fin (acc : npfloat) (l : list npfloat) :
  is_fin acc -> Forall is_fin l -> Forall is_fin (cumsum_from acc l).
Proof.
  intros Ha Hl. revert acc Ha.
  induction Hl as [| x t Hx Ht IH]; intros acc Ha; simpl; constructor.
  - apply is_fin_fadd; assumption.
  - apply IH, is_fin_fadd; assumption.
Qed.

Lemma cumsum_fin (l : list npfloat) : Forall is_fin l -> Forall is_fin (cumsum l).
Proof.
  intros Hl. destruct Hl as [| x t Hx Ht]; simpl; constructor;
    [assumption | apply cumsum_from_fin; assumption].
Qed.

Lemma mat_map_Forall {A B : Type} (f : A -> B) (P : A -> Prop) (Q : B -> Prop)
  (m : list (list A)) :
  (forall a, P a -> Q (f a)) ->
  Forall (Forall P) m -> Forall (Forall Q) (mat_map f m).
Proof.
  intros Hf Hm. unfold mat_map. apply Forall_map_iff.
  eapply Forall_impl; [| exact Hm]. intros row Hrow. simpl.
  apply Forall_map_iff. eapply Forall_impl; [| exact Hrow]. exact Hf.
Qed.

Lemma mat_map2_Forall {A B C : Type} (f : A -> B -> C)
  (P : A -> Prop) (Q : B -> Prop) (R : C -> Prop)
  (m1 : list (list A)) (m2 : list (list B)) :
  (forall a b, P a -> Q b -> R (f a b)) ->
  Forall (Forall P) m1 -> Forall (Forall Q) m2 ->
  Forall (Forall R) (mat_map2 f m1 m2).
Proof.
  intros Hf H1 H2. unfold mat_map2.
  eapply map2_Forall; [| exact H1 | exact H2].
  intros r1 r2 Hr1 Hr2. simpl in *. eapply map2_Forall; eassumption.
Qed.

Lemma paths_of_draws_floored (S0 r sigma lambda_ mu_J sigma_J dt : R) dW N_t Js :
  Forall (Forall is_fin) dW -> Forall (Forall is_fin) Js ->
  Forall (Forall floored)
    (paths_of_draws (Fin S0) (Fin r) (Fin sigma) (Fin lambda_) (Fin mu_J)
       (Fin sigma_J) (Fin dt) dW N_t Js).
Proof.
  intros HW HJ. unfold paths_of_draws. cbn [fmul fsub fadd fneg fexp fpow2].
  apply mat_map_Forall with (P := is_fin); [exact floored_maximum |].
  apply Forall_map_iff.
  assert (HL : Forall (Forall is_fin)
                 (mat_map2 fadd
                    (mat_map (fun w => fadd
                       (Fin ((r + - (lambda_ * (exp (mu_J + 0.5 * (sigma_J * sigma_J)) + - (1)))
                               + - (0.5 * (sigma * sigma))) * dt))
                       (fmul (Fin sigma) w)) dW)
                    (mat_map2 (fun j n => fmul j (Fin (INR n))) Js N_t))).
  { apply mat_map2_Forall with (P := is_fin) (Q := is_fin);
      [exact is_fin_fadd | |].
    - apply mat_map_Forall with (P := is_fin); [| exact HW].
      intros w Hw. apply is_fin_fadd; [exact I | apply is_fin_fmul; [exact I | exact Hw]].
    - apply mat_map2_Forall with (P := is_fin) (Q := fun _ => True);
        [| exact HJ |].
      + intros j n Hj _. apply is_fin_fmul; [exact Hj | exact I].
      + apply Forall_forall. intros row _. apply Forall_forall. intros; exact I. }
  eapply Forall_impl; [| exact HL]. intros lr Hlr. simpl.
  constructor; [exact I |].
  apply Forall_map_iff. eapply Forall_impl; [| apply cumsum_fin, Hlr].
  intros c Hc. change (is_fin (fmul (Fin S0) (fexp c))).
  apply is_fin_fmul; [exact I | apply is_fin_fexp, Hc].
Qed.

Lemma draw_matrix_normal_fin (loc scale : R) rows cols g g' m :
  draw_matrix (normal_draw (Fin loc) (Fin scale)) rows cols g = Ok (m, g') ->
  Forall (Forall is_fin) m.
Proof.
  intros H.
  destruct (draw_matrix_post _ is_fin
              (fun g0 a g0' => normal_draw_fin loc scale g0 g0' a) _ _ _ _ _ H)
    as [HF _].
  eapply Forall_impl; [| exact HF]. intros row [Hr _]. exact Hr.
Qed.

(** A valid Poisson rate [lambda * dt] with [lambda > 0] forces a finite,
    non-negative [dt]. *)
Lemma valid_rate_dt (lambda_ : R) (dt : npfloat) (l : R) :
  0 < lambda_ -> poisson_rate (fmul (Fin lambda_) dt) = Some l ->
  exists d, dt = Fin d /\ 0 <= d.
Proof.
  intros Hlam H. apply poisson_rate_some in H. destruct H as [E [H0 _]].
  destruct dt as [d | | |]; simpl in E.
  - inversion E; subst. exists d. split; [reflexivity | nra].
  - unfold scale_inf in E. destruct (Rlt_dec 0 lambda_); [discriminate | lra].
  - unfold scale_inf in E. destruct (Rlt_dec 0 lambda_); [discriminate | lra].
  - discriminate.
Qed.

Lemma merton_floored (S0 r sigma lambda_ mu_J sigma_J : R) (dt : npfloat)
  (num_steps num_simulations : Z) (g g' : rng) (paths : list (list npfloat)) :
  0 < lambda_ ->
  merton_jump_diffusion_paths (Fin S0) (Fin r) (Fin sigma) (Fin lambda_)
    (Fin mu_J) (Fin sigma_J) num_steps num_simulations dt g = Ok (paths, g') ->
  Forall (Forall floored) paths.
Proof.
  intros Hlam H. apply merton_inv in H.
  destruct H as (_ & _ & _ & l & dW & N_t & Js & g1 & g2 & Hl & HW & HN & HJ & ->).
  destruct (valid_rate_dt _ _ _ Hlam Hl) as (d & -> & Hd).
  rewrite fsqrt_fin in HW by exact Hd.
  apply paths_of_draws_floored.
  - eapply draw_matrix_normal_fin, HW.
  - eapply draw_matrix_normal_fin, HJ.
Qed.

(** C3 (as amended).  With sigma > 0, lambda >= 0, sigma_J > 0, dt > 0 and
    an initial price S0 that is not below the floor 1e-8: every array the
    simulator returns has [num_simulations] rows and each row holds exactly
    S0 in column 0; and the simulator does return one for non-negative
    counts and a Poisson rate NumPy accepts. *)
Theorem first_column_is_initial_price
  (S0 r sigma lambda_ mu_J sigma_J dt : R) (num_steps num_simulations : Z) (g : rng) :
  0 < sigma -> 0 <= lambda_ -> 0 < sigma_J -> 0 < dt -> price_floor <= S0 ->
  (forall paths g',
      merton_jump_diffusion_paths (Fin S0) (Fin r) (Fin sigma) (Fin lambda_)
        (Fin mu_J) (Fin sigma_J) num_steps num_simulations (Fin dt) g
      = Ok (paths, g') ->
      length paths = Z.to_nat num_simulations /\
      Forall (fun row => nth_error row 0 = Some (Fin S0)) paths)
  /\ ((0 <= num_simulations)%Z -> (0 <= num_steps)%Z ->
      lambda_ * dt <= POISSON_LAM_MAX ->
      exists paths g',
        merton_jump_diffusion_paths (Fin S0) (Fin r) (Fin sigma) (Fin lambda_)
          (Fin mu_J) (Fin sigma_J) num_steps num_simulations (Fin dt) g
        = Ok (paths, g')).
Proof.
  intros Hs Hl HJ Hdt HS0. split.
  - intros paths g' H. split.
    + apply merton_shape in H. exact (proj1 H).
    + apply merton_first_column in H.
      rewrite np_maximum_fin, Rmax_left in H by exact HS0. exact H.
  - intros Hn Hst Hmax.
    apply merton_total with (l := lambda_ * dt); try assumption.
    + simpl. destruct (Rlt_dec sigma_J 0); [lra | reflexivity].
    + apply poisson_rate_fin. split; [nra | exact Hmax].
Qed.

Lemma price_floor_pos : 0 < price_floor.
Proof. unfold price_floor. lra. Qed.

Lemma first_column_is_initial_price_witness :
  (forall paths g',
      merton_jump_diffusion_paths (Fin 100) (Fin 0.0002) (Fin 0.2) (Fin 0.05)
        (Fin 0) (Fin 0.02) 252 3 (Fin 1) rng0 = Ok (paths, g') ->
      length paths = Z.to_nat 3 /\
      Forall (fun row => nth_error row 0 = Some (Fin 100)) paths)
  /\ ((0 <= 3)%Z -> (0 <= 252)%Z -> 0.05 * 1 <= POISSON_LAM_MAX ->
      exists paths g',
        merton_jump_diffusion_paths (Fin 100) (Fin 0.0002) (Fin 0.2) (Fin 0.05)
          (Fin 0) (Fin 0.02) 252 3 (Fin 1) rng0 = Ok (paths, g')).
Proof.
  apply (first_column_is_initial_price 100 0.0002 0.2 0.05 0 0.02 1 252 3 rng0);
    unfold price_floor; lra.
Defined.

(** C3, the claim as stated fails below the floor: with the valid
    parameters sigma = 0.2, lambda = 0.05, mu_J = 0, sigma_J = 0.02, dt = 1
    and the positive initial price S0 = 1e-9, the simulator returns one
    path whose column 0 holds 1e-8, not S0. *)
Lemma first_column_clamped_counterexample :
  exists paths g',
    merton_jump_diffusion_paths (Fin 1e-9) (Fin 0.0002) (Fin 0.2) (Fin 0.05)
      (Fin 0) (Fin 0.02) 1 1 (Fin 1) rng0 = Ok (paths, g') /\
    length paths = 1%nat /\
    Forall (fun row => nth_error row 0 = Some (Fin 1e-8) /\
                       nth_error row 0 <> Some (Fin 1e-9)) paths.
Proof.
  destruct (merton_total (Fin 1e-9) (Fin 0.0002) (Fin 0.2) (Fin 0.05) (Fin 0)
              (Fin 0.02) 1 1 (Fin 1) (0.05 * 1) rng0) as (paths & g' & H);
    try lia.
  - simpl. destruct (Rlt_dec 0.02 0); [lra | reflexivity].
  - apply poisson_rate_fin. pose proof POISSON_LAM_MAX_large. lra.
  - exists paths, g'. split; [exact H |]. split.
    + apply merton_shape in H. exact (proj1 H).
    + apply merton_first_column in H.
      rewrite np_maximum_fin, Rmax_right in H by (unfold price_floor; lra).
      eapply Forall_impl; [| exact H]. intros row Hrow. split; [exact Hrow |].
      rewrite Hrow. intros E. inversion E. unfold price_floor in *. lra.
Qed.

(** *** The simulated paths in the float64 range *)

(** With the identity as rounding, the rounded simulator is the exact one. *)
Lemma merton_with_identity (S0 r sigma lambda_ mu_J sigma_J : npfloat)
  (num_steps num_simulations : Z) (dt : npfloat) :
  merton_jump_diffusion_paths_with (fun v => v) S0 r sigma lambda_ mu_J sigma_J
    num_steps num_simulations dt
  = merton_jump_diffusion_paths S0 r sigma lambda_ mu_J sigma_J
      num_steps num_simulations dt.
Proof. reflexivity. Qed.

Lemma float_overflow_large : 1e60 <= float_overflow.
Proof.
  unfold float_overflow.
  assert (H : IZR (10 ^ 60) <= IZR (2 ^ 1024 - 2 ^ 970))
    by (apply IZR_le; now apply Z.leb_le).
  change (10 ^ 60)%Z with (10 ^ Z.of_nat 60)%Z in H.
  rewrite <- pow_IZR in H. lra.
Qed.

Lemma float_max_margin : float_max + 1e60 <= float_overflow.
Proof.
  unfold float_overflow, float_max.
  assert (H : IZR (2 ^ 1024 - 2 ^ 971) + IZR (10 ^ 60) <= IZR (2 ^ 1024 - 2 ^ 970)).
  { rewrite <- plus_IZR. apply IZR_le. now apply Z.leb_le. }
  change (10 ^ 60)%Z with (10 ^ Z.of_nat 60)%Z in H.
  rewrite <- pow_IZR in H. lra.
Qed.

Lemma to_range_inside (a : R) :
  - float_overflow < a < float_overflow -> to_range (Fin a) = Fin a.
Proof.
  intros H. unfold to_range.
  destruct (Rle_dec float_overflow a); [lra |].
  destruct (Rle_dec a (- float_overflow)); [lra | reflexivity].
Qed.

Lemma to_range_fin (a : R) : -1e59 <= a <= 1e59 -> to_range (Fin a) = Fin a.
Proof.
  intros H. apply to_range_inside. pose proof float_overflow_large. lra.
Qed.

Lemma to_range_cases (a : R) :
  (to_range (Fin a) = PInf /\ float_overflow <= a) \/
  (to_range (Fin a) = NInf /\ a <= - float_overflow) \/
  (to_range (Fin a) = Fin a /\ - float_overflow < a < float_overflow).
Proof.
  unfold to_range.
  destruct (Rle_dec float_overflow a); [now left |].
  destruct (Rle_dec a (- float_overflow)); [right; now left |].
  right; right. split; [reflexivity | lra].
Qed.

Lemma to_range_not_nan (v : npfloat) : isnan v = false -> isnan (to_range v) = false.
Proof.
  destruct v as [a | | |]; intros H; try exact H.
  destruct (to_range_cases a) as [[-> _] | [[-> _] | [-> _]]]; reflexivity.
Qed.

Lemma exp_nat (n : nat) : exp (INR n) = exp 1 ^ n.
Proof.
  induction n as [| n IH]; [cbn; apply exp_0 |].
  rewrite S_INR, exp_plus, IH. cbn [pow]. ring.
Qed.

Lemma exp_overflows (a : R) : 1024 <= a -> float_overflow <= exp a.
Proof.
  intros H.
  assert (H2 : 2 <= exp 1) by (pose proof (exp_ineq1 1 ltac:(lra)); lra).
  assert (Hpow : 2 ^ 1024 <= exp 1 ^ 1024) by (apply pow_incr; lra).
  assert (He : exp 1 ^ 1024 <= exp a).
  { rewrite <- exp_nat. destruct H as [H | <-].
    - left. apply exp_increasing. rewrite INR_IZR_INZ. exact H.
    - right. f_equal. now rewrite INR_IZR_INZ. }
  assert (Hov : float_overflow <= 2 ^ 1024).
  { unfold float_overflow. rewrite pow_IZR. apply IZR_le. now apply Z.leb_le. }
  lra.
Qed.

(** *** Draws of a generator in range *)

Lemma draws_in_range_advance (k : nat) (g : rng) :
  draws_in_range g -> draws_in_range (advance k g).
Proof. intros H. exact H. Qed.

Lemma draw_list_inv {A : Type} (d : M A) (I : rng -> Prop) (P : A -> Prop) :
  (forall g a g', I g -> d g = Ok (a, g') -> P a /\ I g') ->
  forall n g l g', I g -> draw_list d n g = Ok (l, g') -> Forall P l /\ I g'.
Proof.
  intros Hd. induction n as [| n IH]; intros g l g' Hg H.
  - inversion H; subst. split; [constructor | exact Hg].
  - cbn [draw_list] in H. apply bind_ok in H. destruct H as (a & g1 & Ha & H).
    apply bind_ok in H. destruct H as (t & g2 & Ht & H).
    inversion H; subst.
    destruct (Hd _ _ _ Hg Ha) as [Pa Hg1].
    destruct (IH _ _ _ Hg1 Ht) as [Pt Hg2].
    split; [now constructor | exact Hg2].
Qed.

Lemma draw_matrix_inv {A : Type} (d : M A) (I : rng -> Prop) (P : A -> Prop) :
  (forall g a g', I g -> d g = Ok (a, g') -> P a /\ I g') ->
  forall rows cols g m g',
    I g -> draw_matrix d rows cols g = Ok (m, g') -> Forall (Forall P) m /\ I g'.
Proof.
  intros Hd rows cols. unfold draw_matrix.
  apply (draw_list_inv (draw_list d cols) I (Forall P)).
  intros g a g'. apply draw_list_inv. exact Hd.
Qed.

Lemma normal_draw_with_range (loc scale : R) (g g' : rng) (a : npfloat) :
  -1 <= loc <= 1 -> 0 <= scale <= 1e21 ->
  draws_in_range g ->
  normal_draw_with to_range (Fin loc) (Fin scale) g = Ok (a, g') ->
  within 1e25 a /\ draws_in_range g'.
Proof.
  intros Hloc Hscale Hg H.
  assert (Ea : a = to_range (fadd (Fin loc)
                           (to_range (fmul (Fin scale)
                                        (Fin (normal_tape g (cursor g)))))))
    by (unfold normal_draw_with, next_normal, bind, ret in H; now inversion H).
  assert (Eg : g' = advance 1 g)
    by (unfold normal_draw_with, next_normal, bind, ret in H; now inversion H).
  subst a g'. split; [| exact Hg].
  destruct Hg as [Hz _]. specialize (Hz (cursor g)).
  unfold normal_draw_bound in Hz. set (z := normal_tape g (cursor g)) in *.
  cbn [fmul]. rewrite to_range_fin by nra.
  cbn [fadd]. rewrite to_range_fin by nra.
  eexists. split; [reflexivity | nra].
Qed.

Lemma poisson_draw_range (l : R) (g g' : rng) (n : nat) :
  draws_in_range g -> poisson_draw l g = Ok (n, g') ->
  INR n <= 9223372036854775808 /\ draws_in_range g'.
Proof.
  intros Hg H. unfold poisson_draw in H.
  destruct (Req_EM_T l 0).
  - inversion H; subst. split; [cbn; lra | exact Hg].
  - unfold next_poisson in H. inversion H; subst.
    split; [apply (proj2 Hg) | exact Hg].
Qed.

(** *** Log returns and their running sums *)

Lemma rising_not_nan (v : npfloat) : rising v -> isnan v = false.
Proof. intros [-> | (a & -> & _)]; reflexivity. Qed.

Lemma falling_not_nan (v : npfloat) : falling v -> isnan v = false.
Proof. intros [-> | (a & -> & _)]; reflexivity. Qed.

Lemma to_range_rising (a : R) : 0 <= a -> rising (to_range (Fin a)).
Proof.
  intros H. pose proof float_overflow_large.
  destruct (to_range_cases a) as [[-> _] | [[_ Hn] | [-> _]]].
  - now left.
  - lra.
  - right. now exists a.
Qed.

Lemma to_range_falling (a : R) : a <= 0 -> falling (to_range (Fin a)).
Proof.
  intros H. pose proof float_overflow_large.
  destruct (to_range_cases a) as [[_ Hn] | [[-> _] | [-> _]]].
  - lra.
  - now left.
  - right. now exists a.
Qed.

Lemma add_rising (x y : npfloat) :
  rising x -> rising y -> rising (to_range (fadd x y)).
Proof.
  intros [-> | (a & -> & Ha)] [-> | (b & -> & Hb)]; try (now left).
  cbn [fadd]. apply to_range_rising. lra.
Qed.

Lemma add_falling (x y : npfloat) :
  falling x -> falling y -> falling (to_range (fadd x y)).
Proof.
  intros [-> | (a & -> & Ha)] [-> | (b & -> & Hb)]; try (now left).
  cbn [fadd]. apply to_range_falling. lra.
Qed.

Lemma add_fin_not_nan (x y : npfloat) :
  isnan x = false -> is_fin y -> isnan (to_range (fadd x y)) = false.
Proof.
  intros Hx Hy. apply to_range_not_nan.
  destruct y; try contradiction. destruct x; try discriminate; reflexivity.
Qed.

Lemma cumsum_from_with_closed (P : npfloat -> Prop) (Q : npfloat -> Prop) :
  (forall x y, P x -> Q y -> P (to_range (fadd x y))) ->
  forall l acc, P acc -> Forall Q l -> Forall P (cumsum_from_with to_range acc l).
Proof.
  intros HP l. induction l as [| y l IH]; intros acc Hacc Hl; [constructor |].
  inversion Hl; subst. cbn [cumsum_from_with].
  constructor; [now apply HP |]. apply IH; [now apply HP | assumption].
Qed.

Lemma cumsum_with_rising (l : list npfloat) :
  Forall rising l -> Forall (fun v => isnan v = false) (cumsum_with to_range l).
Proof.
  intros H. eapply Forall_impl; [exact rising_not_nan |].
  destruct H as [| x l Hx Hl]; [constructor |]. cbn [cumsum_with].
  constructor; [exact Hx |].
  now apply (cumsum_from_with_closed rising rising add_rising).
Qed.

Lemma cumsum_with_falling (l : list npfloat) :
  Forall falling l -> Forall (fun v => isnan v = false) (cumsum_with to_range l).
Proof.
  intros H. eapply Forall_impl; [exact falling_not_nan |].
  destruct H as [| x l Hx Hl]; [constructor |]. cbn [cumsum_with].
  constructor; [exact Hx |].
  now apply (cumsum_from_with_closed falling falling add_falling).
Qed.

Lemma cumsum_with_finite_terms (l : list npfloat) :
  Forall is_fin l -> Forall (fun v => isnan v = false) (cumsum_with to_range l).
Proof.
  intros H. destruct H as [| x l Hx Hl]; [constructor |]. cbn [cumsum_with].
  assert (Hn : isnan x = false) by (destruct x; try contradiction; reflexivity).
  constructor; [exact Hn |].
  now apply (cumsum_from_with_closed (fun v => isnan v = false) is_fin add_fin_not_nan).
Qed.

Lemma log_return_rising (drift : npfloat) (sigma : R) (w j : npfloat) :
  0.01 <= sigma <= 2 ->
  drift = PInf \/ (exists d, drift = Fin d /\ 1e50 <= d) ->
  within 1e25 w -> within 1e45 j ->
  rising (log_return_of drift sigma w j).
Proof.
  intros Hs Hd (w0 & -> & Hw) (j0 & -> & Hj). unfold log_return_of.
  cbn [fmul]. rewrite to_range_fin by nra.
  destruct Hd as [-> | (d & -> & Hd)]; [now left |].
  cbn [fadd].
  destruct (to_range_cases (d + sigma * w0)) as [[-> _] | [[_ Hn] | [-> _]]].
  - now left.
  - pose proof float_overflow_large. nra.
  - cbn [fadd]. apply to_range_rising. nra.
Qed.

Lemma log_return_falling (drift : npfloat) (sigma : R) (w j : npfloat) :
  0.01 <= sigma <= 2 ->
  drift = NInf \/ (exists d, drift = Fin d /\ d <= -1e50) ->
  within 1e25 w -> within 1e45 j ->
  falling (log_return_of drift sigma w j).
Proof.
  intros Hs Hd (w0 & -> & Hw) (j0 & -> & Hj). unfold log_return_of.
  cbn [fmul]. rewrite to_range_fin by nra.
  destruct Hd as [-> | (d & -> & Hd)]; [now left |].
  cbn [fadd].
  destruct (to_range_cases (d + sigma * w0)) as [[_ Hn] | [[-> _] | [-> _]]].
  - pose proof float_overflow_large. nra.
  - now left.
  - cbn [fadd]. apply to_range_falling. nra.
Qed.

Lemma log_return_finite (d sigma : R) (w j : npfloat) :
  0.01 <= sigma <= 2 -> -1e50 <= d <= 1e50 ->
  within 1e25 w -> within 1e45 j ->
  is_fin (log_return_of (Fin d) sigma w j).
Proof.
  intros Hs Hd (w0 & -> & Hw) (j0 & -> & Hj). unfold log_return_of.
  cbn [fmul]. rewrite to_range_fin by nra.
  cbn [fadd]. rewrite to_range_fin by nra.
  cbn [fadd]. rewrite to_range_fin by nra. exact I.
Qed.

(** *** From a running sum to a price *)

Lemma at_least_floor_not_nan (v : npfloat) : at_least_floor v -> isnan v = false.
Proof. intros [-> | (a & -> & _)]; reflexivity. Qed.

Lemma maximum_at_least_floor (v : npfloat) :
  isnan v = false -> at_least_floor (np_maximum v (Fin price_floor)).
Proof.
  destruct v as [a | | |]; intros H; try discriminate.
  - rewrite np_maximum_fin. right. eexists. split; [reflexivity | apply Rmax_r].
  - now left.
  - right. exists price_floor. split; [reflexivity | lra].
Qed.

Lemma price_not_nan (S0 : R) (c : npfloat) :
  S0 <> 0 -> isnan c = false ->
  isnan (to_range (fmul (Fin S0) (to_range (fexp c)))) = false.
Proof.
  intros HS Hc. apply to_range_not_nan.
  assert (Hinf : isnan (fmul (Fin S0) PInf) = false).
  { cbn [fmul]. unfold scale_inf.
    destruct (Rlt_dec 0 S0); [reflexivity |].
    destruct (Rlt_dec S0 0); [reflexivity | lra]. }
  destruct c as [a | | |]; try discriminate; cbn [fexp].
  - destruct (to_range_cases (exp a)) as [[-> _] | [[_ Hn] | [-> _]]].
    + exact Hinf.
    + pose proof (exp_pos a). pose proof float_overflow_large. lra.
    + reflexivity.
  - exact Hinf.
  - rewrite to_range_fin by lra. reflexivity.
Qed.

(** *** The simulator in the float64 range *)

Lemma negative_sqrt_in_range (v : npfloat) : negative (to_range (fsqrt v)) = false.
Proof.
  destruct v as [a | | |]; try reflexivity. cbn [fsqrt].
  destruct (Rle_dec 0 a); [| reflexivity].
  pose proof (sqrt_pos a). pose proof float_overflow_large.
  destruct (to_range_cases (sqrt a)) as [[-> _] | [[_ Hn] | [-> _]]];
    [reflexivity | lra |].
  cbn. destruct (Rlt_dec (sqrt a) 0); [lra | reflexivity].
Qed.

Lemma merton_with_inv (S0 r sigma lambda_ mu_J sigma_J : npfloat)
  (num_steps num_simulations : Z) (dt : npfloat) (g g' : rng)
  (paths : list (list npfloat)) :
  merton_jump_diffusion_paths_with to_range S0 r sigma lambda_ mu_J sigma_J
    num_steps num_simulations dt g = Ok (paths, g') ->
  negative sigma_J = false /\
  exists l dW N_t Js g1 g2,
    poisson_rate (to_range (fmul lambda_ dt)) = Some l /\
    draw_matrix (normal_draw_with to_range (Fin 0) (to_range (fsqrt dt)))
      (Z.to_nat num_simulations) (Z.to_nat num_steps) g = Ok (dW, g1) /\
    draw_matrix (poisson_draw l)
      (Z.to_nat num_simulations) (Z.to_nat num_steps) g1 = Ok (N_t, g2) /\
    draw_matrix (normal_draw_with to_range mu_J sigma_J)
      (Z.to_nat num_simulations) (Z.to_nat num_steps) g2 = Ok (Js, g') /\
    paths = paths_of_draws_with to_range S0 r sigma lambda_ mu_J sigma_J dt
              dW N_t Js.
Proof.
  unfold merton_jump_diffusion_paths_with. cbv zeta. intros H.
  destruct ((num_simulations <? 0) || (num_steps + 1 <? 0))%Z; [discriminate |].
  destruct (num_steps + 1 =? 0)%Z; [discriminate |].
  apply bind_ok in H. destruct H as (dW & g1 & HW & H).
  apply bind_ok in H. destruct H as (N_t & g2 & HN & H).
  apply bind_ok in H. destruct H as (Js & g3 & HJ & H).
  unfold ret in H. inversion H; subst g3 paths. clear H.
  unfold np_random_normal_size_with in HW, HJ.
  rewrite negative_sqrt_in_range in HW.
  destruct (negative sigma_J) eqn:EJ; [discriminate |].
  unfold np_random_poisson_size in HN.
  destruct (poisson_rate (to_range (fmul lambda_ dt))) as [l |] eqn:El;
    [| discriminate].
  split; [reflexivity |].
  exists l, dW, N_t, Js, g1, g2. repeat split; assumption.
Qed.

Lemma normal_draw_with_total (rnd : npfloat -> npfloat) (loc scale : npfloat)
  (g : rng) :
  exists a g', normal_draw_with rnd loc scale g = Ok (a, g').
Proof. unfold normal_draw_with, next_normal, bind, ret. eexists _, _. reflexivity. Qed.

Lemma merton_with_total (S0 r sigma lambda_ mu_J sigma_J : npfloat)
  (num_steps num_simulations : Z) (dt : npfloat) (l : R) (g : rng) :
  (0 <= num_simulations)%Z -> (0 <= num_steps)%Z ->
  negative sigma_J = false -> poisson_rate (to_range (fmul lambda_ dt)) = Some l ->
  exists paths g',
    merton_jump_diffusion_paths_with to_range S0 r sigma lambda_ mu_J sigma_J
      num_steps num_simulations dt g = Ok (paths, g').
Proof.
  intros Hn Hs HJ Hl. unfold merton_jump_diffusion_paths_with.
  replace ((num_simulations <? 0) || (num_steps + 1 <? 0))%Z with false
    by (symmetry; apply orb_false_iff; split; apply Z.ltb_ge; lia).
  replace (num_steps + 1 =? 0)%Z with false by (symmetry; apply Z.eqb_neq; lia).
  unfold np_random_normal_size_with, np_random_poisson_size.
  rewrite negative_sqrt_in_range, HJ, Hl.
  destruct (draw_matrix_total _
              (normal_draw_with_total to_range (Fin 0) (to_range (fsqrt dt)))
              (Z.to_nat num_simulations) (Z.to_nat num_steps) g) as (dW & g1 & HW).
  rewrite (bind_eq _ _ _ _ _ HW).
  destruct (draw_matrix_total _ (poisson_draw_total l)
              (Z.to_nat num_simulations) (Z.to_nat num_steps) g1) as (N_t & g2 & HN).
  rewrite (bind_eq _ _ _ _ _ HN).
  destruct (draw_matrix_total _ (normal_draw_with_total to_range mu_J sigma_J)
              (Z.to_nat num_simulations) (Z.to_nat num_steps) g2) as (Js & g3 & HJs).
  rewrite (bind_eq _ _ _ _ _ HJs).
  unfold ret. eexists _, _. reflexivity.
Qed.

Lemma POISSON_LAM_MAX_small : POISSON_LAM_MAX <= 1e19.
Proof.
  unfold POISSON_LAM_MAX.
  assert (H : IZR (2 ^ 63 - 1) <= IZR (10 ^ 19))
    by (apply IZR_le; now apply Z.leb_le).
  change (10 ^ 19)%Z with (10 ^ Z.of_nat 19)%Z in H.
  rewrite <- pow_IZR in H.
  pose proof (sqrt_pos (IZR (2 ^ 63 - 1))). lra.
Qed.

Lemma rate_in_range (lambda_ : R) (dt : npfloat) (l : R) :
  0.01 <= lambda_ <= 1 ->
  poisson_rate (to_range (fmul (Fin lambda_) dt)) = Some l ->
  exists d, dt = Fin d /\ 0 <= d <= 1e21.
Proof.
  intros Hl H. apply poisson_rate_some in H. destruct H as [E Hb].
  pose proof POISSON_LAM_MAX_small.
  destruct dt as [d | | |]; cbn [fmul] in E.
  - exists d. split; [reflexivity |].
    destruct (to_range_cases (lambda_ * d)) as [[E1 _] | [[E1 _] | [E1 _]]];
      rewrite E1 in E; try discriminate.
    inversion E; subst. nra.
  - unfold scale_inf in E. destruct (Rlt_dec 0 lambda_); [discriminate | lra].
  - unfold scale_inf in E. destruct (Rlt_dec 0 lambda_); [discriminate | lra].
  - discriminate.
Qed.

Lemma compensator_in_range (mu_J sigma_J : R) :
  -0.5 <= mu_J <= 0.5 -> 0.01 <= sigma_J <= 1 ->
  exists m,
    to_range
      (fsub (to_range (fexp (to_range (fadd (Fin mu_J)
                                        (to_range (fmul (Fin 0.5)
                                                     (to_range (fpow2 (Fin sigma_J)))))))))
            (Fin 1)) = Fin m
    /\ -1 <= m <= 2.
Proof.
  intros Hm Hs. cbn [fpow2 fmul]. rewrite to_range_fin by nra.
  cbn [fmul]. rewrite to_range_fin by nra.
  cbn [fadd]. rewrite to_range_fin by nra. cbn [fexp].
  set (x := mu_J + 0.5 * (sigma_J * sigma_J)).
  assert (Hx : exp x <= 3).
  { apply Rle_trans with (exp 1); [| exact exp_le_3].
    assert (Hx1 : x <= 1) by (unfold x; nra).
    destruct Hx1 as [Hlt | ->]; [left; now apply exp_increasing | right; reflexivity]. }
  pose proof (exp_pos x).
  rewrite to_range_fin by lra. cbn [fsub fneg fadd]. rewrite to_range_fin by lra.
  eexists. split; [reflexivity | lra].
Qed.

Lemma fmul_fin (a b : R) : fmul (Fin a) (Fin b) = Fin (a * b).
Proof. reflexivity. Qed.

Lemma fsub_fin (a b : R) : fsub (Fin a) (Fin b) = Fin (a - b).
Proof. reflexivity. Qed.

Lemma fpow2_fin (a : R) : fpow2 (Fin a) = Fin (a * a).
Proof. reflexivity. Qed.

Lemma drift_not_nan (r lambda_ m sigma d : R) :
  - float_max <= r <= float_max -> 0.01 <= lambda_ <= 1 -> -1 <= m <= 2 ->
  0.01 <= sigma <= 2 ->
  isnan
    (to_range
       (fmul (to_range
                (fsub (to_range (fsub (Fin r) (to_range (fmul (Fin lambda_) (Fin m)))))
                      (to_range (fmul (Fin 0.5) (to_range (fpow2 (Fin sigma)))))))
             (Fin d)))
  = false.
Proof.
  intros Hr Hl Hm Hs. pose proof float_max_margin as M.
  rewrite (fmul_fin lambda_ m), (to_range_fin (lambda_ * m)) by nra.
  rewrite fsub_fin, (to_range_inside (r - lambda_ * m)) by nra.
  rewrite fpow2_fin, (to_range_fin (sigma * sigma)) by nra.
  rewrite fmul_fin, (to_range_fin (0.5 * (sigma * sigma))) by nra.
  rewrite fsub_fin, to_range_inside by nra.
  rewrite fmul_fin. apply to_range_not_nan. reflexivity.
Qed.

Lemma cumsum_with_summable (l : list npfloat) :
  summable l -> Forall (fun v => isnan v = false) (cumsum_with to_range l).
Proof.
  intros [H | [H | H]].
  - now apply cumsum_with_rising.
  - now apply cumsum_with_falling.
  - now apply cumsum_with_finite_terms.
Qed.

Lemma log_returns_summable (drift : npfloat) (sigma : R)
  (dW jumps : list (list npfloat)) :
  0.01 <= sigma <= 2 -> isnan drift = false ->
  Forall (Forall (within 1e25)) dW -> Forall (Forall (within 1e45)) jumps ->
  Forall summable
    (mat_map2 (fun d j => to_range (fadd d j))
       (mat_map (fun w => to_range (fadd drift (to_range (fmul (Fin sigma) w)))) dW)
       jumps).
Proof.
  intros Hs Hd HW HJ.
  set (diffusion := mat_map (fun w => to_range (fadd drift (to_range (fmul (Fin sigma) w)))) dW).
  assert (Hdiff : Forall (Forall (fun v => exists w, within 1e25 w /\
                    v = to_range (fadd drift (to_range (fmul (Fin sigma) w)))))
                    diffusion).
  { apply (mat_map_Forall _ (within 1e25)); [| exact HW].
    intros w Hw. now exists w. }
  assert (Hclass : forall C : npfloat -> Prop,
             (forall w j, within 1e25 w -> within 1e45 j ->
                          C (log_return_of drift sigma w j)) ->
             Forall (Forall C)
               (mat_map2 (fun d j => to_range (fadd d j)) diffusion jumps)).
  { intros C HC.
    apply (mat_map2_Forall _
             (fun v => exists w, within 1e25 w /\
                v = to_range (fadd drift (to_range (fmul (Fin sigma) w))))
             (within 1e45)); try assumption.
    intros v j (w & Hw & ->) Hj. now apply HC. }
  assert (Hrows : forall C : npfloat -> Prop,
             (forall l, Forall C l -> summable l) ->
             Forall (Forall C)
               (mat_map2 (fun d j => to_range (fadd d j)) diffusion jumps) ->
             Forall summable
               (mat_map2 (fun d j => to_range (fadd d j)) diffusion jumps)).
  { intros C HC H. eapply Forall_impl; [exact HC | exact H]. }
  destruct drift as [d | | |]; try discriminate.
  - destruct (Rle_dec 1e50 d) as [Hup | Hup].
    + apply (Hrows rising); [intros l Hl; now left |].
      apply Hclass. intros w j Hw Hj. apply log_return_rising; try assumption.
      right. now exists d.
    + destruct (Rle_dec d (-1e50)) as [Hdown | Hdown].
      * apply (Hrows falling); [intros l Hl; right; now left |].
        apply Hclass. intros w j Hw Hj. apply log_return_falling; try assumption.
        right. now exists d.
      * apply (Hrows is_fin); [intros l Hl; right; now right |].
        apply Hclass. intros w j Hw Hj. apply log_return_finite; try assumption.
        lra.
  - apply (Hrows rising); [intros l Hl; now left |].
    apply Hclass. intros w j Hw Hj. apply log_return_rising; try assumption.
    now left.
  - apply (Hrows falling); [intros l Hl; right; now left |].
    apply Hclass. intros w j Hw Hj. apply log_return_falling; try assumption.
    now left.
Qed.

Lemma jumps_in_range (Js : list (list npfloat)) (N_t : list (list nat)) :
  Forall (Forall (within 1e25)) Js ->
  Forall (Forall (fun n => INR n <= 9223372036854775808)) N_t ->
  Forall (Forall (within 1e45))
    (mat_map2 (fun j n => to_range (fmul j (Fin (INR n)))) Js N_t).
Proof.
  intros HJ HN.
  apply (mat_map2_Forall _ (within 1e25) (fun n => INR n <= 9223372036854775808));
    try assumption.
  intros j n (j0 & -> & Hj) Hn. pose proof (pos_INR n).
  cbn [fmul]. rewrite to_range_fin by nra.
  eexists. split; [reflexivity | nra].
Qed.

Lemma paths_of_draws_with_floor (S0 r sigma lambda_ mu_J sigma_J d : R)
  (dW : list (list npfloat)) (N_t : list (list nat)) (Js : list (list npfloat)) :
  0.01 <= sigma <= 2 -> 0.01 <= lambda_ <= 1 ->
  -0.5 <= mu_J <= 0.5 -> 0.01 <= sigma_J <= 1 ->
  S0 <> 0 -> - float_max <= r <= float_max ->
  Forall (Forall (within 1e25)) dW ->
  Forall (Forall (fun n => INR n <= 9223372036854775808)) N_t ->
  Forall (Forall (within 1e25)) Js ->
  Forall (Forall at_least_floor)
    (paths_of_draws_with to_range (Fin S0) (Fin r) (Fin sigma) (Fin lambda_)
       (Fin mu_J) (Fin sigma_J) (Fin d) dW N_t Js).
Proof.
  intros Hs Hl Hm HsJ HS Hr HW HN HJ.
  unfold paths_of_draws_with. cbv zeta.
  destruct (compensator_in_range mu_J sigma_J Hm HsJ) as (m & -> & Hmb).
  pose proof (drift_not_nan r lambda_ m sigma d Hr Hl Hmb Hs) as Hd.
  pose proof (log_returns_summable _ sigma dW _ Hs Hd HW (jumps_in_range Js N_t HJ HN))
    as Hsum.
  unfold mat_map at 1. apply Forall_map_iff. apply Forall_map_iff.
  eapply Forall_impl; [| exact Hsum]. intros lr Hlr. cbn beta.
  cbn [map]. constructor.
  - now apply maximum_at_least_floor.
  - apply Forall_map_iff. apply Forall_map_iff.
    eapply Forall_impl; [| exact (cumsum_with_summable lr Hlr)].
    intros c Hc. cbn beta. apply maximum_at_least_floor. now apply price_not_nan.
Qed.

Lemma float_max_large : 1e60 <= float_max.
Proof.
  unfold float_max.
  assert (H : IZR (10 ^ 60) <= IZR (2 ^ 1024 - 2 ^ 971))
    by (apply IZR_le; now apply Z.leb_le).
  change (10 ^ 60)%Z with (10 ^ Z.of_nat 60)%Z in H.
  rewrite <- pow_IZR in H. lra.
Qed.

Lemma draws_in_range_rng0 : draws_in_range rng0.
Proof. split; intros; cbn; unfold normal_draw_bound; lra. Qed.

Lemma negative_fin (a : R) : 0 <= a -> negative (Fin a) = false.
Proof. intros H. cbn. destruct (Rlt_dec a 0); [lra | reflexivity]. Qed.

Lemma rate_default (lambda_ : R) :
  0.01 <= lambda_ <= 1 ->
  poisson_rate (to_range (fmul (Fin lambda_) dt_default)) = Some (lambda_ * 1).
Proof.
  intros H. unfold dt_default. rewrite fmul_fin, to_range_fin by lra.
  apply poisson_rate_fin. pose proof POISSON_LAM_MAX_large. lra.
Qed.

(** C4 (as amended).  In the float64 range, for parameters within the
    calibration bounds, a non-zero initial price, a rate that is a float64
    number and draws a generator can deliver: every entry of the array
    [merton_jump_diffusion_paths] returns is at least the floor 1e-8 (it
    may be +inf) and none is NaN; and the routine does return for valid
    counts. *)
Theorem paths_floored_and_not_nan
  (S0 r sigma lambda_ mu_J sigma_J : R) (dt : npfloat)
  (num_steps num_simulations : Z) (g : rng) :
  0.01 <= sigma <= 2 -> 0.01 <= lambda_ <= 1 ->
  -0.5 <= mu_J <= 0.5 -> 0.01 <= sigma_J <= 1 ->
  S0 <> 0 -> - float_max <= r <= float_max -> draws_in_range g ->
  (forall paths g',
      merton_jump_diffusion_paths_with to_range (Fin S0) (Fin r) (Fin sigma)
        (Fin lambda_) (Fin mu_J) (Fin sigma_J) num_steps num_simulations dt g
      = Ok (paths, g') ->
      Forall (Forall (fun v => (v = PInf \/ exists a, v = Fin a /\ 1e-8 <= a) /\
                               isnan v = false)) paths)
  /\ ((0 <= num_simulations)%Z -> (0 <= num_steps)%Z ->
      exists paths g',
        merton_jump_diffusion_paths_with to_range (Fin S0) (Fin r) (Fin sigma)
          (Fin lambda_) (Fin mu_J) (Fin sigma_J) num_steps num_simulations
          dt_default g = Ok (paths, g')).
Proof.
  intros Hs Hl Hm HsJ HS Hr Hg. split.
  - intros paths g' H. apply merton_with_inv in H.
    destruct H as (_ & l & dW & N_t & Js & g1 & g2 & Hrate & HW & HN & HJ & ->).
    destruct (rate_in_range lambda_ dt l Hl Hrate) as (d & -> & Hd).
    assert (Hsq : to_range (fsqrt (Fin d)) = Fin (sqrt d) /\ 0 <= sqrt d <= 1e21).
    { assert (Hb : 0 <= sqrt d <= 1e21).
      { split; [apply sqrt_pos |].
        rewrite <- (sqrt_square 1e21) by lra. apply sqrt_le_1_alt. nra. }
      rewrite fsqrt_fin by lra. split; [apply to_range_fin; lra | exact Hb]. }
    destruct Hsq as [Esq Hsq]. rewrite Esq in HW.
    destruct (draw_matrix_inv _ draws_in_range (within 1e25)
                (fun g0 a g0' => normal_draw_with_range 0 (sqrt d) g0 g0' a
                                   ltac:(lra) Hsq)
                _ _ _ _ _ Hg HW) as [HdW Hg1].
    destruct (draw_matrix_inv _ draws_in_range
                (fun n => INR n <= 9223372036854775808)
                (fun g0 a g0' Hg0 => poisson_draw_range l g0 g0' a Hg0)
                _ _ _ _ _ Hg1 HN) as [HNt Hg2].
    destruct (draw_matrix_inv _ draws_in_range (within 1e25)
                (fun g0 a g0' => normal_draw_with_range mu_J sigma_J g0 g0' a
                                   ltac:(lra) ltac:(lra))
                _ _ _ _ _ Hg2 HJ) as [HJs _].
    pose proof (paths_of_draws_with_floor S0 r sigma lambda_ mu_J sigma_J d
                  dW N_t Js Hs Hl Hm HsJ HS Hr HdW HNt HJs) as HF.
    eapply Forall_impl; [| exact HF]. intros row Hrow.
    eapply Forall_impl; [| exact Hrow]. intros v Hv.
    split; [exact Hv | now apply at_least_floor_not_nan].
  - intros Hn Hst.
    apply (merton_with_total _ _ _ _ _ _ _ _ _ (lambda_ * 1)); try assumption.
    + apply negative_fin. lra.
    + now apply rate_default.
Qed.

Lemma paths_floored_and_not_nan_witness :
  (forall paths g',
      merton_jump_diffusion_paths_with to_range (Fin 100) (Fin 0.0002) (Fin 0.2)
        (Fin 0.05) (Fin 0) (Fin 0.02) 252 3 dt_default rng0 = Ok (paths, g') ->
      Forall (Forall (fun v => (v = PInf \/ exists a, v = Fin a /\ 1e-8 <= a) /\
                               isnan v = false)) paths)
  /\ ((0 <= 3)%Z -> (0 <= 252)%Z ->
      exists paths g',
        merton_jump_diffusion_paths_with to_range (Fin 100) (Fin 0.0002) (Fin 0.2)
          (Fin 0.05) (Fin 0) (Fin 0.02) 252 3 dt_default rng0 = Ok (paths, g')).
Proof.
  apply (paths_floored_and_not_nan 100 0.0002 0.2 0.05 0 0.02 dt_default 252 3 rng0);
    try lra.
  - pose proof float_max_large. lra.
  - exact draws_in_range_rng0.
Defined.

Lemma fadd_fin (a b : R) : fadd (Fin a) (Fin b) = Fin (a + b).
Proof. reflexivity. Qed.

Lemma to_range_overflow (a : R) : float_overflow <= a -> to_range (Fin a) = PInf.
Proof.
  intros H. unfold to_range. destruct (Rle_dec float_overflow a); [reflexivity | lra].
Qed.

(** One path, one step, drift r = 2000 and all draws 0: the log return is
    about 1999.98 and its exponential is beyond the float64 range. *)
Lemma single_step_overflow (S0 : R) :
  outcome
    (merton_jump_diffusion_paths_with to_range (Fin S0) (Fin 2000) (Fin 0.2)
       (Fin 0.05) (Fin 0) (Fin 0.02) 1 1 dt_default rng0)
  = Ok [[np_maximum (Fin S0) (Fin price_floor);
         np_maximum (to_range (fmul (Fin S0) PInf)) (Fin price_floor)]].
Proof.
  unfold merton_jump_diffusion_paths_with. cbv zeta.
  change ((1 <? 0) || (1 + 1 <? 0))%Z with false.
  change (1 + 1 =? 0)%Z with false. cbv iota.
  unfold np_random_normal_size_with, np_random_poisson_size.
  rewrite negative_sqrt_in_range, (negative_fin 0.02) by lra.
  rewrite (rate_default 0.05) by lra.
  unfold poisson_draw. destruct (Req_EM_T (0.05 * 1) 0) as [E | _]; [lra |].
  destruct (compensator_in_range 0 0.02 ltac:(lra) ltac:(lra)) as (m & Em & Hm).
  rewrite Em.
  unfold dt_default. rewrite (fsqrt_fin 1) by lra. rewrite sqrt_1.
  rewrite (to_range_fin 1) by lra.
  change (Z.to_nat 1) with 1%nat.
  unfold outcome, draw_matrix. cbn [draw_list].
  unfold normal_draw_with, next_normal, next_poisson, bind, ret.
  cbn [rng0 normal_tape poisson_tape cursor advance].
  cbn [mat_map2 mat_map map2 map cumsum_with cumsum_from_with INR].
  do 3 f_equal.
  assert (Ew : to_range (fadd (Fin 0) (to_range (fmul (Fin 1) (Fin 0)))) = Fin 0).
  { rewrite fmul_fin, to_range_fin by lra. rewrite fadd_fin, to_range_fin by lra.
    f_equal. lra. }
  assert (Ej : to_range (fadd (Fin 0) (to_range (fmul (Fin 0.02) (Fin 0)))) = Fin 0).
  { rewrite fmul_fin, to_range_fin by lra. rewrite fadd_fin, to_range_fin by lra.
    f_equal. lra. }
  rewrite Ew, Ej.
  rewrite (fmul_fin 0.05 m), (to_range_fin (0.05 * m)) by lra.
  rewrite fsub_fin, (to_range_fin (2000 - 0.05 * m)) by lra.
  rewrite fpow2_fin, (to_range_fin (0.2 * 0.2)) by lra.
  rewrite fmul_fin, (to_range_fin (0.5 * (0.2 * 0.2))) by lra.
  rewrite fsub_fin, to_range_fin by lra.
  rewrite fmul_fin, to_range_fin by lra.
  rewrite (fmul_fin 0.2 0), (to_range_fin (0.2 * 0)) by lra.
  rewrite fadd_fin, to_range_fin by lra.
  rewrite (fmul_fin 0 0), (to_range_fin (0 * 0)) by lra.
  rewrite fadd_fin, to_range_fin by lra.
  cbn [fexp]. rewrite to_range_overflow by (apply exp_overflows; lra).
  reflexivity.
Qed.

(** C4, the claim as stated fails on overflow: with the in-bounds
    parameters sigma = 0.2, lambda = 0.05, mu_J = 0, sigma_J = 0.02, one
    path of one step and the drift r = 2000, the entry after the initial
    price 100 is 100 * exp(1999.98...) = +inf; with the initial price 0 it
    is 0 * inf = NaN, which the floor does not remove. *)
Lemma paths_overflow_counterexample :
  outcome
    (merton_jump_diffusion_paths_with to_range (Fin 100) (Fin 2000) (Fin 0.2)
       (Fin 0.05) (Fin 0) (Fin 0.02) 1 1 dt_default rng0)
  = Ok [[Fin 100; PInf]]
  /\ isinf PInf = true
  /\ outcome
       (merton_jump_diffusion_paths_with to_range (Fin 0) (Fin 2000) (Fin 0.2)
          (Fin 0.05) (Fin 0) (Fin 0.02) 1 1 dt_default rng0)
     = Ok [[Fin 1e-8; NaN]]
  /\ isnan NaN = true.
Proof.
  rewrite !single_step_overflow. rewrite !np_maximum_fin.
  split; [| split; [reflexivity | split; [| reflexivity]]].
  - rewrite Rmax_left by (unfold price_floor; lra).
    cbn [fmul]. unfold scale_inf. destruct (Rlt_dec 0 100); [| lra]. reflexivity.
  - rewrite Rmax_right by (unfold price_floor; lra).
    cbn [fmul]. unfold scale_inf. destruct (Rlt_dec 0 0); [lra |]. reflexivity.
Qed.

(** ** The Monte Carlo routine and the ambient names *)

(** C2.  The price [monte_carlo_option_pricing] returns does not depend on
    its arguments S0, sigma, lambda_, mu_J, sigma_J and num_steps: two calls
    in the same ambient state [G], from the same state [g] of the random
    source and with the same r, r_annual, T, K, option_type and
    num_simulations give the same outcome whatever these six arguments are.
    The simulation is the one of the names ST, sigma_calibrated,
    lambda_calibrated, mu_J_calibrated and sigma_J_calibrated, over
    int(252 * T) steps. *)
Theorem monte_carlo_reads_ambient_state
  (G : module_globals) (r r_annual T K : npfloat) (option_type : string)
  (num_simulations : Z) (g : rng)
  (S0 sigma lambda_ mu_J sigma_J : npfloat) (num_steps : option Z)
  (S0' sigma' lambda_' mu_J' sigma_J' : npfloat) (num_steps' : option Z) :
  monte_carlo_option_pricing G S0 r r_annual sigma lambda_ mu_J sigma_J T K
    option_type num_simulations num_steps g
  = monte_carlo_option_pricing G S0' r r_annual sigma' lambda_' mu_J' sigma_J' T K
      option_type num_simulations num_steps' g
  /\ forall (st sc lc mc sjc : npfloat) (t : R),
      monte_carlo_option_pricing
        (mk_globals (Some st) (Some sc) (Some lc) (Some mc) (Some sjc))
        S0 r r_annual sigma lambda_ mu_J sigma_J (Fin t) K
        option_type num_simulations num_steps g
      = (simulated_paths <-
           merton_jump_diffusion_paths st r sc lc mc sjc (trunc (252 * t))
             num_simulations dt_default ;;
         payoffs <-
           (if String.eqb option_type "call" then
              ret (map (fun row => np_maximum (fsub (last row NaN) K) (Fin 0))
                     simulated_paths)
            else if String.eqb option_type "put" then
              ret (map (fun row => np_maximum (fsub K (last row NaN)) (Fin 0))
                     simulated_paths)
            else raise ValueError) ;;
         ret (fmul (fexp (fmul (fneg r_annual) (Fin t))) (np_mean payoffs))) g.
Proof.
  split; reflexivity.
Qed.

(** ** An option type that is neither 'call' nor 'put' *)

Lemma draw_list_not_raise {A : Type} (d : M A) (e : exn) :
  (forall g, exists a g', d g = Ok (a, g')) ->
  forall n g, draw_list d n g <> Raise e.
Proof.
  intros Hd n g H. destruct (draw_list_total d Hd n g) as (l & g' & Hl).
  congruence.
Qed.

Lemma compute_jump_parameters_raise
  (r sigma lam mu_J sigma_J T : npfloat) (g : rng) (e : exn) :
  compute_jump_parameters r sigma lam mu_J sigma_J T g = Raise e -> e = ValueError.
Proof.
  unfold compute_jump_parameters, np_random_poisson. intros H.
  destruct (poisson_rate (fmul lam T)) as [l |].
  - destruct (poisson_draw_total l g) as (n & g1 & Hn).
    rewrite (bind_eq _ _ _ _ _ Hn) in H.
    unfold np_random_normal in H. simpl negative in H.
    destruct (Rlt_dec 1 0); [lra |].
    destruct (normal_draw_total (Fin 0) (Fin 1) g1) as (z & g2 & Hz).
    rewrite (bind_eq _ _ _ _ _ Hz) in H. discriminate.
  - unfold bind, raise in H. congruence.
Qed.

Lemma jump_scenario_invalid
  (ST K T r sigma lam mu_J sigma_J : npfloat) (option_type : string)
  (i : nat) (acc : npfloat) (g : rng) :
  option_type <> "call"%string -> option_type <> "put"%string ->
  jump_scenario ST K T r sigma lam mu_J sigma_J option_type i acc g
  = Raise ValueError.
Proof.
  intros Hc Hp. apply String.eqb_neq in Hc, Hp. unfold jump_scenario.
  destruct (compute_jump_parameters r sigma lam mu_J sigma_J T g)
    as [[[[[[[n Z] m] r_n] sigma_n] lambda_n] g1] | e] eqn:E.
  - rewrite (bind_eq _ _ _ _ _ E). rewrite Hc, Hp. reflexivity.
  - rewrite (bind_raise _ _ _ _ E).
    rewrite (compute_jump_parameters_raise _ _ _ _ _ _ _ _ E). reflexivity.
Qed.

Lemma for_loop_raises {A : Type} (idx : list nat) (body : nat -> A -> M A)
  (a : A) (g : rng) (e : exn) :
  idx <> [] -> (forall i a g, body i a g = Raise e) ->
  for_loop idx body a g = Raise e.
Proof.
  intros Hidx Hbody. destruct idx as [| i rest]; [contradiction |].
  simpl. apply bind_raise, Hbody.
Qed.

Lemma py_range_nonempty (n : Z) : (1 <= n)%Z -> py_range n <> [].
Proof.
  intros Hn. unfold py_range.
  destruct (Z.to_nat n) as [| k] eqn:E; [lia | discriminate].
Qed.

Lemma black_scholes_with_jumps_invalid
  (ST K T r sigma lam mu_J sigma_J : npfloat) (option_type : string)
  (num_simulations : Z) (g : rng) :
  option_type <> "call"%string -> option_type <> "put"%string ->
  (1 <= num_simulations)%Z ->
  black_scholes_with_jumps ST K T r sigma lam mu_J sigma_J option_type
    num_simulations g = Raise ValueError.
Proof.
  intros Hc Hp Hn. unfold black_scholes_with_jumps.
  apply bind_raise. apply for_loop_raises; [apply py_range_nonempty, Hn |].
  intros _ acc g0. apply for_loop_raises; [apply py_range_nonempty; lia |].
  intros i a g1. apply jump_scenario_invalid; assumption.
Qed.

Lemma draw_matrix_not_raise {A : Type} (d : M A) (e : exn) :
  (forall g, exists a g', d g = Ok (a, g')) ->
  forall rows cols g, draw_matrix d rows cols g <> Raise e.
Proof.
  intros Hd rows cols g H.
  destruct (draw_matrix_total d Hd rows cols g) as (m & g' & Hm). congruence.
Qed.

(** The simulator raises nothing but ValueError once it has a column 0. *)
Lemma merton_raise (S0 r sigma lambda_ mu_J sigma_J : npfloat)
  (num_steps num_simulations : Z) (dt : npfloat) (g : rng) (e : exn) :
  (0 <= num_steps)%Z ->
  merton_jump_diffusion_paths S0 r sigma lambda_ mu_J sigma_J
    num_steps num_simulations dt g = Raise e ->
  e = ValueError.
Proof.
  intros Hs. unfold merton_jump_diffusion_paths.
  destruct ((num_simulations <? 0) || (num_steps + 1 <? 0))%Z;
    [unfold raise; congruence |].
  replace (num_steps + 1 =? 0)%Z with false by (symmetry; apply Z.eqb_neq; lia).
  unfold np_random_normal_size, np_random_poisson_size.
  rewrite negative_fsqrt. intros H.
  destruct (draw_matrix_total _ (normal_draw_total (Fin 0) (fsqrt dt))
              (Z.to_nat num_simulations) (Z.to_nat num_steps) g) as (dW & g1 & HW).
  rewrite (bind_eq _ _ _ _ _ HW) in H.
  destruct (poisson_rate (fmul lambda_ dt)) as [l |];
    [| unfold bind, raise in H; congruence].
  destruct (draw_matrix_total _ (poisson_draw_total l)
              (Z.to_nat num_simulations) (Z.to_nat num_steps) g1) as (N_t & g2 & HN).
  rewrite (bind_eq _ _ _ _ _ HN) in H.
  destruct (negative sigma_J); [unfold bind, raise in H; congruence |].
  destruct (draw_matrix_total _ (normal_draw_total mu_J sigma_J)
              (Z.to_nat num_simulations) (Z.to_nat num_steps) g2) as (Js & g3 & HJ).
  rewrite (bind_eq _ _ _ _ _ HJ) in H. discriminate.
Qed.







(** ** The jump-adjusted price without jumps *)

Lemma for_loop_adds (body : nat -> npfloat -> M npfloat) (p : R) :
  (forall i acc g, exists g', body i (Fin acc) g = Ok (Fin (acc + p), g')) ->
  forall idx acc g,
    exists g',
      for_loop idx body (Fin acc) g = Ok (Fin (acc + INR (length idx) * p), g').
Proof.
  intros Hbody. induction idx as [| i rest IH]; intros acc g.
  - exists g. simpl. unfold ret. do 3 f_equal. lra.
  - destruct (Hbody i acc g) as (g1 & H1).
    destruct (IH (acc + p) g1) as (g2 & H2).
    exists g2. cbn [for_loop]. rewrite (bind_eq _ _ _ _ _ H1), H2.
    do 3 f_equal. change (length (i :: rest)) with (S (length rest)).
    rewrite S_INR. ring.
Qed.

Section NoJumps.

Variables S K T r sigma mu_J sigma_J : R.
Variable option_type : string.

Hypothesis S_pos : 0 < S.
Hypothesis K_pos : 0 < K.
Hypothesis T_pos : 0 < T.
Hypothesis sigma_pos : 0 < sigma.
Hypothesis valid_type : option_type = "call"%string \/ option_type = "put"%string.
(** None of the three numerical guards of the routine bites. *)
Hypothesis exponent_in_range : -700 <= r * T <= 700.
Hypothesis d1_in_range : -10 <= ClosedForm.d1 S K T r sigma <= 10.
Hypothesis d2_in_range : -10 <= ClosedForm.d2 S K T r sigma <= 10.

Let p : R := ClosedForm.price S K T r sigma option_type.

Lemma closed_form_price :
  black_scholes_option_pricing (Fin S) (Fin K) (Fin T) (Fin r) (Fin sigma) option_type
  = Ok (Fin p).
Proof.
  unfold p, ClosedForm.price. destruct valid_type as [-> | ->]; simpl String.eqb; cbv iota.
  - apply ClosedFormFacts.black_scholes_call_fin; assumption.
  - apply ClosedFormFacts.black_scholes_put_fin; assumption.
Qed.

(** With intensity 0 the redrawn jump count is 0, the adjusted rate and
    volatility are the plain ones and the adjusted intensity is 0. *)
Lemma compute_jump_parameters_no_jumps (g : rng) :
  exists Z m g',
    compute_jump_parameters (Fin r) (Fin sigma) (Fin 0) (Fin mu_J) (Fin sigma_J)
      (Fin T) g
    = Ok ((O, Z, m, Fin r, Fin sigma, Fin 0), g').
Proof.
  unfold compute_jump_parameters, np_random_poisson.
  cbn [fmul]. rewrite Rmult_0_l.
  rewrite poisson_rate_fin by (pose proof POISSON_LAM_MAX_large; lra).
  rewrite (bind_eq _ _ _ _ _ (poisson_draw_zero g)).
  unfold np_random_normal. simpl negative. destruct (Rlt_dec 1 0); [lra |].
  unfold normal_draw, next_normal. unfold bind at 1. unfold bind at 1.
  unfold ret.
  cbn [fpow2 fmul fadd fsub fneg fexp INR].
  rewrite flog_fin
    by (pose proof (exp_pos (mu_J + 0.5 * (sigma_J * sigma_J))); lra).
  cbn [fmul]. rewrite !fdiv_fin by lra. cbn [fadd].
  rewrite fsqrt_fin by nra.
  set (e := exp (mu_J + 0.5 * (sigma_J * sigma_J))).
  replace (r + - (0 * (e + - (1))) + 0 * ln (1 + (e + - (1))) / T) with r
    by (unfold Rdiv; ring).
  replace (sigma * sigma + 0 * (sigma_J * sigma_J) / T) with (sigma * sigma)
    by (unfold Rdiv; ring).
  rewrite sqrt_square by lra.
  replace (0 * (1 + (e + - (1)))) with 0 by ring.
  eexists _, _, _. reflexivity.
Qed.

(** One pass of the inner loop adds the closed-form price with weight 1. *)
Lemma jump_scenario_no_jumps (i : nat) (acc : R) (g : rng) :
  exists g',
    jump_scenario (Fin S) (Fin K) (Fin T) (Fin r) (Fin sigma) (Fin 0) (Fin mu_J)
      (Fin sigma_J) option_type i (Fin acc) g
    = Ok (Fin (acc + p), g').
Proof.
  destruct (compute_jump_parameters_no_jumps g) as (Z & m & g' & E).
  exists g'. unfold jump_scenario. rewrite (bind_eq _ _ _ _ _ E).
  (* the Poisson weight *)
  assert (Hw : fexp (poisson_logpmf O (fmul (Fin 0) (Fin T))) = Fin 1).
  { cbn [fmul]. rewrite Rmult_0_l. unfold poisson_logpmf. simpl negative.
    destruct (Rlt_dec 0 0); [lra |]. simpl.
    f_equal. rewrite ln_1. replace (0 + - 0 + - 0) with 0 by lra. apply exp_0. }
  rewrite Hw.
  (* the clamped exponent *)
  assert (Hx : py_max (py_min (fmul (Fin r) (Fin T)) (Fin 700)) (Fin (-700))
               = Fin (r * T)).
  { cbn [fmul]. unfold py_min. rewrite fltb_fin_false by lra.
    unfold py_max. rewrite fltb_fin_false by lra. reflexivity. }
  rewrite Hx.
  (* d1 and d2 *)
  rewrite (fdiv_fin S K) by lra.
  rewrite flog_fin by (apply ClosedFormFacts.ratio_pos; assumption).
  rewrite fsqrt_fin by lra.
  cbn [fpow2 fmul fadd fsub fneg fexp].
  rewrite fdiv_fin by (apply ClosedFormFacts.sigma_sqrt_T_neq_0; assumption).
  cbn [fadd fsub fneg].
  change ((ln (S / K) + (r + 0.5 * (sigma * sigma)) * T) / (sigma * sqrt T))
    with (ClosedForm.d1 S K T r sigma).
  replace (ClosedForm.d1 S K T r sigma + - (sigma * sqrt T))
    with (ClosedForm.d2 S K T r sigma) by reflexivity.
  rewrite !np_clip_inside by assumption.
  assert (He : exp (- (r * T)) = exp (- r * T)) by (f_equal; lra).
  unfold p, ClosedForm.price.
  destruct valid_type as [-> | ->]; simpl String.eqb; cbv iota.
  - unfold bind, ret. cbn [norm_cdf fmul fadd fsub fneg]. rewrite He.
    do 3 f_equal. unfold ClosedForm.call. ring.
  - unfold bind, ret. cbn [norm_cdf fmul fadd fsub fneg]. rewrite He.
    do 3 f_equal. unfold ClosedForm.put. ring.
Qed.

(** The accumulated sum is divided by the outer repetition count only:
    the routine returns ten times the closed-form price. *)
Lemma black_scholes_with_jumps_no_jumps (num_simulations : Z) (g : rng) :
  (1 <= num_simulations)%Z ->
  outcome
    (black_scholes_with_jumps (Fin S) (Fin K) (Fin T) (Fin r) (Fin sigma) (Fin 0)
       (Fin mu_J) (Fin sigma_J) option_type num_simulations g)
  = Ok (Fin (10 * p)).
Proof.
  intros Hn. unfold black_scholes_with_jumps.
  pose (inner := fun (_ : nat) (acc : npfloat) =>
                   for_loop (py_range 10)
                     (jump_scenario (Fin S) (Fin K) (Fin T) (Fin r) (Fin sigma)
                        (Fin 0) (Fin mu_J) (Fin sigma_J) option_type) acc).
  assert (Hinner : forall i acc g0, exists g',
             inner i (Fin acc) g0 = Ok (Fin (acc + 10 * p), g')).
  { intros i acc g0. unfold inner.
    destruct (for_loop_adds _ p jump_scenario_no_jumps (py_range 10) acc g0)
      as (g' & H).
    exists g'. rewrite H. do 3 f_equal. unfold py_range. rewrite length_seq.
    simpl. lra. }
  destruct (for_loop_adds inner (10 * p) Hinner (py_range num_simulations) 0 g)
    as (g' & H).
  fold inner. rewrite (bind_eq _ _ _ _ _ H).
  replace (num_simulations =? 0)%Z with false by (symmetry; apply Z.eqb_neq; lia).
  unfold ret, outcome.
  assert (HN : INR (length (py_range num_simulations)) = IZR num_simulations).
  { unfold py_range. rewrite length_seq, INR_IZR_INZ, Z2Nat.id by lia. reflexivity. }
  rewrite HN.
  assert (Hnz : IZR num_simulations <> 0).
  { apply Rgt_not_eq. apply (IZR_lt 0). lia. }
  rewrite fdiv_fin by exact Hnz. do 2 f_equal. field. exact Hnz.
Qed.

End NoJumps.

Lemma d1_literal : ClosedForm.d1 100 100 1 0.02 0.2 = 0.2.
Proof.
  unfold ClosedForm.d1. replace (100 / 100) with 1 by lra.
  rewrite ln_1, sqrt_1. lra.
Qed.

Lemma d2_literal : ClosedForm.d2 100 100 1 0.02 0.2 = 0.
Proof. unfold ClosedForm.d2. rewrite d1_literal, sqrt_1. lra. Qed.

Lemma call_literal_lower_bound : 0.9 < ClosedForm.call 100 100 1 0.02 0.2.
Proof.
  unfold ClosedForm.call. rewrite d1_literal, d2_literal, NormalCdfFacts.Phi_0.
  pose proof (NormalCdfFacts.Phi_ge_half 0.2 ltac:(lra)) as HPhi.
  assert (He : exp (- (0.02) * 1) <= / 1.02).
  { replace (- (0.02) * 1) with (Ropp 0.02) by lra. rewrite exp_Ropp.
    apply Rinv_le_contravar; [lra |].
    pose proof (exp_ineq1_le 0.02). lra. }
  assert (Hi : / 1.02 <= 0.981) by lra.
  lra.
Qed.

(** C1, the code against the claim.  At S = 100, K = 100, T = 1,
    r_annual = 0.02, sigma_annual = 0.2, a call, intensity exactly 0 and
    1000 outer repetitions, whatever mu_J and sigma_J and whatever the
    draws: the closed-form routine returns a price [p] and the jump-adjusted
    routine returns exactly [10 * p]; the two differ by more than 8, with no
    randomness left in either. *)
Theorem jumps_price_without_jumps_is_tenfold :
  exists p : R,
    black_scholes_option_pricing (Fin 100) (Fin 100) (Fin 1) (Fin 0.02) (Fin 0.2)
      "call" = Ok (Fin p)
    /\ (forall (mu_J sigma_J : R) (g : rng),
          outcome
            (black_scholes_with_jumps (Fin 100) (Fin 100) (Fin 1) (Fin 0.02)
               (Fin 0.2) (Fin 0) (Fin mu_J) (Fin sigma_J) "call" 1000 g)
          = Ok (Fin (10 * p)))
    /\ 8 < 10 * p - p.
Proof.
  exists (ClosedForm.call 100 100 1 0.02 0.2). split; [| split].
  - apply ClosedFormFacts.black_scholes_call_fin; lra.
  - intros mu_J sigma_J g.
    apply (black_scholes_with_jumps_no_jumps 100 100 1 0.02 0.2 mu_J sigma_J "call");
      try lra; try lia.
    + left. reflexivity.
    + rewrite d1_literal. lra.
    + rewrite d2_literal. lra.
  - pose proof call_literal_lower_bound. lra.
Qed.

(** ** Aggregating the calibration runs *)

Section Aggregation.

Variable differential_evolution :
  (list npfloat -> M npfloat) -> list (R * R) -> Z -> R -> bool -> Z -> Z ->
  M OptimizeResult.

Variables (historical_returns : list npfloat) (S0 r : npfloat).
Variables (num_steps num_simulations_calibration : Z).

Let one_run : M OptimizeResult :=
  calibration_run differential_evolution historical_returns S0 r num_steps
    num_simulations_calibration.

Let loop_body (_ : nat) (acc : calibration_acc) : M calibration_acc :=
  let '(results, calibrated_parameters, mses) := acc in
  '(result, mse) <-
    calibrate_merton_parameters differential_evolution historical_returns S0 r
      num_steps num_simulations_calibration ;;
  if success result
  then ret (results ++ [result], calibrated_parameters ++ [x result], mses ++ [mse])
  else ret acc.

(** The loop appends, in order, exactly the successful runs. *)
Lemma calibration_loop_retains (idx : list nat) :
  forall (results : list OptimizeResult) (params : list (list npfloat))
         (mses : list npfloat) (g : rng),
    for_loop idx loop_body (results, params, mses) g
    = match draw_list one_run (length idx) g with
      | Ok (runs, g') =>
          Ok ((results ++ filter success runs,
               params ++ map x (filter success runs),
               mses ++ map fun_ (filter success runs)), g')
      | Raise e => Raise e
      end.
Proof.
  induction idx as [| i rest IH]; intros results params mses g.
  - simpl. unfold ret. rewrite !app_nil_r. reflexivity.
  - cbn [for_loop length draw_list].
    destruct (calibrate_merton_parameters differential_evolution historical_returns
                S0 r num_steps num_simulations_calibration g)
      as [[[res mse] g1] | e] eqn:E.
    + assert (Hmse : mse = fun_ res).
      { unfold calibrate_merton_parameters in E. apply bind_ok in E.
        destruct E as (res0 & g0 & _ & E). unfold ret in E. congruence. }
      assert (Hrun : one_run g = Ok (res, g1)).
      { unfold one_run, calibration_run. rewrite (bind_eq _ _ _ _ _ E). reflexivity. }
      rewrite (bind_eq _ _ _ _ _ Hrun).
      unfold bind at 1. unfold loop_body at 1.
      rewrite (bind_eq _ _ _ _ _ E).
      destruct (success res) eqn:Es; unfold ret at 1; rewrite IH; unfold bind;
        (destruct (draw_list one_run (length rest) g1) as [[runs g2] | e];
         [| reflexivity]);
        unfold ret; cbn [filter]; rewrite Es.
      * cbn [map]. rewrite <- !app_assoc. subst mse. reflexivity.
      * reflexivity.
    + assert (Hrun : one_run g = Raise e).
      { unfold one_run, calibration_run. rewrite (bind_raise _ _ _ _ E). reflexivity. }
      rewrite (bind_raise _ _ _ _ Hrun).
      unfold bind at 1. unfold loop_body at 1.
      rewrite (bind_raise _ _ _ _ E). reflexivity.
Qed.

Lemma run_multiple_calibrations_refines (num_runs : Z) (g : rng) :
  run_multiple_calibrations differential_evolution historical_returns S0 r
    num_steps num_simulations_calibration num_runs g
  = multi_run_spec differential_evolution historical_returns S0 r
      num_steps num_simulations_calibration num_runs g.
Proof.
  unfold run_multiple_calibrations, multi_run_spec.
  unfold bind at 1. fold loop_body. fold one_run.
  rewrite calibration_loop_retains. unfold py_range. rewrite length_seq.
  unfold bind at 2.
  destruct (draw_list one_run (Z.to_nat num_runs) g) as [[runs g'] | e];
    [| reflexivity].
  cbn [app]. unfold aggregate_retained.
  destruct (filter success runs) as [| r0 rest] eqn:Ef.
  - reflexivity.
  - cbn [map]. set (rows := x r0 :: map x rest).
    destruct (np_mean_axis0_of rows) as [avg | e]; reflexivity.
Qed.

End Aggregation.

Lemma np_mean_axis0_of_uniform (first : list npfloat) (rest : list (list npfloat)) :
  (forall v, In v rest -> length v = length first) ->
  np_mean_axis0_of (first :: rest)
  = Ok (map (fun j => fdiv (fsum (map (fun v => nth j v NaN) (first :: rest)))
                           (Fin (INR (length (first :: rest)))))
          (seq 0 (length first))).
Proof.
  intros Hlen. unfold np_mean_axis0_of.
  replace (forallb (fun r => Nat.eqb (length r) (length first)) rest) with true.
  - unfold np_mean_axis0, np_mean, column. f_equal. apply map_ext.
    intros j. rewrite length_map. reflexivity.
  - symmetry. apply forallb_forall. intros v Hv. apply Nat.eqb_eq, Hlen, Hv.
Qed.

(** C6.  Let [runs] be the results of the [num_runs] successive calibration
    runs.  [run_multiple_calibrations] returns as its results exactly the
    runs flagged successful, in order.  When none is, both aggregates are
    None.  Otherwise the aggregate parameter vector holds at each coordinate
    [j] the sum of the successful runs' [j]-th parameters divided by their
    number, and the aggregate error is the sum of their objective values
    divided by their number. *)
Theorem successful_runs_are_averaged
  (differential_evolution :
     (list npfloat -> M npfloat) -> list (R * R) -> Z -> R -> bool -> Z -> Z ->
  M OptimizeResult)
  (historical_returns : list npfloat) (S0 r : npfloat)
  (num_steps num_simulations_calibration num_runs : Z)
  (g g' : rng) (runs : list OptimizeResult) :
  draw_list
    (calibration_run differential_evolution historical_returns S0 r num_steps
       num_simulations_calibration)
    (Z.to_nat num_runs) g = Ok (runs, g') ->
  match filter success runs with
  | [] =>
      run_multiple_calibrations differential_evolution historical_returns S0 r
        num_steps num_simulations_calibration num_runs g
      = Ok (([], None, None), g')
  | first :: others =>
      let retained := first :: others in
      (forall res, In res others -> length (x res) = length (x first)) ->
      run_multiple_calibrations differential_evolution historical_returns S0 r
        num_steps num_simulations_calibration num_runs g
      = Ok ((retained,
             Some (map (fun j =>
                          fdiv (fsum (map (fun res => nth j (x res) NaN) retained))
                               (Fin (INR (length retained))))
                     (seq 0 (length (x first)))),
             Some (fdiv (fsum (map fun_ retained)) (Fin (INR (length retained))))),
            g')
  end.
Proof.
  intros Hruns. rewrite run_multiple_calibrations_refines. unfold multi_run_spec.
  rewrite (bind_eq _ _ _ _ _ Hruns).
  destruct (filter success runs) as [| first others]; [reflexivity |].
  intros Hlen. unfold aggregate_retained. cbn [map].
  rewrite np_mean_axis0_of_uniform.
  - simpl lift. unfold bind, ret. do 3 f_equal.
    + do 2 f_equal.
      * apply map_ext. intros j. cbn [map length]. rewrite map_map, length_map.
        reflexivity.
    + unfold np_mean. cbn [map length]. rewrite length_map.
      reflexivity.
  - intros v Hv. apply in_map_iff in Hv. destruct Hv as (res & <- & Hres).
    apply Hlen, Hres.
Qed.

Lemma fdiv_two (a : R) : fdiv (Fin a) (Fin (INR 2)) = Fin (a / 2).
Proof.
  assert (H2 : INR 2 = 2) by (simpl; lra).
  rewrite H2. apply fdiv_fin. lra.
Qed.

(** Three runs, one failed: the aggregate averages exactly the two
    successful vectors. *)
Lemma successful_runs_are_averaged_witness :
  outcome
    (run_multiple_calibrations scripted_optimizer [] (Fin 100) (Fin 0.0002)
       252 1 3 rng0)
  = Ok ([run_a; run_c],
        Some [Fin ((0 + 0.2 + 0.4) / 2); Fin ((0 + 0.1 + 0.3) / 2);
              Fin ((0 + 0 + 0) / 2); Fin ((0 + 0.3 + 0.1) / 2)],
        Some (Fin ((0 + 1 + 3) / 2))).
Proof.
  pose proof (successful_runs_are_averaged scripted_optimizer [] (Fin 100)
                (Fin 0.0002) 252 1 3 rng0 _ [run_a; run_b; run_c] eq_refl) as H.
  cbn [filter success run_a run_b run_c] in H.
  rewrite H.
  - unfold outcome, run_a, run_c.
    cbn [map seq nth x fun_ length fsum fold_left fadd].
    rewrite !fdiv_two. reflexivity.
  - intros res [<- | []]. reflexivity.
Defined.

(** ** The calibration objective *)

(** *** Sums and means of finite values *)

Lemma fold_fadd_not_fin (l : list npfloat) (v : npfloat) :
  ~ is_fin v -> ~ is_fin (fold_left fadd l v).
Proof.
  revert v. induction l as [| y t IH]; intros v Hv; simpl; [exact Hv |].
  apply IH. destruct v, y; simpl in *; tauto.
Qed.

Lemma fold_fadd_fin_inv (l : list npfloat) (a s : R) :
  fold_left fadd l (Fin a) = Fin s ->
  Forall is_fin l /\ s = a + Rsum_list (map real_part l).
Proof.
  revert a. induction l as [| y t IH]; intros a H; simpl in H.
  - inversion H; subst. split; [constructor | simpl; lra].
  - destruct y as [b | | |].
    + simpl in H. apply IH in H. destruct H as [HF Hs].
      split; [constructor; [exact I | exact HF] | simpl; lra].
    + simpl in H. exfalso.
      apply (fold_fadd_not_fin t PInf); [simpl; tauto | rewrite H; exact I].
    + simpl in H. exfalso.
      apply (fold_fadd_not_fin t NInf); [simpl; tauto | rewrite H; exact I].
    + simpl in H. exfalso.
      apply (fold_fadd_not_fin t NaN); [simpl; tauto | rewrite H; exact I].
Qed.

Lemma fsum_fin_inv (l : list npfloat) (s : R) :
  fsum l = Fin s -> Forall is_fin l /\ s = Rsum_list (map real_part l).
Proof.
  unfold fsum. intros H. apply fold_fadd_fin_inv in H.
  destruct H as [HF Hs]. split; [exact HF | lra].
Qed.

Lemma fold_fadd_fin (l : list npfloat) (a : R) :
  Forall is_fin l ->
  fold_left fadd l (Fin a) = Fin (a + Rsum_list (map real_part l)).
Proof.
  intros H. revert a. induction H as [| y t Hy Ht IH]; intros a; simpl.
  - f_equal. lra.
  - apply is_fin_inv in Hy. destruct Hy as [b ->]. simpl. rewrite IH.
    f_equal. lra.
Qed.

Lemma fsum_fin (l : list npfloat) :
  Forall is_fin l -> fsum l = Fin (Rsum_list (map real_part l)).
Proof.
  intros H. unfold fsum. rewrite fold_fadd_fin by exact H. f_equal. lra.
Qed.

Lemma fdiv_count_fin_inv (v : npfloat) (n : nat) (q : R) :
  fdiv v (Fin (INR n)) = Fin q ->
  n <> O /\ exists a, v = Fin a /\ q = a / INR n.
Proof.
  intros H. destruct v as [a | | |]; simpl in H.
  - destruct (Req_EM_T (INR n) 0) as [E | E].
    + exfalso. unfold scale_inf in H.
      destruct (Rlt_dec 0 a); [discriminate |].
      destruct (Rlt_dec a 0); discriminate.
    + split; [intros ->; apply E; reflexivity |].
      exists a. split; [reflexivity | congruence].
  - destruct (Rlt_dec (INR n) 0); discriminate.
  - destruct (Rlt_dec (INR n) 0); discriminate.
  - discriminate.
Qed.

Lemma np_mean_fin_inv (l : list npfloat) (q : R) :
  np_mean l = Fin q ->
  l <> [] /\ Forall is_fin l /\
  q = Rsum_list (map real_part l) / INR (length l).
Proof.
  unfold np_mean. intros H. apply fdiv_count_fin_inv in H.
  destruct H as (Hn & a & Ha & Hq). apply fsum_fin_inv in Ha.
  destruct Ha as [HF Hs]. split; [| split].
  - intros ->. apply Hn. reflexivity.
  - exact HF.
  - subst a. exact Hq.
Qed.

Lemma Rsum_list_nonneg (l : list R) : Forall (fun a => 0 <= a) l -> 0 <= Rsum_list l.
Proof. intros H. induction H as [| a t Ha Ht IH]; simpl; lra. Qed.

(** *** Indexing *)

Lemma map_by_index {A B : Type} (h : A -> B) (l : list A) (d : A) (f : nat -> B) :
  (forall i, (i < length l)%nat -> h (nth i l d) = f i) ->
  map h l = map f (seq 0 (length l)).
Proof.
  intros H. apply (nth_ext _ _ (h d) (f O)).
  - rewrite !length_map, length_seq. reflexivity.
  - intros i Hi. rewrite length_map in Hi.
    rewrite (map_nth h l d i), (map_nth f (seq 0 (length l)) O i).
    rewrite seq_nth by exact Hi. apply H, Hi.
Qed.

Lemma nth_map2 {A B C : Type} (f : A -> B -> C) (l1 : list A) (l2 : list B)
  (i : nat) (d1 : A) (d2 : B) (d : C) :
  (i < length l1)%nat -> (i < length l2)%nat ->
  nth i (map2 f l1 l2) d = f (nth i l1 d1) (nth i l2 d2).
Proof.
  revert l2 i. induction l1 as [| a t IH]; intros [| b t2] i H1 H2; simpl in *;
    try lia.
  destruct i as [| i]; [reflexivity | apply IH; lia].
Qed.

Lemma nth_tl {A : Type} (l : list A) (i : nat) (d : A) :
  nth i (tl l) d = nth (S i) l d.
Proof. destruct l; simpl; [destruct i; reflexivity | reflexivity]. Qed.

Lemma nth_removelast {A : Type} (l : list A) (i : nat) (d : A) :
  (S i < length l)%nat -> nth i (removelast l) d = nth i l d.
Proof.
  revert i. induction l as [| a t IH]; intros i H; simpl in H; [lia |].
  destruct t as [| b t']; [simpl in H; lia |].
  change (removelast (a :: b :: t')) with (a :: removelast (b :: t')).
  destruct i as [| i]; [reflexivity |].
  change (nth i (removelast (b :: t')) d = nth i (b :: t') d).
  apply IH. simpl in *. lia.
Qed.

Lemma length_removelast {A : Type} (l : list A) :
  length (removelast l) = pred (length l).
Proof.
  induction l as [| a t IH]; [reflexivity |].
  destruct t as [| b t']; [reflexivity |].
  change (removelast (a :: b :: t')) with (a :: removelast (b :: t')).
  cbn [length]. cbn [length] in IH. rewrite IH. reflexivity.
Qed.

Lemma nth_row_log_returns (row : list npfloat) (i : nat) :
  (S i < length row)%nat ->
  nth i (row_log_returns row) NaN
  = flog (fdiv (nth (S i) row NaN) (nth i row NaN)).
Proof.
  intros H. unfold row_log_returns.
  rewrite (nth_map2 _ _ _ _ NaN NaN).
  - rewrite nth_tl, nth_removelast by exact H. reflexivity.
  - destruct row; simpl in *; lia.
  - rewrite length_removelast. lia.
Qed.

Lemma np_mean_axis0_length (ncols : nat) (rows : list (list npfloat)) :
  length (np_mean_axis0 ncols rows) = ncols.
Proof. unfold np_mean_axis0. rewrite length_map, length_seq. reflexivity. Qed.

Lemma nth_np_mean_axis0 (ncols : nat) (rows : list (list npfloat)) (i : nat) :
  (i < ncols)%nat ->
  nth i (np_mean_axis0 ncols rows) NaN = np_mean (column i rows).
Proof.
  intros H. unfold np_mean_axis0.
  rewrite (nth_indep _ NaN (np_mean (column O rows)))
    by (rewrite length_map, length_seq; exact H).
  rewrite (map_nth (fun j => np_mean (column j rows)) (seq 0 ncols) O i).
  rewrite seq_nth by exact H. reflexivity.
Qed.

(** *** The objective after the simulation *)

Lemma mse_of_paths_unfold (paths : list (list npfloat)) (hist : list npfloat)
  (num_steps : Z) :
  mse_of_paths paths hist num_steps
  = let L := compared_length num_steps hist in
    let mean := firstn L (expected_log_returns paths num_steps) in
    if any isnan mean || any isinf mean then PInf
    else np_mean (map2 (fun s h => fpow2 (fsub s h)) mean (firstn L hist)).
Proof.
  unfold mse_of_paths, expected_log_returns, compared_length.
  rewrite np_mean_axis0_length. reflexivity.
Qed.

Lemma check_true (l : list npfloat) :
  Exists non_finite l -> any isnan l || any isinf l = true.
Proof.
  intros H. apply Exists_exists in H. destruct H as (v & Hin & [Hv | Hv]).
  - apply orb_true_iff. left. apply existsb_exists. exists v. split; assumption.
  - apply orb_true_iff. right. apply existsb_exists. exists v. split; assumption.
Qed.

Lemma check_false (l : list npfloat) :
  any isnan l || any isinf l = false -> Forall is_fin l.
Proof.
  intros H. apply orb_false_iff in H. destruct H as [Hn Hi].
  apply Forall_forall. intros v Hin.
  destruct v as [a | | |]; [exact I | | |]; exfalso.
  - assert (E : any isinf l = true)
      by (apply existsb_exists; exists PInf; split; [exact Hin | reflexivity]).
    congruence.
  - assert (E : any isinf l = true)
      by (apply existsb_exists; exists NInf; split; [exact Hin | reflexivity]).
    congruence.
  - assert (E : any isnan l = true)
      by (apply existsb_exists; exists NaN; split; [exact Hin | reflexivity]).
    congruence.
Qed.

Lemma check_fin (l : list npfloat) :
  Forall is_fin l -> any isnan l || any isinf l = false.
Proof.
  intros H. apply orb_false_iff. split; unfold any.
  - induction H as [| v t Hv Ht IH]; [reflexivity |].
    simpl. rewrite IH. destruct v; simpl in *; tauto.
  - induction H as [| v t Hv Ht IH]; [reflexivity |].
    simpl. rewrite IH. destruct v; simpl in *; tauto.
Qed.

Lemma Forall_firstn_of {A : Type} (P : A -> Prop) (n : nat) (l : list A) :
  Forall P l -> Forall P (firstn n l).
Proof.
  intros H. revert n. induction H as [| a t Ha Ht IH]; intros [| n]; simpl;
    constructor; auto.
Qed.

Lemma np_mean_nil : np_mean [] = NaN.
Proof.
  unfold np_mean, fsum. simpl. destruct (Req_EM_T 0 0); [| contradiction].
  unfold scale_inf. destruct (Rlt_dec 0 0); [lra | reflexivity].
Qed.

Lemma np_mean_fin (l : list npfloat) :
  Forall is_fin l -> l <> [] ->
  np_mean l = Fin (Rsum_list (map real_part l) / INR (length l)).
Proof.
  intros HF Hl. unfold np_mean. rewrite fsum_fin by exact HF.
  apply fdiv_fin. destruct l as [| a t]; [contradiction |].
  apply not_0_INR. discriminate.
Qed.

(** The squared differences of two finite series have a finite,
    non-negative mean. *)
Lemma squared_error_fin (mean hist : list npfloat) :
  Forall is_fin mean -> Forall is_fin hist ->
  length mean = length hist -> mean <> [] ->
  exists v,
    np_mean (map2 (fun s h => fpow2 (fsub s h)) mean hist) = Fin v /\ 0 <= v.
Proof.
  intros Hm Hh Hlen Hne.
  set (sq := map2 (fun s h => fpow2 (fsub s h)) mean hist).
  assert (Hsq : Forall (fun v => exists a, v = Fin a /\ 0 <= a) sq).
  { unfold sq. eapply map2_Forall; [| exact Hm | exact Hh].
    intros s h Hs Hh'. apply is_fin_inv in Hs, Hh'.
    destruct Hs as [a ->], Hh' as [b ->].
    exists (Rsqr (a + - b)). split; [reflexivity | apply Rle_0_sqr]. }
  assert (Hfin : Forall is_fin sq).
  { eapply Forall_impl; [| exact Hsq]. intros v (a & -> & _). exact I. }
  assert (Hlen_sq : length sq = length mean) by (apply map2_length, Hlen).
  assert (Hsq_ne : sq <> []).
  { intros E. rewrite E in Hlen_sq. destruct mean; [contradiction | discriminate]. }
  rewrite np_mean_fin by assumption.
  eexists. split; [reflexivity |].
  apply Rmult_le_pos.
  - apply Rsum_list_nonneg. apply Forall_map_iff.
    eapply Forall_impl; [| exact Hsq]. intros v (a & -> & Ha). exact Ha.
  - left. apply Rinv_0_lt_compat. apply lt_0_INR.
    destruct sq; [contradiction | simpl; lia].
Qed.


Lemma calculate_mse_inv (params hist : list npfloat) (S0 r : npfloat)
  (num_steps num_simulations : Z) (g g' : rng) (v : npfloat) :
  calculate_mse params hist S0 r num_steps num_simulations g = Ok (v, g') ->
  exists sigma lambda_ mu_J sigma_J paths,
    params = [sigma; lambda_; mu_J; sigma_J] /\
    merton_jump_diffusion_paths S0 r sigma lambda_ mu_J sigma_J
      num_steps num_simulations dt_default g = Ok (paths, g') /\
    v = mse_of_paths paths hist num_steps.
Proof.
  unfold calculate_mse. intros H.
  destruct params as [| sigma [| lambda_ [| mu_J [| sigma_J [| extra rest]]]]];
    try discriminate.
  apply bind_ok in H. destruct H as (paths & g1 & Hp & H).
  unfold ret in H. inversion H; subst.
  exists sigma, lambda_, mu_J, sigma_J, paths. repeat split. exact Hp.
Qed.

Lemma calculate_mse_of_paths (sigma lambda_ mu_J sigma_J : npfloat)
  (hist : list npfloat) (S0 r : npfloat) (num_steps num_simulations : Z)
  (g g' : rng) (paths : list (list npfloat)) :
  merton_jump_diffusion_paths S0 r sigma lambda_ mu_J sigma_J
    num_steps num_simulations dt_default g = Ok (paths, g') ->
  calculate_mse [sigma; lambda_; mu_J; sigma_J] hist S0 r num_steps
    num_simulations g
  = Ok (mse_of_paths paths hist num_steps, g').
Proof.
  intros H. unfold calculate_mse. rewrite (bind_eq _ _ _ _ _ H). reflexivity.
Qed.

(** *** Finite, floored paths give a finite objective *)

Lemma Forall_removelast {A : Type} (P : A -> Prop) (l : list A) :
  Forall P l -> Forall P (removelast l).
Proof.
  intros H. induction H as [| a t Ha Ht IH]; [constructor |].
  destruct t as [| b t']; [constructor |].
  change (removelast (a :: b :: t')) with (a :: removelast (b :: t')).
  constructor; assumption.
Qed.

Lemma Forall_tl {A : Type} (P : A -> Prop) (l : list A) :
  Forall P l -> Forall P (tl l).
Proof. intros H. destruct H; [constructor | assumption]. Qed.

Lemma log_ratio_floored (next prev : npfloat) :
  floored next -> floored prev -> is_fin (flog (fdiv next prev)).
Proof.
  intros (a & -> & Ha) (b & -> & Hb). pose proof price_floor_pos.
  rewrite fdiv_fin by lra.
  rewrite flog_fin by (apply ClosedFormFacts.ratio_pos; lra). exact I.
Qed.

Lemma row_log_returns_fin (row : list npfloat) :
  Forall floored row -> Forall is_fin (row_log_returns row).
Proof.
  intros H. unfold row_log_returns.
  eapply map2_Forall;
    [exact log_ratio_floored | apply Forall_tl, H | apply Forall_removelast, H].
Qed.

Lemma row_log_returns_length (row : list npfloat) :
  length (row_log_returns row) = pred (length row).
Proof.
  unfold row_log_returns. rewrite map2_length.
  - destruct row; reflexivity.
  - rewrite length_removelast. destruct row; reflexivity.
Qed.

Lemma expected_log_returns_fin (paths : list (list npfloat)) (num_steps : Z) :
  shape (length paths) (S (Z.to_nat num_steps)) paths -> paths <> [] ->
  Forall (Forall floored) paths ->
  Forall is_fin (expected_log_returns paths num_steps).
Proof.
  intros [_ Hrows] Hne Hfl. unfold expected_log_returns, np_mean_axis0.
  apply Forall_map_iff, Forall_forall. intros j Hj. apply in_seq in Hj.
  assert (Hcol : Forall is_fin (column j (map row_log_returns paths))).
  { unfold column. rewrite map_map. apply Forall_map_iff, Forall_forall.
    intros row Hrow.
    pose proof (proj1 (Forall_forall _ _) Hrows row Hrow) as Hlen.
    pose proof (proj1 (Forall_forall _ _) Hfl row Hrow) as Hfr.
    apply row_log_returns_fin in Hfr.
    apply (proj1 (Forall_forall _ _) Hfr). apply nth_In.
    rewrite row_log_returns_length, Hlen. simpl. lia. }
  rewrite np_mean_fin; [exact I | exact Hcol |].
  unfold column. destruct paths; [contradiction | discriminate].
Qed.

Lemma mse_of_paths_fin (paths : list (list npfloat)) (hist : list npfloat)
  (num_steps : Z) :
  shape (length paths) (S (Z.to_nat num_steps)) paths -> paths <> [] ->
  Forall (Forall floored) paths -> Forall is_fin hist ->
  (1 <= compared_length num_steps hist)%nat ->
  exists v, mse_of_paths paths hist num_steps = Fin v /\ 0 <= v.
Proof.
  intros Hshape Hne Hfl Hh HL. rewrite mse_of_paths_unfold. cbv zeta.
  set (L := compared_length num_steps hist) in *.
  set (mean := firstn L (expected_log_returns paths num_steps)).
  assert (Hmean : Forall is_fin mean).
  { apply Forall_firstn_of, expected_log_returns_fin; assumption. }
  rewrite (check_fin mean Hmean).
  assert (HlenM : length mean = L).
  { unfold mean. rewrite length_firstn. unfold expected_log_returns.
    rewrite np_mean_axis0_length. unfold L, compared_length. lia. }
  assert (HlenH : length (firstn L hist) = L).
  { rewrite length_firstn. unfold L, compared_length. lia. }
  apply squared_error_fin;
    [exact Hmean | apply Forall_firstn_of, Hh | congruence |].
  intros E. rewrite E in HlenM. simpl in HlenM. lia.
Qed.

(** On finite inputs with a positive jump intensity NumPy accepts, at
    least one path and at least one compared step, the objective returns a
    finite, non-negative number. *)
Lemma calculate_mse_finite (sigma lambda_ mu_J sigma_J S0 r : R)
  (hist : list npfloat) (num_steps num_simulations : Z) (g : rng) :
  0 < lambda_ <= POISSON_LAM_MAX -> 0 <= sigma_J ->
  (1 <= num_simulations)%Z -> Forall is_fin hist ->
  (1 <= compared_length num_steps hist)%nat ->
  exists v g',
    calculate_mse [Fin sigma; Fin lambda_; Fin mu_J; Fin sigma_J] hist
      (Fin S0) (Fin r) num_steps num_simulations g = Ok (Fin v, g') /\ 0 <= v.
Proof.
  intros Hl HJ Hn Hh HL.
  assert (Hsteps : (0 <= num_steps)%Z).
  { unfold compared_length in HL. destruct num_steps; simpl in HL; lia. }
  destruct (merton_total (Fin S0) (Fin r) (Fin sigma) (Fin lambda_) (Fin mu_J)
              (Fin sigma_J) num_steps num_simulations dt_default (lambda_ * 1) g)
    as (paths & g' & Hp); try lia.
  - simpl. destruct (Rlt_dec sigma_J 0); [lra | reflexivity].
  - apply poisson_rate_fin. lra.
  - pose proof (merton_shape _ _ _ _ _ _ _ _ _ _ _ _ Hp) as Hshape.
    pose proof (merton_floored _ _ _ _ _ _ _ _ _ _ _ _ (proj1 Hl) Hp) as Hfl.
    assert (Hlen : length paths = Z.to_nat num_simulations) by exact (proj1 Hshape).
    destruct (mse_of_paths_fin paths hist num_steps) as (v & Hv & Hv0);
      try assumption.
    + rewrite Hlen. exact Hshape.
    + intros E. rewrite E in Hlen. simpl in Hlen. lia.
    + exists v, g'. split; [| exact Hv0].
      rewrite (calculate_mse_of_paths _ _ _ _ _ _ _ _ _ _ _ _ Hp), Hv. reflexivity.
Qed.





(** *** The objective is the mean squared error *)

Lemma scale_inf_not_fin (a : R) (v : npfloat) :
  ~ is_fin v -> ~ is_fin (scale_inf a v).
Proof.
  intros Hv. unfold scale_inf.
  destruct (Rlt_dec 0 a); [exact Hv |].
  destruct (Rlt_dec a 0); [| simpl; tauto].
  destruct v; simpl in *; tauto.
Qed.

Lemma flog_fdiv_fin_inv (next prev : npfloat) (y : R) :
  flog (fdiv next prev) = Fin y ->
  exists a b, next = Fin a /\ prev = Fin b /\ y = ln (a / b).
Proof.
  intros H.
  destruct next as [a | | |], prev as [b | | |]; simpl in H; try discriminate.
  - destruct (Req_EM_T b 0) as [Eb | Eb].
    + exfalso. unfold scale_inf in H.
      destruct (Rlt_dec 0 a); [discriminate |].
      destruct (Rlt_dec a 0); discriminate.
    + simpl in H. destruct (Rlt_dec 0 (a / b)).
      * exists a, b. repeat split. congruence.
      * destruct (Req_EM_T (a / b) 0); discriminate.
  - destruct (Rlt_dec 0 0); [lra |]. destruct (Req_EM_T 0 0); discriminate.
  - destruct (Rlt_dec 0 0); [lra |]. destruct (Req_EM_T 0 0); discriminate.
  - destruct (Rlt_dec b 0); discriminate.
  - destruct (Rlt_dec b 0); discriminate.
Qed.

Lemma squared_difference_fin_inv (m : R) (h : npfloat) (q : R) :
  fpow2 (fsub (Fin m) h) = Fin q ->
  exists b, h = Fin b /\ q = Rsqr (m - b).
Proof.
  intros H. destruct h as [b | | |]; simpl in H; try discriminate.
  exists b. split; [reflexivity |]. inversion H. unfold Rsqr. ring.
Qed.

Lemma nth_firstn_lt {A : Type} (n i : nat) (l : list A) (d : A) :
  (i < n)%nat -> nth i (firstn n l) d = nth i l d.
Proof.
  intros H. rewrite nth_firstn.
  destruct (Nat.ltb_spec i n); [reflexivity | lia].
Qed.

(** The average of column [i] of the simulated log returns, when finite,
    is the average of the paths' log returns over step [i]. *)
Lemma column_mean_fin_inv (paths : list (list npfloat)) (cols i : nat) (M : R) :
  Forall (fun row => length row = S cols) paths -> (i < cols)%nat ->
  np_mean (column i (map row_log_returns paths)) = Fin M ->
  M = average_log_return paths i.
Proof.
  intros Hrows Hi H. apply np_mean_fin_inv in H. destruct H as (_ & HF & ->).
  assert (Hcol : column i (map row_log_returns paths)
                 = map (fun row => nth i (row_log_returns row) NaN) paths)
    by (unfold column; apply map_map).
  rewrite Hcol in *. rewrite length_map.
  unfold average_log_return, rsum. do 2 f_equal.
  rewrite map_map. apply (map_by_index _ paths []).
  intros p Hp.
  assert (Hin : In (nth p paths []) paths) by (apply nth_In, Hp).
  pose proof (proj1 (Forall_forall _ _) Hrows _ Hin) as Hlen.
  apply (proj1 (Forall_map_iff
                  (fun row => nth i (row_log_returns row) NaN) is_fin paths)) in HF.
  pose proof (proj1 (Forall_forall _ _) HF _ Hin) as Hfin. simpl in Hfin.
  cbv beta in Hlen. rewrite nth_row_log_returns in Hfin |- * by lia.
  apply is_fin_inv in Hfin. destruct Hfin as [y Hy]. rewrite Hy.
  apply flog_fdiv_fin_inv in Hy. destruct Hy as (a & b & Ha & Hb & ->).
  unfold simulated_log_return, entry. rewrite Ha, Hb. reflexivity.
Qed.

Lemma mse_of_paths_fin_inv (paths : list (list npfloat)) (hist : list npfloat)
  (num_steps : Z) (v : R) :
  Forall (fun row => length row = S (Z.to_nat num_steps)) paths ->
  mse_of_paths paths hist num_steps = Fin v ->
  v = mean_squared_error paths hist num_steps
  /\ (1 <= compared_length num_steps hist)%nat.
Proof.
  intros Hrows H. rewrite mse_of_paths_unfold in H. cbv zeta in H.
  unfold mean_squared_error. cbv zeta.
  set (L := compared_length num_steps hist) in *.
  set (mean := firstn L (expected_log_returns paths num_steps)) in *.
  destruct (any isnan mean || any isinf mean) eqn:Echeck; [discriminate |].
  apply check_false in Echeck.
  assert (HL1 : (L <= Z.to_nat num_steps)%nat)
    by (unfold L, compared_length; lia).
  assert (HL2 : (L <= length hist)%nat) by (unfold L, compared_length; lia).
  assert (HlenM : length mean = L).
  { unfold mean. rewrite length_firstn. unfold expected_log_returns.
    rewrite np_mean_axis0_length. lia. }
  assert (HlenH : length (firstn L hist) = L) by (rewrite length_firstn; lia).
  set (sq := map2 (fun s h => fpow2 (fsub s h)) mean (firstn L hist)) in *.
  assert (Hlen_sq : length sq = L).
  { unfold sq. rewrite map2_length; congruence. }
  apply np_mean_fin_inv in H. destruct H as (Hne & Hsq & ->).
  split.
  - rewrite Hlen_sq. unfold rsum. do 2 f_equal.
    rewrite <- Hlen_sq. apply (map_by_index _ sq NaN).
    intros i Hi. rewrite Hlen_sq in Hi.
    assert (Hsq_i : is_fin (nth i sq NaN)).
    { apply (proj1 (Forall_forall _ _) Hsq), nth_In. lia. }
    assert (Hm_i : is_fin (nth i mean NaN)).
    { apply (proj1 (Forall_forall _ _) Echeck), nth_In. lia. }
    unfold sq in Hsq_i |- *.
    rewrite (nth_map2 _ _ _ _ NaN NaN) in * by lia.
    apply is_fin_inv in Hm_i. destruct Hm_i as [M HM].
    rewrite HM in *.
    apply is_fin_inv in Hsq_i. destruct Hsq_i as [q Hq]. rewrite Hq.
    apply squared_difference_fin_inv in Hq. destruct Hq as (b & Hb & ->).
    rewrite nth_firstn_lt in Hb by exact Hi. rewrite Hb. simpl real_part.
    unfold mean in HM. rewrite nth_firstn_lt in HM by exact Hi.
    unfold expected_log_returns in HM. rewrite nth_np_mean_axis0 in HM by lia.
    apply (column_mean_fin_inv paths (Z.to_nat num_steps)) in HM;
      [| exact Hrows | lia].
    rewrite HM. reflexivity.
  - destruct sq; [contradiction | simpl in Hlen_sq; lia].
Qed.

(** C9.  Whenever [calculate_mse] returns a finite value, that value is
    the mean squared error between the per-time-step average, over all
    simulated paths, of the simulated log returns and the historical log
    returns, both truncated to the shorter of the two lengths (and at least
    one step is compared). *)
Theorem objective_is_mean_squared_error
  (params hist : list npfloat) (S0 r : npfloat)
  (num_steps num_simulations : Z) (g g' : rng) (v : R) :
  calculate_mse params hist S0 r num_steps num_simulations g = Ok (Fin v, g') ->
  exists sigma lambda_ mu_J sigma_J paths,
    params = [sigma; lambda_; mu_J; sigma_J] /\
    merton_jump_diffusion_paths S0 r sigma lambda_ mu_J sigma_J
      num_steps num_simulations dt_default g = Ok (paths, g') /\
    v = mean_squared_error paths hist num_steps /\
    (1 <= compared_length num_steps hist)%nat.
Proof.
  intros H. apply calculate_mse_inv in H.
  destruct H as (sigma & lambda_ & mu_J & sigma_J & paths & Hparams & Hp & Hv).
  exists sigma, lambda_, mu_J, sigma_J, paths.
  split; [exact Hparams |]. split; [exact Hp |].
  apply mse_of_paths_fin_inv; [| symmetry; exact Hv].
  exact (proj2 (merton_shape _ _ _ _ _ _ _ _ _ _ _ _ Hp)).
Qed.

Lemma objective_is_mean_squared_error_witness :
  exists v g',
    calculate_mse [Fin 0.2; Fin 0.05; Fin 0; Fin 0.02] [Fin 0.01; Fin (-0.02)]
      (Fin 100) (Fin 0.0002) 2 3 rng0 = Ok (Fin v, g')
    /\ exists sigma lambda_ mu_J sigma_J paths,
        [Fin 0.2; Fin 0.05; Fin 0; Fin 0.02] = [sigma; lambda_; mu_J; sigma_J] /\
        merton_jump_diffusion_paths (Fin 100) (Fin 0.0002) sigma lambda_ mu_J
          sigma_J 2 3 dt_default rng0 = Ok (paths, g') /\
        v = mean_squared_error paths [Fin 0.01; Fin (-0.02)] 2 /\
        (1 <= compared_length 2 [Fin 0.01; Fin (-0.02)])%nat.
Proof.
  destruct (calculate_mse_finite 0.2 0.05 0 0.02 100 0.0002
              [Fin 0.01; Fin (-0.02)] 2 3 rng0) as (v & g' & H & _).
  - pose proof POISSON_LAM_MAX_large. lra.
  - lra.
  - lia.
  - repeat constructor.
  - apply Nat.leb_le. reflexivity.
  - exists v, g'. split; [exact H |].
    exact (objective_is_mean_squared_error _ _ _ _ _ _ _ _ _ H).
Defined.

(** * Further properties *)

(** ** The helper functions *)

Lemma compute_log_returns_ratios (prices : list npfloat) :
  compute_log_returns prices
  = filter (fun v => negb (isnan v)) (row_log_returns prices).
Proof.
  unfold compute_log_returns, row_log_returns, shift1.
  destruct prices as [| p t]; [reflexivity |].
  cbn [map2 tl].
  replace (flog (fdiv p NaN)) with NaN by (destruct p; reflexivity).
  reflexivity.
Qed.

Lemma positive_ratio (next prev : npfloat) :
  (exists a, next = Fin a /\ 0 < a) -> (exists b, prev = Fin b /\ 0 < b) ->
  flog (fdiv next prev) = Fin (ln (real_part next / real_part prev)).
Proof.
  intros (a & -> & Ha) (b & -> & Hb). cbn [real_part].
  rewrite fdiv_fin by lra. apply flog_fin. now apply Rdiv_lt_0_compat.
Qed.

Lemma row_log_returns_cons (p q : npfloat) (t : list npfloat) :
  row_log_returns (p :: q :: t) = flog (fdiv q p) :: row_log_returns (q :: t).
Proof. reflexivity. Qed.

Lemma row_log_returns_positive (prices : list npfloat) :
  positive_prices prices ->
  Forall is_fin (row_log_returns prices).
Proof.
  unfold positive_prices.
  induction prices as [| p t IH]; intros H; [constructor |].
  destruct t as [| q t]; [constructor |].
  rewrite row_log_returns_cons.
  inversion H as [| ? ? Hp Ht]; subst. inversion Ht as [| ? ? Hq _]; subst.
  constructor; [| now apply IH].
  rewrite positive_ratio by assumption. exact I.
Qed.

Lemma filter_fin (l : list npfloat) :
  Forall is_fin l -> filter (fun v => negb (isnan v)) l = l.
Proof.
  induction 1 as [| v l Hv _ IH]; [reflexivity |].
  cbn [filter]. destruct v; try contradiction. cbn. now rewrite IH.
Qed.

Lemma compute_log_returns_positive (prices : list npfloat) :
  positive_prices prices -> compute_log_returns prices = row_log_returns prices.
Proof.
  intros H. rewrite compute_log_returns_ratios.
  apply filter_fin, row_log_returns_positive, H.
Qed.

Lemma positive_prices_nth (prices : list npfloat) (i : nat) :
  positive_prices prices -> (i < length prices)%nat ->
  exists a, nth i prices NaN = Fin a /\ 0 < a.
Proof.
  intros H Hi. unfold positive_prices in H. rewrite Forall_forall in H.
  apply H, nth_In, Hi.
Qed.

(** X1. For a series of positive prices [compute_log_returns] returns one
    entry fewer than the series has, and entry [i] is the logarithm of the
    ratio of price [i + 1] to price [i]. *)
Theorem log_returns_of_positive_prices (prices : list npfloat) :
  positive_prices prices ->
  length (compute_log_returns prices) = pred (length prices) /\
  forall i, (S i < length prices)%nat ->
    nth i (compute_log_returns prices) NaN
    = Fin (ln (real_part (nth (S i) prices NaN) / real_part (nth i prices NaN))).
Proof.
  intros H. rewrite compute_log_returns_positive by exact H. split.
  - apply row_log_returns_length.
  - intros i Hi. rewrite nth_row_log_returns by exact Hi.
    apply positive_ratio; apply positive_prices_nth; try exact H; lia.
Qed.

Lemma log_returns_of_positive_prices_witness :
  length (compute_log_returns [Fin 100; Fin 110; Fin 99]) = pred 3 /\
  forall i, (S i < 3)%nat ->
    nth i (compute_log_returns [Fin 100; Fin 110; Fin 99]) NaN
    = Fin (ln (real_part (nth (S i) [Fin 100; Fin 110; Fin 99] NaN)
               / real_part (nth i [Fin 100; Fin 110; Fin 99] NaN))).
Proof.
  apply (log_returns_of_positive_prices [Fin 100; Fin 110; Fin 99]).
  repeat constructor; eexists; (split; [reflexivity | lra]).
Defined.

Lemma filter_length_le {A : Type} (f : A -> bool) (l : list A) :
  (length (filter f l) <= length l)%nat.
Proof.
  induction l as [| a l IH]; [apply Nat.le_refl |].
  cbn [filter]. destruct (f a); cbn [length]; lia.
Qed.

(** X2. Whatever the price series holds (missing, zero or negative prices
    included), the series [compute_log_returns] returns holds no NaN and
    has at most one entry fewer than the prices. *)
Theorem log_returns_hold_no_nan (prices : list npfloat) :
  Forall (fun v => isnan v = false) (compute_log_returns prices) /\
  (length (compute_log_returns prices) <= pred (length prices))%nat.
Proof.
  rewrite compute_log_returns_ratios. split.
  - apply Forall_forall. intros v Hv. apply filter_In in Hv.
    destruct Hv as [_ Hv]. now apply negb_true_iff in Hv.
  - rewrite <- row_log_returns_length. apply filter_length_le.
Qed.

Lemma cumsum_from_zero (l : list npfloat) :
  Forall is_fin l -> cumsum l = cumsum_from (Fin 0) l.
Proof.
  intros H. destruct H as [| v l Hv _]; [reflexivity |].
  destruct v as [a | | |]; try contradiction.
  cbn [cumsum cumsum_from fadd].
  replace (0 + a) with a by lra. reflexivity.
Qed.

Lemma rebuild_from (p0 : R) (prev : npfloat) (rest : list npfloat) (acc : R) :
  0 < p0 -> positive_prices (prev :: rest) ->
  prev = Fin (p0 * exp acc) ->
  map (fun c => fmul (Fin p0) (fexp c))
    (cumsum_from (Fin acc) (row_log_returns (prev :: rest))) = rest.
Proof.
  intros Hp0. revert prev acc.
  induction rest as [| q rest IH]; intros prev acc Hpos Hprev; [reflexivity |].
  rewrite row_log_returns_cons.
  inversion Hpos as [| ? ? Hp Hrest]; subst.
  inversion Hrest as [| ? ? Hq _]; subst.
  destruct Hq as (b & -> & Hb).
  rewrite fdiv_fin by (pose proof (exp_pos acc); nra).
  rewrite flog_fin
    by (apply Rdiv_lt_0_compat; [lra | pose proof (exp_pos acc); nra]).
  cbn [cumsum_from fadd map fexp fmul].
  assert (E : p0 * exp (acc + ln (b / (p0 * exp acc))) = b).
  { rewrite exp_plus, exp_ln.
    - field. split; [pose proof (exp_pos acc); lra | lra].
    - apply Rdiv_lt_0_compat; [lra | pose proof (exp_pos acc); nra]. }
  rewrite E. f_equal.
  apply IH; [exact Hrest | now rewrite E].
Qed.

(** X3. Round trip with the simulator's path construction: for positive
    prices, the first price times the exponential of the running sum of
    the log returns gives back the prices after the first. *)
Theorem prices_rebuilt_from_log_returns (p0 : R) (rest : list npfloat) :
  positive_prices (Fin p0 :: rest) ->
  map (fun c => fmul (Fin p0) (fexp c))
    (cumsum (compute_log_returns (Fin p0 :: rest))) = rest.
Proof.
  intros H. rewrite compute_log_returns_positive by exact H.
  rewrite cumsum_from_zero by (apply row_log_returns_positive, H).
  assert (Hp0 : 0 < p0).
  { inversion H as [| ? ? (a & Ea & Ha) _]; subst. now inversion Ea; subst. }
  apply rebuild_from; [exact Hp0 | exact H |].
  rewrite exp_0. f_equal. lra.
Qed.

Lemma prices_rebuilt_from_log_returns_witness :
  map (fun c => fmul (Fin 100) (fexp c))
    (cumsum (compute_log_returns [Fin 100; Fin 110; Fin 99])) = [Fin 110; Fin 99].
Proof.
  apply (prices_rebuilt_from_log_returns 100 [Fin 110; Fin 99]).
  repeat constructor; eexists; (split; [reflexivity | lra]).
Defined.

(** X4. The script calibrates with [num_steps = len(prices) - 1]: for
    positive prices the log returns fill the comparison of [calculate_mse]
    exactly, no step of either series is cut off. *)
Theorem log_returns_fill_the_comparison (prices : list npfloat) :
  positive_prices prices ->
  compared_length (Z.of_nat (length prices) - 1) (compute_log_returns prices)
  = pred (length prices)
  /\ length (compute_log_returns prices)
     = Z.to_nat (Z.of_nat (length prices) - 1).
Proof.
  intros H. unfold compared_length.
  rewrite compute_log_returns_positive by exact H.
  rewrite row_log_returns_length. lia.
Qed.

Lemma log_returns_fill_the_comparison_witness :
  compared_length (Z.of_nat (length [Fin 100; Fin 110; Fin 99]) - 1)
    (compute_log_returns [Fin 100; Fin 110; Fin 99])
  = pred (length [Fin 100; Fin 110; Fin 99])
  /\ length (compute_log_returns [Fin 100; Fin 110; Fin 99])
     = Z.to_nat (Z.of_nat (length [Fin 100; Fin 110; Fin 99]) - 1).
Proof.
  apply (log_returns_fill_the_comparison [Fin 100; Fin 110; Fin 99]).
  repeat constructor; eexists; (split; [reflexivity | lra]).
Defined.

(** *** Jump identification *)

Lemma fltb_nan_l (v : npfloat) : fltb NaN v = false.
Proof. reflexivity. Qed.

Lemma fltb_nan_r (v : npfloat) : fltb v NaN = false.
Proof. destruct v; reflexivity. Qed.

Lemma fmul_nan_r (v : npfloat) : fmul v NaN = NaN.
Proof. destruct v; reflexivity. Qed.

Lemma identify_jumps_nan_threshold (log_returns : list npfloat) (k : npfloat) :
  series_std log_returns = NaN ->
  identify_jumps log_returns k = map (fun _ => false) log_returns.
Proof.
  intros H. unfold identify_jumps. rewrite H, fmul_nan_r.
  apply map_ext. intros v. apply fltb_nan_l.
Qed.

(** X5. The mask [identify_jumps] returns has one entry per log return,
    and a NaN entry is never marked as a jump. *)
Theorem jump_mask_shape (log_returns : list npfloat) (k : npfloat) :
  length (identify_jumps log_returns k) = length log_returns /\
  forall i, nth i log_returns (Fin 0) = NaN ->
            nth i (identify_jumps log_returns k) false = false.
Proof.
  unfold identify_jumps. split; [apply length_map |].
  intros i Hi.
  destruct (Nat.lt_ge_cases i (length log_returns)) as [Hlt | Hge].
  - rewrite (nth_indep _ false (fltb (fmul k (series_std log_returns)) (fabs (Fin 0))))
      by (rewrite length_map; exact Hlt).
    rewrite (map_nth (fun v => fltb (fmul k (series_std log_returns)) (fabs v))).
    rewrite Hi. apply fltb_nan_r.
  - apply nth_overflow. rewrite length_map. exact Hge.
Qed.

(** X6. With fewer than two log returns that are not NaN the standard
    deviation is NaN, the threshold is NaN, and no entry is marked as a
    jump, whatever the multiple. *)
Theorem no_jump_without_two_returns (log_returns : list npfloat) (k : npfloat) :
  (length (filter (fun v => negb (isnan v)) log_returns) <= 1)%nat ->
  Forall (fun b => b = false) (identify_jumps log_returns k).
Proof.
  intros H. rewrite identify_jumps_nan_threshold.
  - apply Forall_forall. intros b Hb. apply in_map_iff in Hb.
    now destruct Hb as (_ & <- & _).
  - unfold series_std. apply Nat.leb_le in H. now rewrite H.
Qed.

Lemma no_jump_without_two_returns_witness :
  Forall (fun b => b = false) (identify_jumps [Fin 0.5] jump_threshold_default).
Proof.
  apply (no_jump_without_two_returns [Fin 0.5] jump_threshold_default).
  apply Nat.leb_le. reflexivity.
Defined.

Lemma series_std_range (values : list npfloat) :
  series_std values = NaN \/ series_std values = PInf \/
  exists s, series_std values = Fin s /\ 0 <= s.
Proof.
  unfold series_std.
  destruct (length (filter (fun v => negb (isnan v)) values) <=? 1)%nat;
    [now left |].
  cbv zeta.
  match goal with |- context [fsqrt ?v] => destruct v as [a | | |] end;
    cbn [fsqrt]; auto.
  destruct (Rle_dec 0 a); auto.
  right; right. eexists; split; [reflexivity | apply sqrt_pos].
Qed.

(** X7. With a non-negative multiple, a log return equal to 0 is never
    marked as a jump: the threshold is a non-negative number, infinite or
    NaN. *)
Theorem zero_return_is_no_jump (log_returns : list npfloat) (k : R) (i : nat) :
  0 <= k -> nth i log_returns NaN = Fin 0 ->
  nth i (identify_jumps log_returns (Fin k)) false = false.
Proof.
  intros Hk Hi. unfold identify_jumps.
  destruct (Nat.lt_ge_cases i (length log_returns)) as [Hlt | Hge].
  - rewrite (nth_indep _ false (fltb (fmul (Fin k) (series_std log_returns)) (fabs NaN)))
      by (rewrite length_map; exact Hlt).
    rewrite (map_nth (fun v => fltb (fmul (Fin k) (series_std log_returns)) (fabs v))).
    rewrite Hi. cbn [fabs]. rewrite Rabs_R0.
    destruct (series_std_range log_returns) as [E | [E | (s & E & Hs)]];
      rewrite E; cbn [fmul].
    + reflexivity.
    + unfold scale_inf. destruct (Rlt_dec 0 k); [reflexivity |].
      destruct (Rlt_dec k 0); [lra | reflexivity].
    + apply fltb_fin_false. nra.
  - apply nth_overflow. rewrite length_map. exact Hge.
Qed.

Lemma zero_return_is_no_jump_witness :
  nth 1 (identify_jumps [Fin 0.5; Fin 0; Fin (-0.5)] (Fin 2)) false = false.
Proof.
  apply (zero_return_is_no_jump [Fin 0.5; Fin 0; Fin (-0.5)] 2 1);
    [lra | reflexivity].
Defined.

Lemma fold_fadd_nan (l : list npfloat) : fold_left fadd l NaN = NaN.
Proof. induction l as [| v l IH]; [reflexivity | exact IH]. Qed.

Lemma fadd_nan_r (v : npfloat) : fadd v NaN = NaN.
Proof. destruct v; reflexivity. Qed.

Lemma fold_fadd_with_nan (l : list npfloat) (acc : npfloat) :
  In NaN l -> fold_left fadd l acc = NaN.
Proof.
  revert acc. induction l as [| v l IH]; intros acc H; [contradiction |].
  destruct H as [-> | H]; cbn [fold_left].
  - rewrite fadd_nan_r. apply fold_fadd_nan.
  - now apply IH.
Qed.

Lemma fold_fadd_pinf (l : list npfloat) (acc : npfloat) :
  fold_left fadd l acc = PInf -> acc = PInf \/ In PInf l.
Proof.
  revert acc. induction l as [| v l IH]; intros acc H; [now left |].
  cbn [fold_left] in H. apply IH in H. destruct H as [H | H].
  - destruct acc, v; cbn in H; try discriminate; auto; right; now left.
  - right. now right.
Qed.

Lemma fold_fadd_ninf (l : list npfloat) (acc : npfloat) :
  fold_left fadd l acc = NInf -> acc = NInf \/ In NInf l.
Proof.
  revert acc. induction l as [| v l IH]; intros acc H; [now left |].
  cbn [fold_left] in H. apply IH in H. destruct H as [H | H].
  - destruct acc, v; cbn in H; try discriminate; auto; right; now left.
  - right. now right.
Qed.

Lemma series_std_infinite (values : list npfloat) :
  Exists (fun v => isinf v = true) values -> series_std values = NaN.
Proof.
  intros H. unfold series_std.
  set (count := length (filter (fun v => negb (isnan v)) values)).
  destruct (count <=? 1)%nat eqn:Hc; [reflexivity |].
  apply Nat.leb_gt in Hc. cbv zeta.
  set (zeroed := map (fun v => if isnan v then Fin 0 else v) values).
  set (avg := fdiv (fsum zeroed) (Fin (INR count))).
  apply Exists_exists in H. destruct H as (w & Hw & Hinf).
  assert (Hcount : 0 < INR count) by (apply lt_0_INR; lia).
  assert (Hz : forall v, isinf v = true -> In v zeroed -> In v values).
  { intros v Hv Hin. apply in_map_iff in Hin. destruct Hin as (u & Eu & Hu).
    destruct u; cbn in Eu; subst; try discriminate; exact Hu. }
  assert (Hbad : exists v, In v values /\ fpow2 (fsub avg v) = NaN /\ isnan v = false).
  { destruct (fsum zeroed) as [s | | |] eqn:Es.
    - apply fsum_fin_inv in Es. destruct Es as [Hfin _].
      rewrite Forall_forall in Hfin.
      assert (Hwz : In w zeroed).
      { apply in_map_iff. exists w. split; [| exact Hw].
        destruct w; try discriminate; reflexivity. }
      apply Hfin in Hwz. destruct w; try discriminate; contradiction.
    - apply fold_fadd_pinf in Es. destruct Es as [Es | Es]; [discriminate |].
      exists PInf. split; [now apply Hz |].
      subst avg. cbn [fdiv]. destruct (Rlt_dec (INR count) 0); [lra |].
      split; reflexivity.
    - apply fold_fadd_ninf in Es. destruct Es as [Es | Es]; [discriminate |].
      exists NInf. split; [now apply Hz |].
      subst avg. cbn [fdiv]. destruct (Rlt_dec (INR count) 0); [lra |].
      split; reflexivity.
    - exists w. split; [exact Hw |]. subst avg. cbn [fdiv].
      split; [reflexivity | destruct w; try discriminate; reflexivity]. }
  destruct Hbad as (v & Hv & Hsq & Hnan).
  assert (Es : fsum (map (fun v => if isnan v then Fin 0 else fpow2 (fsub avg v)) values)
               = NaN).
  { apply fold_fadd_with_nan. apply in_map_iff. exists v.
    split; [| exact Hv]. now rewrite Hnan. }
  rewrite Es. reflexivity.
Qed.

(** X8. One infinite log return (a zero price in the series produces one)
    switches the detection off: the standard deviation is NaN and no entry
    is marked as a jump, the infinite one included. *)
Theorem infinite_return_marks_no_jump (log_returns : list npfloat) (k : npfloat) :
  Exists (fun v => isinf v = true) log_returns ->
  Forall (fun b => b = false) (identify_jumps log_returns k).
Proof.
  intros H. rewrite identify_jumps_nan_threshold by now apply series_std_infinite.
  apply Forall_forall. intros b Hb. apply in_map_iff in Hb.
  now destruct Hb as (_ & <- & _).
Qed.

Lemma infinite_return_marks_no_jump_witness :
  Forall (fun b => b = false)
    (identify_jumps [Fin 0.01; NInf; PInf; Fin 0.02] jump_threshold_default).
Proof.
  apply (infinite_return_marks_no_jump [Fin 0.01; NInf; PInf; Fin 0.02]
           jump_threshold_default).
  apply Exists_cons_tl, Exists_cons_hd. reflexivity.
Defined.

(** ** The simulator *)

Lemma literal_rate_ok (lam : R) :
  0 <= lam <= 1000000 -> poisson_rate (fmul (Fin lam) dt_default) = Some (lam * 1).
Proof.
  intros H. apply poisson_rate_fin. pose proof POISSON_LAM_MAX_large. lra.
Qed.

(** X9. Whenever [merton_jump_diffusion_paths] returns, the array has the
    documented shape: [num_simulations] rows of [num_steps + 1] entries,
    and both counts are non-negative. *)
Theorem paths_have_documented_shape (S0 r sigma lambda_ mu_J sigma_J : npfloat)
  (num_steps num_simulations : Z) (dt : npfloat) (g g' : rng)
  (paths : list (list npfloat)) :
  merton_jump_diffusion_paths S0 r sigma lambda_ mu_J sigma_J
    num_steps num_simulations dt g = Ok (paths, g') ->
  length paths = Z.to_nat num_simulations /\
  Forall (fun row => length row = Z.to_nat (num_steps + 1)) paths /\
  (0 <= num_simulations)%Z /\ (0 <= num_steps)%Z.
Proof.
  intros H. pose proof (merton_shape _ _ _ _ _ _ _ _ _ _ _ _ H) as [Hrows Hcols].
  apply merton_inv in H. destruct H as (Hsim & Hsteps & _).
  repeat split; try assumption.
  replace (Z.to_nat (num_steps + 1)) with (S (Z.to_nat num_steps)) by lia.
  exact Hcols.
Qed.

Lemma paths_have_documented_shape_witness :
  exists paths g',
    merton_jump_diffusion_paths (Fin 100) (Fin 0.0002) (Fin 0.2) (Fin 0.05)
      (Fin 0) (Fin 0.02) 2 3 dt_default rng0 = Ok (paths, g') /\
    length paths = Z.to_nat 3 /\
    Forall (fun row => length row = Z.to_nat (2 + 1)) paths /\
    (0 <= 3)%Z /\ (0 <= 2)%Z.
Proof.
  destruct (merton_total (Fin 100) (Fin 0.0002) (Fin 0.2) (Fin 0.05) (Fin 0)
              (Fin 0.02) 2 3 dt_default (0.05 * 1) rng0) as (paths & g' & H).
  - lia.
  - lia.
  - cbn. destruct (Rlt_dec 0.02 0); [lra | reflexivity].
  - apply literal_rate_ok. lra.
  - exists paths, g'. split; [exact H |].
    exact (paths_have_documented_shape _ _ _ _ _ _ _ _ _ _ _ _ H).
Defined.

(** X10. [merton_jump_diffusion_paths] returns exactly when both counts
    are non-negative, the jump volatility is not negative and the Poisson
    rate [lambda_ * dt] is one NumPy accepts; the state of the random
    source plays no part. *)
Theorem simulator_returns_iff (S0 r sigma lambda_ mu_J sigma_J : npfloat)
  (num_steps num_simulations : Z) (dt : npfloat) (g : rng) :
  (exists paths g',
      merton_jump_diffusion_paths S0 r sigma lambda_ mu_J sigma_J
        num_steps num_simulations dt g = Ok (paths, g'))
  <-> ((0 <= num_simulations)%Z /\ (0 <= num_steps)%Z /\
       negative sigma_J = false /\ poisson_rate (fmul lambda_ dt) <> None).
Proof.
  split.
  - intros (paths & g' & H). apply merton_inv in H.
    destruct H as (Hsim & Hsteps & Hneg & l & _ & _ & _ & _ & _ & Hl & _).
    repeat split; try assumption. now rewrite Hl.
  - intros (Hsim & Hsteps & Hneg & Hl).
    destruct (poisson_rate (fmul lambda_ dt)) as [l |] eqn:El; [| contradiction].
    now apply (merton_total _ _ _ _ _ _ _ _ _ l).
Qed.

(** X11. When [merton_jump_diffusion_paths] fails it fails with ValueError
    or IndexError, and with IndexError exactly when [num_steps] is -1 and
    the number of simulations is not negative (the array then has no
    column 0 to assign). *)
Theorem simulator_error_kinds (S0 r sigma lambda_ mu_J sigma_J : npfloat)
  (num_steps num_simulations : Z) (dt : npfloat) (g : rng) (e : exn) :
  merton_jump_diffusion_paths S0 r sigma lambda_ mu_J sigma_J
    num_steps num_simulations dt g = Raise e ->
  (e = ValueError \/ e = IndexError) /\
  (e = IndexError <-> (num_steps = -1 /\ 0 <= num_simulations)%Z).
Proof.
  intros H. destruct (Z.le_gt_cases 0 num_steps) as [Hs | Hs].
  - apply merton_raise in H; [| exact Hs]. subst e.
    split; [now left |]. split; [discriminate | lia].
  - unfold merton_jump_diffusion_paths in H.
    destruct ((num_simulations <? 0) || (num_steps + 1 <? 0))%Z eqn:E1.
    + inversion H; subst. split; [now left |].
      split; [discriminate |]. intros [-> Hn].
      apply orb_true_iff in E1. destruct E1 as [E1 | E1]; lia.
    + apply orb_false_iff in E1. destruct E1 as [E1 E2].
      destruct (num_steps + 1 =? 0)%Z eqn:E3; [| lia].
      inversion H; subst. split; [now right |].
      split; [lia | reflexivity].
Qed.

Lemma simulator_error_kinds_witness :
  (IndexError = ValueError \/ IndexError = IndexError) /\
  (IndexError = IndexError <-> (-1 = -1 /\ 0 <= 3)%Z).
Proof.
  apply (simulator_error_kinds (Fin 100) (Fin 0.0002) (Fin 0.2) (Fin 0.05)
           (Fin 0) (Fin 0.02) (-1) 3 dt_default rng0 IndexError).
  reflexivity.
Defined.

Lemma fadd_zero_r (v : npfloat) : fadd v (Fin 0) = v.
Proof. destruct v as [a | | |]; try reflexivity. cbn. f_equal. lra. Qed.

Lemma map2_fadd_zeros (l z : list npfloat) :
  length z = length l -> Forall (fun v => v = Fin 0) z -> map2 fadd l z = l.
Proof.
  revert z. induction l as [| a l IH]; intros z Hlen Hz; [reflexivity |].
  destruct z as [| b z]; [discriminate |].
  inversion Hz; subst. cbn [map2]. rewrite fadd_zero_r. f_equal.
  apply IH; [cbn in Hlen; lia | assumption].
Qed.

Lemma mat_map2_fadd_zeros (rows cols : nat) (A Z0 : list (list npfloat)) :
  shape rows cols A -> shape rows cols Z0 ->
  Forall (Forall (fun v => v = Fin 0)) Z0 -> mat_map2 fadd A Z0 = A.
Proof.
  unfold shape, mat_map2. revert rows Z0.
  induction A as [| a A IH]; intros rows Z0 [HA HAc] [HZ HZc] Hz; [reflexivity |].
  destruct Z0 as [| z Z0]; [cbn in *; lia |].
  inversion HAc; subst. inversion HZc; subst. inversion Hz; subst.
  cbn [map2]. f_equal.
  - apply map2_fadd_zeros; [congruence | assumption].
  - apply (IH (length A)); [now split | split; [cbn in *; lia | assumption] | assumption].
Qed.

Lemma poisson_draw_zero_rate (l : R) (g g' : rng) (n : nat) :
  l = 0 -> poisson_draw l g = Ok (n, g') -> n = O.
Proof.
  intros -> H. rewrite poisson_draw_zero in H. now inversion H.
Qed.

Lemma paths_of_draws_no_jumps (S0 r sigma mu_J sigma_J dt : R) (rows cols : nat)
  (dW : list (list npfloat)) (N_t : list (list nat)) (Js : list (list npfloat)) :
  shape rows cols dW -> shape rows cols N_t -> shape rows cols Js ->
  Forall (Forall is_fin) Js -> Forall (Forall (fun n => n = O)) N_t ->
  paths_of_draws (Fin S0) (Fin r) (Fin sigma) (Fin 0) (Fin mu_J) (Fin sigma_J)
    (Fin dt) dW N_t Js
  = diffusion_paths S0 r sigma dt dW.
Proof.
  intros HdW HN HJ HJfin HN0. unfold paths_of_draws, diffusion_paths. cbv zeta.
  f_equal. f_equal.
  rewrite (mat_map2_fadd_zeros rows cols).
  - unfold mat_map. apply map_ext. intros row. apply map_ext. intros w.
    f_equal. cbn. f_equal. lra.
  - now apply shape_mat_map.
  - now apply shape_mat_map2.
  - apply (mat_map2_Forall _ is_fin (fun n => n = O)); try assumption.
    intros a b Ha ->. destruct a; try contradiction. cbn. f_equal. lra.
Qed.

(** X12. With jump intensity 0 the simulator is a plain geometric Brownian
    motion: the array it returns is built from the Brownian increments
    alone, the first batch of draws, with log returns
    (r - sigma^2 / 2) dt + sigma dW; the jump mean and the jump volatility
    have no influence on it. *)
Theorem simulator_without_jumps_is_diffusion
  (S0 r sigma mu_J sigma_J dt : R) (num_steps num_simulations : Z)
  (g g' : rng) (paths : list (list npfloat)) :
  merton_jump_diffusion_paths (Fin S0) (Fin r) (Fin sigma) (Fin 0) (Fin mu_J)
    (Fin sigma_J) num_steps num_simulations (Fin dt) g = Ok (paths, g') ->
  exists dW g1,
    draw_matrix (normal_draw (Fin 0) (fsqrt (Fin dt)))
      (Z.to_nat num_simulations) (Z.to_nat num_steps) g = Ok (dW, g1) /\
    paths = diffusion_paths S0 r sigma dt dW.
Proof.
  intros H. apply merton_inv in H.
  destruct H as (_ & _ & _ & l & dW & N_t & Js & g1 & g2 & Hl & HdW & HN & HJ & ->).
  exists dW, g1. split; [exact HdW |].
  apply poisson_rate_some in Hl. destruct Hl as [Hl _].
  cbn [fmul] in Hl. inversion Hl as [El].
  apply (paths_of_draws_no_jumps _ _ _ _ _ _
           (Z.to_nat num_simulations) (Z.to_nat num_steps)).
  - exact (draw_matrix_shape _ _ _ _ _ _ HdW).
  - exact (draw_matrix_shape _ _ _ _ _ _ HN).
  - exact (draw_matrix_shape _ _ _ _ _ _ HJ).
  - exact (draw_matrix_normal_fin _ _ _ _ _ _ _ HJ).
  - pose proof (draw_matrix_post (poisson_draw l) (fun n => n = O)) as P.
    assert (Hz : forall g0 a g0', poisson_draw l g0 = Ok (a, g0') -> a = O).
    { intros g0 a g0'. apply poisson_draw_zero_rate. lra. }
    destruct (P Hz _ _ _ _ _ HN) as [HF _].
    eapply Forall_impl; [| exact HF]. intros row [Hrow _]. exact Hrow.
Qed.

Lemma simulator_without_jumps_is_diffusion_witness :
  exists paths g',
    merton_jump_diffusion_paths (Fin 100) (Fin 0.0002) (Fin 0.2) (Fin 0) (Fin 0.1)
      (Fin 0.02) 2 3 (Fin 1) rng0 = Ok (paths, g') /\
    exists dW g1,
      draw_matrix (normal_draw (Fin 0) (fsqrt (Fin 1))) (Z.to_nat 3) (Z.to_nat 2) rng0
      = Ok (dW, g1) /\
      paths = diffusion_paths 100 0.0002 0.2 1 dW.
Proof.
  destruct (merton_total (Fin 100) (Fin 0.0002) (Fin 0.2) (Fin 0) (Fin 0.1)
              (Fin 0.02) 2 3 (Fin 1) (0 * 1) rng0) as (paths & g' & H).
  - lia.
  - lia.
  - cbn. destruct (Rlt_dec 0.02 0); [lra | reflexivity].
  - apply literal_rate_ok. lra.
  - exists paths, g'. split; [exact H |].
    exact (simulator_without_jumps_is_diffusion _ _ _ _ _ _ _ _ _ _ _ H).
Defined.

(** ** The calibration objective *)

Lemma mse_of_paths_truncates (paths : list (list npfloat)) (hist : list npfloat)
  (num_steps : Z) :
  mse_of_paths paths (firstn (Z.to_nat num_steps) hist) num_steps
  = mse_of_paths paths hist num_steps.
Proof.
  rewrite !mse_of_paths_unfold. cbv zeta.
  assert (E : compared_length num_steps (firstn (Z.to_nat num_steps) hist)
              = compared_length num_steps hist).
  { unfold compared_length. rewrite length_firstn. lia. }
  rewrite E. rewrite firstn_firstn.
  replace (Nat.min (compared_length num_steps hist) (Z.to_nat num_steps))
    with (compared_length num_steps hist) by (unfold compared_length; lia).
  reflexivity.
Qed.

(** X13. [calculate_mse] reads the historical series up to [num_steps]
    entries only: cutting the series to its first [num_steps] entries
    changes neither the value nor the error nor the draws. *)
Theorem objective_ignores_later_history (params hist : list npfloat)
  (S0 r : npfloat) (num_steps num_simulations : Z) (g : rng) :
  calculate_mse params (firstn (Z.to_nat num_steps) hist) S0 r num_steps
    num_simulations g
  = calculate_mse params hist S0 r num_steps num_simulations g.
Proof.
  unfold calculate_mse.
  destruct params as [| sigma [| lambda_ [| mu_J [| sigma_J [| ? ?]]]]];
    try reflexivity.
  unfold bind.
  destruct (merton_jump_diffusion_paths S0 r sigma lambda_ mu_J sigma_J
              num_steps num_simulations dt_default g) as [[paths g'] | e];
    [| reflexivity].
  unfold ret. now rewrite mse_of_paths_truncates.
Qed.

Lemma mse_of_paths_nothing_compared (paths : list (list npfloat))
  (hist : list npfloat) (num_steps : Z) :
  compared_length num_steps hist = O -> mse_of_paths paths hist num_steps = NaN.
Proof.
  intros H. rewrite mse_of_paths_unfold. cbv zeta. rewrite H.
  cbn [firstn any existsb orb map2]. apply np_mean_nil.
Qed.

Lemma mse_of_paths_no_paths (hist : list npfloat) (num_steps : Z) :
  (1 <= compared_length num_steps hist)%nat -> mse_of_paths [] hist num_steps = PInf.
Proof.
  intros H. rewrite mse_of_paths_unfold. cbv zeta.
  rewrite check_true; [reflexivity |].
  unfold expected_log_returns, np_mean_axis0, compared_length in *.
  destruct (Z.to_nat num_steps) as [| n]; [lia |].
  destruct (Nat.min (S n) (length hist)) as [| L]; [lia |].
  cbn [seq map firstn column]. apply Exists_cons_hd.
  left. rewrite np_mean_nil. reflexivity.
Qed.

(** X14. The two degenerate comparisons of [calculate_mse], for every
    parameter vector the simulator accepts: when no step is compared (an
    empty historical series or [num_steps = 0]) the value is NaN, and when
    no path is simulated but a step is compared the value is the sentinel
    +inf. *)
Theorem objective_degenerate_cases (sigma lambda_ mu_J sigma_J : npfloat)
  (hist : list npfloat) (S0 r : npfloat) (num_steps num_simulations : Z)
  (g g' : rng) (paths : list (list npfloat)) :
  merton_jump_diffusion_paths S0 r sigma lambda_ mu_J sigma_J
    num_steps num_simulations dt_default g = Ok (paths, g') ->
  (compared_length num_steps hist = O ->
   calculate_mse [sigma; lambda_; mu_J; sigma_J] hist S0 r num_steps
     num_simulations g = Ok (NaN, g'))
  /\ (num_simulations = 0%Z -> (1 <= compared_length num_steps hist)%nat ->
      calculate_mse [sigma; lambda_; mu_J; sigma_J] hist S0 r num_steps
        num_simulations g = Ok (PInf, g')).
Proof.
  intros H. rewrite (calculate_mse_of_paths _ _ _ _ _ _ _ _ _ _ _ _ H). split.
  - intros HL. now rewrite mse_of_paths_nothing_compared.
  - intros Hn HL. apply merton_shape in H. destruct H as [Hrows _].
    subst num_simulations. destruct paths; [| discriminate].
    now rewrite mse_of_paths_no_paths.
Qed.

Lemma objective_degenerate_cases_witness :
  exists paths g',
    merton_jump_diffusion_paths (Fin 100) (Fin 0.0002) (Fin 0.2) (Fin 0.05)
      (Fin 0) (Fin 0.02) 2 0 dt_default rng0 = Ok (paths, g') /\
    (compared_length 2 [Fin 0.01; Fin (-0.02)] = O ->
     calculate_mse [Fin 0.2; Fin 0.05; Fin 0; Fin 0.02] [Fin 0.01; Fin (-0.02)]
       (Fin 100) (Fin 0.0002) 2 0 rng0 = Ok (NaN, g'))
    /\ (0%Z = 0%Z -> (1 <= compared_length 2 [Fin 0.01; Fin (-0.02)])%nat ->
        calculate_mse [Fin 0.2; Fin 0.05; Fin 0; Fin 0.02] [Fin 0.01; Fin (-0.02)]
          (Fin 100) (Fin 0.0002) 2 0 rng0 = Ok (PInf, g')).
Proof.
  destruct (merton_total (Fin 100) (Fin 0.0002) (Fin 0.2) (Fin 0.05) (Fin 0)
              (Fin 0.02) 2 0 dt_default (0.05 * 1) rng0) as (paths & g' & H).
  - lia.
  - lia.
  - cbn. destruct (Rlt_dec 0.02 0); [lra | reflexivity].
  - apply literal_rate_ok. lra.
  - exists paths, g'. split; [exact H |].
    exact (objective_degenerate_cases _ _ _ _ _ _ _ _ _ _ _ _ H).
Defined.

Lemma Rsum_list_zero (l : list R) :
  Forall (fun a => 0 <= a) l -> Rsum_list l = 0 -> Forall (fun a => a = 0) l.
Proof.
  induction 1 as [| a l Ha Hl IH]; intros Hs; [constructor |].
  cbn in Hs. pose proof (Rsum_list_nonneg l Hl) as Hn.
  constructor; [unfold Rsum_list in *; lra |].
  apply IH. unfold Rsum_list in *. lra.
Qed.

Lemma Rsum_list_all_zero (l : list R) :
  Forall (fun a => a = 0) l -> Rsum_list l = 0.
Proof.
  induction 1 as [| a l Ha _ IH]; [reflexivity |].
  cbn. unfold Rsum_list in IH. lra.
Qed.

Lemma mean_squared_error_zero (paths : list (list npfloat)) (hist : list npfloat)
  (num_steps : Z) :
  (1 <= compared_length num_steps hist)%nat ->
  (mean_squared_error paths hist num_steps = 0 <->
   forall i, (i < compared_length num_steps hist)%nat ->
     average_log_return paths i = real_part (nth i hist NaN)).
Proof.
  intros HL. unfold mean_squared_error. cbv zeta.
  set (L := compared_length num_steps hist) in *.
  set (f := fun i => Rsqr (average_log_return paths i - real_part (nth i hist NaN))).
  assert (HLpos : 0 < INR L) by (apply lt_0_INR; lia).
  assert (Hnn : Forall (fun a => 0 <= a) (map f (seq 0 L))).
  { apply Forall_map_iff, Forall_forall. intros i _. apply Rle_0_sqr. }
  unfold rsum. split.
  - intros H i Hi.
    assert (Hs : Rsum_list (map f (seq 0 L)) = 0).
    { apply (Rmult_eq_reg_r (/ INR L)); [| apply Rinv_neq_0_compat; lra].
      unfold Rdiv in H. lra. }
    apply Rsum_list_zero in Hs; [| exact Hnn].
    rewrite Forall_map_iff, Forall_forall in Hs.
    assert (Hin : In i (seq 0 L)) by (apply in_seq; lia).
    apply Hs in Hin. unfold f in Hin. apply Rsqr_0_uniq in Hin. lra.
  - intros H. rewrite Rsum_list_all_zero; [unfold Rdiv; lra |].
    apply Forall_map_iff, Forall_forall. intros i Hi. apply in_seq in Hi.
    unfold f. rewrite H by lia. unfold Rsqr. lra.
Qed.

(** X15. A finite value of the objective is 0 exactly when the averaged
    simulated log return equals the historical log return at every
    compared step. *)
Theorem objective_zero_iff_exact_fit (params hist : list npfloat) (S0 r : npfloat)
  (num_steps num_simulations : Z) (g g' : rng) (v : R) :
  calculate_mse params hist S0 r num_steps num_simulations g = Ok (Fin v, g') ->
  exists sigma lambda_ mu_J sigma_J paths,
    params = [sigma; lambda_; mu_J; sigma_J] /\
    merton_jump_diffusion_paths S0 r sigma lambda_ mu_J sigma_J
      num_steps num_simulations dt_default g = Ok (paths, g') /\
    (v = 0 <->
     forall i, (i < compared_length num_steps hist)%nat ->
       average_log_return paths i = real_part (nth i hist NaN)).
Proof.
  intros H. apply calculate_mse_inv in H.
  destruct H as (sigma & lambda_ & mu_J & sigma_J & paths & Hparams & Hp & Hv).
  exists sigma, lambda_, mu_J, sigma_J, paths.
  split; [exact Hparams |]. split; [exact Hp |].
  symmetry in Hv. apply mse_of_paths_fin_inv in Hv.
  - destruct Hv as [-> HL]. now apply mean_squared_error_zero.
  - exact (proj2 (merton_shape _ _ _ _ _ _ _ _ _ _ _ _ Hp)).
Qed.

Lemma objective_zero_iff_exact_fit_witness :
  exists v g',
    calculate_mse [Fin 0.2; Fin 0.05; Fin 0; Fin 0.02] [Fin 0.01; Fin (-0.02)]
      (Fin 100) (Fin 0.0002) 2 3 rng0 = Ok (Fin v, g')
    /\ exists sigma lambda_ mu_J sigma_J paths,
        [Fin 0.2; Fin 0.05; Fin 0; Fin 0.02] = [sigma; lambda_; mu_J; sigma_J] /\
        merton_jump_diffusion_paths (Fin 100) (Fin 0.0002) sigma lambda_ mu_J
          sigma_J 2 3 dt_default rng0 = Ok (paths, g') /\
        (v = 0 <->
         forall i, (i < compared_length 2 [Fin 0.01; Fin (-0.02)])%nat ->
           average_log_return paths i
           = real_part (nth i [Fin 0.01; Fin (-0.02)] NaN)).
Proof.
  destruct (calculate_mse_finite 0.2 0.05 0 0.02 100 0.0002
              [Fin 0.01; Fin (-0.02)] 2 3 rng0) as (v & g' & H & _).
  - pose proof POISSON_LAM_MAX_large. lra.
  - lra.
  - lia.
  - repeat constructor.
  - apply Nat.leb_le. reflexivity.
  - exists v, g'. split; [exact H |].
    exact (objective_zero_iff_exact_fit _ _ _ _ _ _ _ _ _ H).
Defined.

(** ** Option pricing *)

(** X16. Put-call parity of [black_scholes_option_pricing], for every
    positive spot, strike, maturity and volatility and every rate: both
    prices are finite and call - put = ST - K exp(-r T). *)
Theorem put_call_parity (S K T r sigma : R) :
  0 < S -> 0 < K -> 0 < T -> 0 < sigma ->
  exists c p : R,
    black_scholes_option_pricing (Fin S) (Fin K) (Fin T) (Fin r) (Fin sigma) "call"
    = Ok (Fin c) /\
    black_scholes_option_pricing (Fin S) (Fin K) (Fin T) (Fin r) (Fin sigma) "put"
    = Ok (Fin p) /\
    c - p = S - K * exp (- r * T).
Proof.
  intros HS HK HT Hs.
  exists (ClosedForm.call S K T r sigma), (ClosedForm.put S K T r sigma).
  split; [now apply ClosedFormFacts.black_scholes_call_fin |].
  split; [now apply ClosedFormFacts.black_scholes_put_fin |].
  apply ClosedFormFacts.parity.
Qed.

Lemma put_call_parity_witness :
  exists c p : R,
    black_scholes_option_pricing (Fin 50) (Fin 60) (Fin 0.5) (Fin 0.03) (Fin 0.4)
      "call" = Ok (Fin c) /\
    black_scholes_option_pricing (Fin 50) (Fin 60) (Fin 0.5) (Fin 0.03) (Fin 0.4)
      "put" = Ok (Fin p) /\
    c - p = 50 - 60 * exp (- (0.03) * 0.5).
Proof. apply (put_call_parity 50 60 0.5 0.03 0.4); lra. Defined.

Lemma d1_at_expiry (S K r sigma : R) :
  0 < S -> 0 < K ->
  fdiv (fadd (flog (fdiv (Fin S) (Fin K)))
             (fmul (fadd (Fin r) (fmul (Fin 0.5) (fpow2 (Fin sigma)))) (Fin 0)))
       (fmul (Fin sigma) (fsqrt (Fin 0)))
  = scale_inf (ln (S / K)) PInf.
Proof.
  intros HS HK. rewrite fdiv_fin by lra.
  rewrite flog_fin by now apply ClosedFormFacts.ratio_pos.
  rewrite fsqrt_fin by lra. rewrite sqrt_0.
  cbn [fpow2 fmul fadd fdiv].
  destruct (Req_EM_T (sigma * 0) 0) as [_ | Hne]; [| exfalso; apply Hne; ring].
  f_equal. ring.
Qed.

Lemma ln_ratio_sign (S K : R) :
  0 < S -> 0 < K ->
  (K < S -> 0 < ln (S / K)) /\ (S < K -> ln (S / K) < 0) /\ (S = K -> ln (S / K) = 0).
Proof.
  intros HS HK.
  assert (Hr : 0 < S / K) by now apply ClosedFormFacts.ratio_pos.
  assert (Hone : forall a b, 0 < b -> a < b -> a / b < 1).
  { intros a b Hb Hab. apply (Rmult_lt_reg_r b); [exact Hb |].
    unfold Rdiv. rewrite Rmult_assoc, Rinv_l by lra. lra. }
  assert (Hbig : forall a b, 0 < b -> b < a -> 1 < a / b).
  { intros a b Hb Hab. apply (Rmult_lt_reg_r b); [exact Hb |].
    unfold Rdiv. rewrite Rmult_assoc, Rinv_l by lra. lra. }
  repeat split.
  - intros H. rewrite <- ln_1. apply ln_increasing; [lra | now apply Hbig].
  - intros H. rewrite <- ln_1. apply ln_increasing; [exact Hr | now apply Hone].
  - intros ->. unfold Rdiv. rewrite Rinv_r by lra. apply ln_1.
Qed.

(** X17. [black_scholes_option_pricing] at expiry (T = 0), for a positive
    spot and strike and a volatility that is not negative (so that the
    divisor sigma * sqrt(0) is +0.0): d1 is a division by zero, and the
    price is the intrinsic value when the option is in or out of the
    money, and NaN when spot and strike are equal. *)
Theorem price_at_expiry (S K r sigma : R) :
  0 < S -> 0 < K -> 0 <= sigma ->
  (K < S ->
   black_scholes_option_pricing (Fin S) (Fin K) (Fin 0) (Fin r) (Fin sigma) "call"
   = Ok (Fin (S - K)) /\
   black_scholes_option_pricing (Fin S) (Fin K) (Fin 0) (Fin r) (Fin sigma) "put"
   = Ok (Fin 0))
  /\ (S < K ->
      black_scholes_option_pricing (Fin S) (Fin K) (Fin 0) (Fin r) (Fin sigma) "call"
      = Ok (Fin 0) /\
      black_scholes_option_pricing (Fin S) (Fin K) (Fin 0) (Fin r) (Fin sigma) "put"
      = Ok (Fin (K - S)))
  /\ (S = K ->
      black_scholes_option_pricing (Fin S) (Fin K) (Fin 0) (Fin r) (Fin sigma) "call"
      = Ok NaN /\
      black_scholes_option_pricing (Fin S) (Fin K) (Fin 0) (Fin r) (Fin sigma) "put"
      = Ok NaN).
Proof.
  intros HS HK Hsigma.
  destruct (ln_ratio_sign S K HS HK) as (Hgt & Hlt & Heq).
  assert (He : exp (- r * 0) = 1) by (rewrite Rmult_0_r; apply exp_0).
  unfold black_scholes_option_pricing. cbv zeta.
  rewrite d1_at_expiry by assumption.
  rewrite fsqrt_fin by lra. rewrite sqrt_0.
  simpl String.eqb. cbv iota. unfold scale_inf.
  split; [| split]; intros H; split.
  - specialize (Hgt H). destruct (Rlt_dec 0 (ln (S / K))); [| lra].
    cbn. rewrite He. do 2 f_equal. lra.
  - specialize (Hgt H). destruct (Rlt_dec 0 (ln (S / K))); [| lra].
    cbn. rewrite He. do 2 f_equal. lra.
  - specialize (Hlt H). destruct (Rlt_dec 0 (ln (S / K))); [lra |].
    destruct (Rlt_dec (ln (S / K)) 0); [| lra].
    cbn. rewrite He. do 2 f_equal. lra.
  - specialize (Hlt H). destruct (Rlt_dec 0 (ln (S / K))); [lra |].
    destruct (Rlt_dec (ln (S / K)) 0); [| lra].
    cbn. rewrite He. do 2 f_equal. lra.
  - specialize (Heq H). destruct (Rlt_dec 0 (ln (S / K))); [lra |].
    destruct (Rlt_dec (ln (S / K)) 0); [lra |]. reflexivity.
  - specialize (Heq H). destruct (Rlt_dec 0 (ln (S / K))); [lra |].
    destruct (Rlt_dec (ln (S / K)) 0); [lra |]. reflexivity.
Qed.

Lemma price_at_expiry_witness :
  black_scholes_option_pricing (Fin 100) (Fin 100) (Fin 0) (Fin 0.02) (Fin 0.2) "call"
  = Ok NaN /\
  black_scholes_option_pricing (Fin 100) (Fin 100) (Fin 0) (Fin 0.02) (Fin 0.2) "put"
  = Ok NaN.
Proof.
  apply (price_at_expiry 100 100 0.02 0.2); [lra | lra | lra | reflexivity].
Defined.

Lemma compute_jump_parameters_inv_all
  (r sigma lam mu_J sigma_J T : npfloat) (g g' : rng)
  (n : nat) (Z m r_n sigma_n lambda_n : npfloat) :
  compute_jump_parameters r sigma lam mu_J sigma_J T g
  = Ok ((n, Z, m, r_n, sigma_n, lambda_n), g') ->
  m = fsub (fexp (fadd mu_J (fmul (Fin 0.5) (fpow2 sigma_J)))) (Fin 1) /\
  r_n = fadd (fsub r (fmul lam m))
             (fdiv (fmul (Fin (INR n)) (flog (fadd (Fin 1) m))) T) /\
  lambda_n = fmul lam (fadd (Fin 1) m) /\
  (exists z, Z = Fin z) /\
  exists l, poisson_rate (fmul lam T) = Some l.
Proof.
  unfold compute_jump_parameters. intros H.
  apply bind_ok in H. destruct H as (n0 & g1 & Hn & H).
  apply bind_ok in H. destruct H as (Z0 & g2 & HZ & H).
  unfold ret in H. inversion H; subst. repeat split.
  - revert HZ. unfold np_random_normal, negative.
    destruct (Rlt_dec 1 0); [lra |].
    unfold normal_draw, next_normal, bind, ret. intros HZ. inversion HZ; subst.
    eexists. reflexivity.
  - unfold np_random_poisson in Hn.
    destruct (poisson_rate (fmul lam T)) as [l |]; [now exists l | discriminate].
Qed.

(** X18. The adjusted parameters [compute_jump_parameters] returns, for
    finite arguments and T > 0, with a = mu_J + sigma_J^2 / 2 and n the
    jump count drawn: m = exp(a) - 1, r_n = r - lambda m + n a / T (the
    logarithm of 1 + m is a), sigma_n = sqrt(sigma^2 + n sigma_J^2 / T),
    lambda_n = lambda exp(a); the normal variable is finite and the rate
    lambda T was one NumPy accepts. *)
Theorem jump_parameters_closed_form
  (r sigma lam mu_J sigma_J T : R) (g g' : rng)
  (n : nat) (Z m r_n sigma_n lambda_n : npfloat) :
  0 < T ->
  compute_jump_parameters (Fin r) (Fin sigma) (Fin lam) (Fin mu_J) (Fin sigma_J)
    (Fin T) g
  = Ok ((n, Z, m, r_n, sigma_n, lambda_n), g') ->
  m = Fin (exp (mu_J + 0.5 * (sigma_J * sigma_J)) - 1) /\
  r_n = Fin (r - lam * (exp (mu_J + 0.5 * (sigma_J * sigma_J)) - 1)
             + INR n * (mu_J + 0.5 * (sigma_J * sigma_J)) / T) /\
  sigma_n = Fin (sqrt (sigma * sigma + INR n * (sigma_J * sigma_J) / T)) /\
  lambda_n = Fin (lam * exp (mu_J + 0.5 * (sigma_J * sigma_J))) /\
  (exists z, Z = Fin z) /\
  0 <= lam * T <= POISSON_LAM_MAX.
Proof.
  intros HT H.
  pose proof (compute_jump_parameters_inv _ _ _ _ _ _ _ _ _ _ _ _ _ _ H) as Hs.
  apply compute_jump_parameters_inv_all in H.
  destruct H as (Hm & Hr & Hl & HZ & l & Hrate).
  set (a := mu_J + 0.5 * (sigma_J * sigma_J)) in *.
  assert (Em : m = Fin (exp a - 1)).
  { rewrite Hm. cbn [fpow2 fmul fadd fexp fsub fneg]. reflexivity. }
  assert (El : flog (fadd (Fin 1) m) = Fin a).
  { rewrite Em. cbn [fadd]. rewrite flog_fin by (pose proof (exp_pos a); lra).
    f_equal. replace (1 + (exp a - 1)) with (exp a) by lra. apply ln_exp. }
  split; [exact Em |]. split.
  { rewrite Hr, El, Em. cbn [fmul fsub fneg fadd].
    rewrite fdiv_fin by lra. cbn [fadd]. f_equal. }
  split.
  { rewrite Hs. cbn [fpow2 fmul]. rewrite fdiv_fin by lra. cbn [fadd].
    apply fsqrt_fin.
    assert (0 <= INR n * (sigma_J * sigma_J) / T).
    { apply Rmult_le_pos; [| left; apply Rinv_0_lt_compat; exact HT].
      apply Rmult_le_pos; [apply pos_INR | nra]. }
    nra. }
  split.
  { rewrite Hl, Em. cbn [fadd fmul]. f_equal.
    replace (1 + (exp a - 1)) with (exp a) by lra. reflexivity. }
  split; [exact HZ |].
  apply poisson_rate_some in Hrate. destruct Hrate as [E Hb].
  cbn [fmul] in E. inversion E; subst. exact Hb.
Qed.

Lemma jump_parameters_closed_form_witness :
  exists n Z m r_n sigma_n lambda_n g',
    compute_jump_parameters (Fin 0.02) (Fin 0.2) (Fin 1) (Fin 0) (Fin 0.1) (Fin 1) rng0
    = Ok ((n, Z, m, r_n, sigma_n, lambda_n), g') /\
    m = Fin (exp (0 + 0.5 * (0.1 * 0.1)) - 1) /\
    r_n = Fin (0.02 - 1 * (exp (0 + 0.5 * (0.1 * 0.1)) - 1)
               + INR n * (0 + 0.5 * (0.1 * 0.1)) / 1) /\
    sigma_n = Fin (sqrt (0.2 * 0.2 + INR n * (0.1 * 0.1) / 1)) /\
    lambda_n = Fin (1 * exp (0 + 0.5 * (0.1 * 0.1))) /\
    (exists z, Z = Fin z) /\
    0 <= 1 * 1 <= POISSON_LAM_MAX.
Proof.
  destruct (compute_jump_parameters_total (Fin 0.02) (Fin 0.2) (Fin 1) (Fin 0)
              (Fin 0.1) (Fin 1) (1 * 1) rng0)
    as ([[[[[n Z] m] r_n] sigma_n] lambda_n] & g' & H).
  - apply poisson_rate_fin. pose proof POISSON_LAM_MAX_large. lra.
  - exists n, Z, m, r_n, sigma_n, lambda_n, g'. split; [exact H |].
    apply (jump_parameters_closed_form 0.02 0.2 1 0 0.1 1 rng0 g'); [lra | exact H].
Defined.

(** X19. [stock_price_with_jumps] for a positive initial price, finite
    arguments and T >= 0: the price is a positive real number, its log
    return over the initial price is the exponent
    r_n T - sigma_n^2 T / 2 + sigma_n sqrt(T) Z, and at T = 0 the price is
    the initial price. *)
Theorem terminal_price_is_lognormal (S0 r_n sigma_n T Z : R) :
  0 < S0 -> 0 <= T ->
  (exists s, stock_price_with_jumps (Fin S0) (Fin r_n) (Fin sigma_n) (Fin T) (Fin Z)
             = Fin s /\ 0 < s) /\
  flog (fdiv (stock_price_with_jumps (Fin S0) (Fin r_n) (Fin sigma_n) (Fin T) (Fin Z))
             (Fin S0))
  = Fin (r_n * T - 0.5 * (sigma_n * sigma_n) * T + sigma_n * sqrt T * Z) /\
  stock_price_with_jumps (Fin S0) (Fin r_n) (Fin sigma_n) (Fin 0) (Fin Z) = Fin S0.
Proof.
  intros HS HT.
  assert (E : forall t, 0 <= t ->
            stock_price_with_jumps (Fin S0) (Fin r_n) (Fin sigma_n) (Fin t) (Fin Z)
            = Fin (S0 * exp (r_n * t - 0.5 * (sigma_n * sigma_n) * t
                             + sigma_n * sqrt t * Z))).
  { intros t Ht. unfold stock_price_with_jumps. rewrite fsqrt_fin by exact Ht.
    reflexivity. }
  split; [| split].
  - rewrite E by exact HT. eexists. split; [reflexivity |].
    apply Rmult_lt_0_compat; [exact HS | apply exp_pos].
  - rewrite E by exact HT. rewrite fdiv_fin by lra.
    set (x := r_n * T - 0.5 * (sigma_n * sigma_n) * T + sigma_n * sqrt T * Z).
    replace (S0 * exp x / S0) with (exp x) by (field; lra).
    rewrite flog_fin by apply exp_pos. now rewrite ln_exp.
  - rewrite E by lra. f_equal. rewrite sqrt_0.
    replace (r_n * 0 - 0.5 * (sigma_n * sigma_n) * 0 + sigma_n * 0 * Z) with 0 by ring.
    rewrite exp_0. ring.
Qed.

Lemma terminal_price_is_lognormal_witness :
  (exists s, stock_price_with_jumps (Fin 100) (Fin 0.02) (Fin 0.2) (Fin 1) (Fin 0.5)
             = Fin s /\ 0 < s) /\
  flog (fdiv (stock_price_with_jumps (Fin 100) (Fin 0.02) (Fin 0.2) (Fin 1) (Fin 0.5))
             (Fin 100))
  = Fin (0.02 * 1 - 0.5 * (0.2 * 0.2) * 1 + 0.2 * sqrt 1 * 0.5) /\
  stock_price_with_jumps (Fin 100) (Fin 0.02) (Fin 0.2) (Fin 0) (Fin 0.5) = Fin 100.
Proof. apply (terminal_price_is_lognormal 100 0.02 0.2 1 0.5); lra. Defined.

Lemma py_range_empty (n : Z) : (n <= 0)%Z -> py_range n = [].
Proof. intros H. unfold py_range. now replace (Z.to_nat n) with O by lia. Qed.

(** X20. [black_scholes_with_jumps] with no outer repetition, for every
    other argument (the option type included): with [num_simulations = 0]
    the final division raises ZeroDivisionError, with a negative count the
    routine returns 0; no draw is consumed. *)
Theorem jumps_price_without_passes
  (ST K T r_annual sigma_annual lambda_annual mu_J_annual sigma_J_annual : npfloat)
  (option_type : string) (num_simulations : Z) (g : rng) :
  (num_simulations <= 0)%Z ->
  black_scholes_with_jumps ST K T r_annual sigma_annual lambda_annual mu_J_annual
    sigma_J_annual option_type num_simulations g
  = if (num_simulations =? 0)%Z then Raise ZeroDivisionError else Ok (Fin 0, g).
Proof.
  intros H. unfold black_scholes_with_jumps.
  rewrite py_range_empty by exact H. cbn [for_loop]. unfold bind, ret.
  destruct (num_simulations =? 0)%Z eqn:E; [reflexivity |].
  apply Z.eqb_neq in E. unfold raise.
  assert (Hnz : IZR num_simulations <> 0).
  { apply Rlt_not_eq. apply (IZR_lt _ 0). lia. }
  rewrite fdiv_fin by exact Hnz. do 3 f_equal. unfold Rdiv. ring.
Qed.

Lemma jumps_price_without_passes_witness :
  black_scholes_with_jumps (Fin 100) (Fin 100) (Fin 1) (Fin 0.02) (Fin 0.2)
    (Fin 1) (Fin 0) (Fin 0.1) "call" (-5) rng0
  = Ok (Fin 0, rng0).
Proof.
  apply (jumps_price_without_passes (Fin 100) (Fin 100) (Fin 1) (Fin 0.02) (Fin 0.2)
           (Fin 1) (Fin 0) (Fin 0.1) "call" (-5) rng0).
  lia.
Defined.

(** X21. At jump intensity 0 [black_scholes_with_jumps] returns ten times
    the price of [black_scholes_option_pricing], for calls and puts, every
    number of outer repetitions, every jump mean and jump volatility and
    every state of the random source, as long as the clamps of the routine
    are not active (r T within [-700, 700], d1 and d2 within [-10, 10]). *)
Theorem jumps_price_at_zero_intensity
  (S K T r sigma mu_J sigma_J : R) (option_type : string)
  (num_simulations : Z) (g : rng) :
  0 < S -> 0 < K -> 0 < T -> 0 < sigma ->
  option_type = "call"%string \/ option_type = "put"%string ->
  -700 <= r * T <= 700 ->
  -10 <= ClosedForm.d1 S K T r sigma <= 10 ->
  -10 <= ClosedForm.d2 S K T r sigma <= 10 ->
  (1 <= num_simulations)%Z ->
  exists p : R,
    black_scholes_option_pricing (Fin S) (Fin K) (Fin T) (Fin r) (Fin sigma)
      option_type = Ok (Fin p) /\
    outcome
      (black_scholes_with_jumps (Fin S) (Fin K) (Fin T) (Fin r) (Fin sigma) (Fin 0)
         (Fin mu_J) (Fin sigma_J) option_type num_simulations g)
    = Ok (Fin (10 * p)).
Proof.
  intros HS HK HT Hs Hty Hx Hd1 Hd2 Hn.
  exists (ClosedForm.price S K T r sigma option_type). split.
  - now apply closed_form_price.
  - now apply black_scholes_with_jumps_no_jumps.
Qed.

Lemma jumps_price_at_zero_intensity_witness :
  exists p : R,
    black_scholes_option_pricing (Fin 100) (Fin 100) (Fin 1) (Fin 0.02) (Fin 0.2)
      "put" = Ok (Fin p) /\
    outcome
      (black_scholes_with_jumps (Fin 100) (Fin 100) (Fin 1) (Fin 0.02) (Fin 0.2)
         (Fin 0) (Fin 0.3) (Fin 0.1) "put" 5 rng0)
    = Ok (Fin (10 * p)).
Proof.
  apply (jumps_price_at_zero_intensity 100 100 1 0.02 0.2 0.3 0.1 "put" 5 rng0);
    try lra; try lia.
  - now right.
  - rewrite d1_literal. lra.
  - rewrite d2_literal. lra.
Defined.

Lemma for_loop_error_kind {A : Type} (P : exn -> Prop) (body : nat -> A -> M A) :
  (forall i a g e, body i a g = Raise e -> P e) ->
  forall idx a g e, for_loop idx body a g = Raise e -> P e.
Proof.
  intros Hbody idx. induction idx as [| i rest IH]; intros a g e H.
  - discriminate.
  - cbn [for_loop] in H. unfold bind in H.
    destruct (body i a g) as [[a' g'] | e'] eqn:E.
    + exact (IH _ _ _ H).
    + inversion H; subst. exact (Hbody _ _ _ _ E).
Qed.

Lemma jump_scenario_raise
  (ST K T r sigma lam mu_J sigma_J : npfloat) (option_type : string)
  (i : nat) (acc : npfloat) (g : rng) (e : exn) :
  jump_scenario ST K T r sigma lam mu_J sigma_J option_type i acc g = Raise e ->
  e = ValueError.
Proof.
  unfold jump_scenario. intros H. unfold bind at 1 in H.
  destruct (compute_jump_parameters r sigma lam mu_J sigma_J T g)
    as [[[[[[[n Z] m] r_n] sigma_n] lambda_n] g1] | e1] eqn:E.
  - revert H. destruct (String.eqb option_type "call"); [discriminate |].
    destruct (String.eqb option_type "put"); [discriminate |].
    unfold bind, raise. intros H. now inversion H.
  - inversion H; subst. exact (compute_jump_parameters_raise _ _ _ _ _ _ _ _ E).
Qed.

(** X22. [black_scholes_with_jumps] fails in two ways only: with
    ValueError, raised inside the loop (so with at least one outer
    repetition), or with ZeroDivisionError, raised by the final division
    when [num_simulations] is 0. *)
Theorem jumps_price_error_kinds
  (ST K T r_annual sigma_annual lambda_annual mu_J_annual sigma_J_annual : npfloat)
  (option_type : string) (num_simulations : Z) (g : rng) (e : exn) :
  black_scholes_with_jumps ST K T r_annual sigma_annual lambda_annual mu_J_annual
    sigma_J_annual option_type num_simulations g = Raise e ->
  (e = ValueError /\ (1 <= num_simulations)%Z) \/
  (e = ZeroDivisionError /\ num_simulations = 0%Z).
Proof.
  unfold black_scholes_with_jumps. intros H. unfold bind at 1 in H.
  match type of H with
  | match ?loop with _ => _ end = _ => destruct loop as [[acc g1] | e1] eqn:E
  end.
  - destruct (num_simulations =? 0)%Z eqn:En; [| discriminate].
    apply Z.eqb_eq in En. inversion H; subst. right. now split.
  - inversion H; subst. left. split.
    + revert E. apply (for_loop_error_kind (fun e => e = ValueError)).
      intros i a g0 e0. apply (for_loop_error_kind (fun e => e = ValueError)).
      intros j b g2 e2. apply jump_scenario_raise.
    + destruct (Z.le_gt_cases 1 num_simulations) as [Hn | Hn]; [exact Hn |].
      rewrite py_range_empty in E by lia. discriminate.
Qed.

Lemma jumps_price_error_kinds_witness :
  (ValueError = ValueError /\ (1 <= 1)%Z) \/
  (ValueError = ZeroDivisionError /\ 1%Z = 0%Z).
Proof.
  apply (jumps_price_error_kinds (Fin 100) (Fin 100) (Fin 1) (Fin 0.02) (Fin 0.2)
           (Fin 1) (Fin 0) (Fin 0.1) "straddle" 1 rng0 ValueError).
  apply black_scholes_with_jumps_invalid; [discriminate | discriminate | lia].
Defined.

(** *** The Monte Carlo price *)




















(** ** The multi-run calibration *)

(** X27. With [num_runs <= 0] [run_multiple_calibrations] never calls the
    optimizer: it returns no result, no average parameter vector and no
    average error, and leaves the random source as it was. *)
Theorem no_runs_no_calibration
  (differential_evolution :
     (list npfloat -> M npfloat) -> list (R * R) -> Z -> R -> bool -> Z -> Z ->
     M OptimizeResult)
  (historical_returns : list npfloat) (S0 r : npfloat)
  (num_steps num_simulations_calibration num_runs : Z) (g : rng) :
  (num_runs <= 0)%Z ->
  run_multiple_calibrations differential_evolution historical_returns S0 r
    num_steps num_simulations_calibration num_runs g
  = Ok (([], None, None), g).
Proof.
  intros H. unfold run_multiple_calibrations.
  rewrite py_range_empty by exact H. reflexivity.
Qed.

Lemma no_runs_no_calibration_witness :
  run_multiple_calibrations scripted_optimizer [Fin 0.01; Fin (-0.02)] (Fin 100)
    (Fin 0.0002) 2 1 0 rng0
  = Ok (([], None, None), rng0).
Proof.
  apply (no_runs_no_calibration scripted_optimizer [Fin 0.01; Fin (-0.02)] (Fin 100)
           (Fin 0.0002) 2 1 0 rng0).
  lia.
Defined.

(** X28. Whatever the optimizer does, a result of
    [run_multiple_calibrations] keeps successful runs only and at most
    [num_runs] of them, and the two averages are present exactly when a
    run was kept. *)
Theorem calibration_output_invariant
  (differential_evolution :
     (list npfloat -> M npfloat) -> list (R * R) -> Z -> R -> bool -> Z -> Z ->
     M OptimizeResult)
  (historical_returns : list npfloat) (S0 r : npfloat)
  (num_steps num_simulations_calibration num_runs : Z) (g g' : rng)
  (results : list OptimizeResult) (avg_params : option (list npfloat))
  (avg_mse : option npfloat) :
  run_multiple_calibrations differential_evolution historical_returns S0 r
    num_steps num_simulations_calibration num_runs g
  = Ok ((results, avg_params, avg_mse), g') ->
  Forall (fun res => success res = true) results /\
  (length results <= Z.to_nat num_runs)%nat /\
  (results = [] <-> avg_params = None) /\
  (avg_params = None <-> avg_mse = None).
Proof.
  intros H. rewrite run_multiple_calibrations_refines in H.
  unfold multi_run_spec in H.
  apply bind_ok in H. destruct H as (runs & g1 & Hruns & H).
  assert (Hlen : length runs = Z.to_nat num_runs).
  { exact (proj2 (draw_list_post _ (fun _ => True) (fun _ _ _ _ => I)
                    _ _ _ _ Hruns)). }
  assert (Hsucc : Forall (fun res => success res = true) (filter success runs)).
  { apply Forall_forall. intros res Hres. now apply filter_In in Hres. }
  assert (Hle : (length (filter success runs) <= Z.to_nat num_runs)%nat).
  { rewrite <- Hlen. apply filter_length_le. }
  revert H Hsucc Hle. generalize (filter success runs) as retained.
  intros retained H Hsucc Hle. unfold aggregate_retained in H.
  destruct retained as [| first others].
  - cbn in H. inversion H; subst. repeat split; auto.
  - destruct (np_mean_axis0_of (map x (first :: others))) as [avg | e];
      [| discriminate].
    cbn in H. inversion H; subst.
    repeat split; try assumption; intros; discriminate.
Qed.

Lemma calibration_output_invariant_witness :
  run_multiple_calibrations scripted_optimizer [Fin 0.01; Fin (-0.02)] (Fin 100)
    (Fin 0.0002) 2 1 1 rng0
  = Ok (([run_a], Some (np_mean_axis0 4 [x run_a]), Some (np_mean [fun_ run_a])),
        advance 1 rng0)
  /\ (Forall (fun res => success res = true) [run_a] /\
      (length [run_a] <= Z.to_nat 1)%nat /\
      ([run_a] = [] <-> Some (np_mean_axis0 4 [x run_a]) = None) /\
      (Some (np_mean_axis0 4 [x run_a]) = None <-> Some (np_mean [fun_ run_a]) = None)).
Proof.
  assert (H : run_multiple_calibrations scripted_optimizer [Fin 0.01; Fin (-0.02)]
                (Fin 100) (Fin 0.0002) 2 1 1 rng0
              = Ok (([run_a], Some (np_mean_axis0 4 [x run_a]),
                     Some (np_mean [fun_ run_a])), advance 1 rng0))
    by reflexivity.
  split; [exact H |].
  exact (calibration_output_invariant _ _ _ _ _ _ _ _ _ _ _ _ H).
Defined.
